(** * The audio segmentation and transcription pipeline of main.go

    A shallow embedding of the pipeline of [main.go]: the silence parser, the
    segment planner ([CreateSegments], [createSegment], [splitLongSegments]),
    the two worker pools ([ExtractAudioSegments], [ProcessWithCpp]) and the
    report writer ([OutputResults]).

    Conventions of the embedding.
    - A Go [float64] is the rational number it denotes and arithmetic on it is
      exact: rounding, infinities and NaN are outside the model, and so is a
      division by zero (the theorems on the bounding pass assume a positive
      [MaxSegmentDuration]).
    - A Go [int] is a [Z], without a bound; [len] of a slice is [Z.of_nat] of
      the list length.
    - A Go [string] is a [string] of bytes, a text in UTF-8.
    - A Go call that returns a value and an [error] returns a pair; the error
      is an [option] of its message.
    - The functions of package [strings] are defined here after their
      documentation. The other library functions ([filepath.Join],
      [strconv.ParseFloat], [sort.Slice], [json.MarshalIndent]) are the fields
      of a class [GoLib], and the external processes and the file system are
      the fields of a record [World]: a theorem holds for all of them, and
      says which property of them it needs.
    - The goroutines of the two worker pools are a transition system
      ([Pool.step]); what a pool can do is every run of that system.
    - Diagnostic prints ([fmt.Println], [fmt.Printf] outside [OutputResults])
      are left out. *)

From Stdlib Require Import ZArith QArith Qround Qabs Lia Lqa String Ascii List
  Permutation Sorted.
From stdpp Require Import base list.
Import ListNotations.

Local Open Scope string_scope.
Local Open Scope list_scope.
Local Open Scope Z_scope.
Local Open Scope Q_scope.

(** Concatenation of Go strings. *)
Local Infix "+++" := String.append (at level 60, right associativity).

(** ** Numbers *)

Abbreviation float64 := Q (only parsing).

(** [len(s)] of a slice. *)
Definition len {A : Type} (l : list A) : Z := Z.of_nat (length l).

(** [float64(i)] for an [int] [i]. *)
Definition float64_of_int (i : Z) : float64 := inject_Z i.

(** [int(f)]: the conversion truncates toward zero. *)
Definition int_of_float64 (f : float64) : Z := Z.quot (Qnum f) (Zpos (Qden f)).

Definition Qlt_bool (x y : Q) : bool := negb (Qle_bool y x).

(** ** Formatting verbs of [fmt.Sprintf] *)

Module Fmt.

Definition digit_char (d : N) : ascii := ascii_of_N (48 + d).

Fixpoint digits_fuel (fuel : nat) (n : N) (acc : string) : string :=
  match fuel with
  | O => acc
  | S fuel' =>
      let acc' := String (digit_char (n mod 10)) acc in
      if (n / 10 =? 0)%N then acc' else digits_fuel fuel' (n / 10)%N acc'
  end.

(** Decimal digits of a natural number, most significant first. *)
Definition itoa (n : N) : string :=
  digits_fuel (S (N.to_nat (N.log2 n))) n "".

Fixpoint zeros (k : nat) : string :=
  match k with
  | O => ""
  | S k' => String "0" (zeros k')
  end.

Definition pad_zero (width : nat) (s : string) : string :=
  zeros (width - String.length s) +++ s.

(** The verb [%03d]: at least three characters, the sign included, padded
    with zeros after the sign. *)
Definition d03 (i : Z) : string :=
  if (i <? 0)%Z then "-" +++ pad_zero 2 (itoa (Z.to_N (- i)))
  else pad_zero 3 (itoa (Z.to_N i)).

(** Nearest integer, ties to the even one. *)
Definition round_half_even (q : Q) : Z :=
  let fl := Qfloor q in
  match Qcompare (q - inject_Z fl) (1 # 2) with
  | Lt => fl
  | Gt => (fl + 1)%Z
  | Eq => if Z.even fl then fl else (fl + 1)%Z
  end.

(** The verb [%.<prec>f]: the value rounded to [prec] decimals. *)
Definition f (prec : nat) (x : float64) : string :=
  let scale := (10 ^ Z.of_nat prec)%Z in
  let m := round_half_even (Qabs x * inject_Z scale) in
  let sign := if Qlt_bool x 0 then "-" else "" in
  let int_part := itoa (Z.to_N (m / scale)) in
  match prec with
  | O => sign +++ int_part
  | _ => sign +++ int_part +++ "." +++ pad_zero prec (itoa (Z.to_N (m mod scale)))
  end.

End Fmt.

(** ** The functions of package [strings] used by the pipeline *)

Module Strings.

(** [prefix p s]: [s] starts with [p] ([strings.HasPrefix]). *)
Fixpoint HasPrefix (s p : string) {struct p} : bool :=
  match p, s with
  | EmptyString, _ => true
  | String _ _, EmptyString => false
  | String c p', String d s' => Ascii.eqb c d && HasPrefix s' p'
  end.

(** [strings.Contains(s, substr)]. *)
Fixpoint Contains (s substr : string) : bool :=
  HasPrefix s substr ||
  match s with
  | EmptyString => false
  | String _ rest => Contains rest substr
  end.

(** The scan of [strings.Split] for a non-empty separator: [skip] bytes of
    a separator found earlier are still to be passed over, and [cur] holds
    the bytes read since the last separator. *)
Fixpoint split_from (sep s : string) (skip : nat) (cur : string) : list string :=
  match s with
  | EmptyString => [cur]
  | String c rest =>
      match skip with
      | S k => split_from sep rest k cur
      | O =>
          if HasPrefix s sep
          then cur :: split_from sep rest (String.length sep - 1) ""
          else split_from sep rest 0 (cur +++ String c "")
      end
  end.

(** [strings.Split(s, sep)] for a non-empty [sep], the only use the
    pipeline makes of it; an empty [sep] is outside the model. *)
Definition Split (s sep : string) : list string :=
  match sep with
  | EmptyString => [s]
  | _ => split_from sep s 0 ""
  end.

(** The scan of [strings.ReplaceAll] for a non-empty [old]. *)
Fixpoint replace_from (old new s : string) (skip : nat) : string :=
  match s with
  | EmptyString => ""
  | String c rest =>
      match skip with
      | S k => replace_from old new rest k
      | O =>
          if HasPrefix s old
          then new +++ replace_from old new rest (String.length old - 1)
          else String c (replace_from old new rest 0)
      end
  end.

(** [strings.ReplaceAll(s, old, new)] for a non-empty [old]. *)
Definition ReplaceAll (s old new : string) : string :=
  match old with
  | EmptyString => s
  | _ => replace_from old new s 0
  end.

(** The white space of [unicode.IsSpace] below U+0080. *)
Definition ascii_space (c : ascii) : bool :=
  let n := N_of_ascii c in
  ((9 <=? n) && (n <=? 13) || (n =? 32))%N.

(** Width in bytes of the UTF-8 encoding of a white-space rune at the head
    of [s], and 0 when [s] does not start with one. The runes beyond ASCII
    are U+0085, U+00A0, U+1680, U+2000 to U+200A, U+2028, U+2029, U+202F,
    U+205F and U+3000. *)
Definition space_width (s : string) : nat :=
  match s with
  | EmptyString => 0
  | String c rest =>
      if ascii_space c then 1
      else
        match rest with
        | String d1 rest1 =>
            let b0 := N_of_ascii c in
            let b1 := N_of_ascii d1 in
            if ((b0 =? 194) && ((b1 =? 133) || (b1 =? 160)))%N then 2
            else
              match rest1 with
              | String d2 _ =>
                  let b2 := N_of_ascii d2 in
                  if (((b0 =? 225) && (b1 =? 154) && (b2 =? 128)) ||
                      ((b0 =? 226) && (b1 =? 128) &&
                       (((128 <=? b2) && (b2 <=? 138)) ||
                        (b2 =? 168) || (b2 =? 169) || (b2 =? 175))) ||
                      ((b0 =? 226) && (b1 =? 129) && (b2 =? 159)) ||
                      ((b0 =? 227) && (b1 =? 128) && (b2 =? 128)))%N
                  then 3 else 0
              | EmptyString => 0
              end
        | EmptyString => 0
        end
  end.

(** A finished field, if it has bytes. *)
Definition flush (cur : string) : list string :=
  match cur with
  | EmptyString => []
  | _ => [cur]
  end.

(** The scan of [strings.Fields]. *)
Fixpoint fields_from (s : string) (skip : nat) (cur : string) : list string :=
  match s with
  | EmptyString => flush cur
  | String c rest =>
      match skip with
      | S k => fields_from rest k cur
      | O =>
          match space_width s with
          | O => fields_from rest 0 (cur +++ String c "")
          | S k => flush cur ++ fields_from rest k ""
          end
      end
  end.

(** [strings.Fields(s)]: the maximal runs of bytes without white space. *)
Definition Fields (s : string) : list string := fields_from s 0 "".

Fixpoint trim_left (s : string) (skip : nat) : string :=
  match s with
  | EmptyString => ""
  | String c rest =>
      match skip with
      | S k => trim_left rest k
      | O =>
          match space_width s with
          | O => s
          | S k => trim_left rest k
          end
      end
  end.

Definition cons_unless_empty (c : ascii) (r : string) : string :=
  match r with
  | EmptyString => ""
  | _ => String c r
  end.

Fixpoint trim_right (s : string) (skip : nat) : string :=
  match s with
  | EmptyString => ""
  | String c rest =>
      match skip with
      | S k => cons_unless_empty c (trim_right rest k)
      | O =>
          match space_width s with
          | O => String c (trim_right rest 0)
          | S k => cons_unless_empty c (trim_right rest k)
          end
      end
  end.

(** [strings.TrimSpace(s)]. *)
Definition TrimSpace (s : string) : string := trim_right (trim_left s 0) 0.

End Strings.

(** ** Data model *)

(** [AudioSegment] represents a split audio segment. *)
Record AudioSegment : Type := mkAudioSegment {
  StartTime : float64;
  EndTime : float64;
  Filename : string;
  FilePath : string;
  Duration : float64
}.

(** [TranscriptionResult]: the result for one segment. *)
Record TranscriptionResult : Type := mkTranscriptionResult {
  Segment : AudioSegment;
  Text : string;
  Error : string
}.

(** [AudioAnalyzer] carries the configuration of the pipeline. *)
Record AudioAnalyzer : Type := mkAudioAnalyzer {
  InputFile : string;
  OutputDir : string;
  MaxWorkers : Z;
  SilenceThreshold : string;
  SilenceDuration : string;
  MinSegmentDuration : float64;
  MaxSegmentDuration : float64
}.

(** [NewAudioAnalyzer]: the worker count is pinned to 1 whatever the number of
    cores is. *)
Definition NewAudioAnalyzer (inputFile outputDir : string) : AudioAnalyzer :=
  let maxWorkers := 1%Z in
  let maxWorkers := if (maxWorkers <? 3)%Z then 1%Z else maxWorkers in
  {| InputFile := inputFile;
     OutputDir := outputDir;
     MaxWorkers := maxWorkers;
     SilenceThreshold := "-30dB";
     SilenceDuration := "5";
     MinSegmentDuration := 30;
     MaxSegmentDuration := 60 |}.

(** The zero values of the two structs. *)
Definition zero_AudioSegment : AudioSegment :=
  {| StartTime := 0; EndTime := 0; Filename := ""; FilePath := ""; Duration := 0 |}.

Definition zero_TranscriptionResult : TranscriptionResult :=
  {| Segment := zero_AudioSegment; Text := ""; Error := "" |}.

(** ** The Go library functions used by the pipeline *)

(** A Go [error] is the message it carries. *)
Definition error : Type := string.

Class GoLib : Type := {
  (** [filepath.Join] of two elements. *)
  filepath_Join : string -> string -> string;
  (** [strconv.ParseFloat(s, 64)]: the error, or the value. *)
  strconv_ParseFloat : string -> error + float64;
  (** [sort.Slice] on a slice of results, as a function of the [less]
      predicate on elements. *)
  sort_Slice : (TranscriptionResult -> TranscriptionResult -> bool) ->
               list TranscriptionResult -> list TranscriptionResult;
  (** [json.MarshalIndent(results, "", "  ")]. *)
  json_MarshalIndent : list TranscriptionResult -> error + string;
  (** [fmt.Sprintf(format)] without operands, for a [format] that contains a
      percent sign. *)
  fmt_verbs_without_operands : string -> string
}.

(** ** The world outside the program *)

(** A Go call that returns a value and an [error]: the error is [None] for
    [nil]. *)
Definition returned (A : Type) : Type := A * option error.

(** How a piece of the program ends: it returns, or [log.Fatal] ends the
    process ([Exit]), or the run time ends it with a panic or on finding every
    goroutine blocked ([Crash]). *)
Inductive outcome (A : Type) : Type :=
| Return (x : A)
| Exit
| Crash.
Arguments Return {A} x.
Arguments Exit {A}.
Arguments Crash {A}.

(** The external processes and the file system, as the answers they give.
    An answer depends on the call alone: the same command line gives the same
    answer whenever it runs. *)
Record World : Type := {
  (** [exec.Command(name, args...).CombinedOutput()]. *)
  exec_CombinedOutput : string -> list string -> returned string;
  (** [exec.Command(name, args...).Output()]. *)
  exec_Output : string -> list string -> returned string;
  (** [exec.Command(name, args...).Run()]. *)
  exec_Run : string -> list string -> option error;
  (** [os.MkdirAll(path, 0755)]. *)
  os_MkdirAll : string -> option error;
  (** [os.IsNotExist(err)] for the [err] of [os.Stat(path)]. *)
  os_Stat_IsNotExist : string -> bool;
  (** [os.WriteFile(path, data, 0644)]. *)
  os_WriteFile : string -> string -> option error
}.

(** ** A pool of goroutines bounded by a semaphore *)

(** Both pools of the pipeline have the same shape: one goroutine per
    segment; a goroutine sends on a channel of capacity [MaxWorkers] before it
    works and receives from it when it is done, and the caller waits for all
    of them. A goroutine is [Pending] until its send succeeds, [Running] while
    it holds a slot of the channel, and [Done] afterwards. *)
Module Pool.

Inductive phase : Type := Pending | Running | Done.

Definition is_running (p : phase) : bool :=
  match p with Running => true | _ => false end.

Definition is_done (p : phase) : bool :=
  match p with Done => true | _ => false end.

Fixpoint count (f : phase -> bool) (ps : list phase) : Z :=
  match ps with
  | [] => 0
  | p :: ps' => ((if f p then 1 else 0) + count f ps')%Z
  end.

Section Pool.

Context {Shared : Type}.

(** The capacity of the semaphore channel. *)
Variable capacity : Z.

(** What goroutine [i] does to the memory it shares with the others
    between taking and giving back its slot; [None] when it calls
    [log.Fatal]. *)
Variable work : nat -> Shared -> option Shared.

Inductive state : Type :=
| Live (phases : list phase) (shared : Shared)
| Exited.

Inductive step : state -> state -> Prop :=
| step_acquire phases shared i :
    phases !! i = Some Pending ->
    (count is_running phases < capacity)%Z ->
    step (Live phases shared) (Live (<[i := Running]> phases) shared)
| step_finish phases shared i shared' :
    phases !! i = Some Running ->
    work i shared = Some shared' ->
    step (Live phases shared) (Live (<[i := Done]> phases) shared')
| step_fatal phases shared i :
    phases !! i = Some Running ->
    work i shared = None ->
    step (Live phases shared) Exited.

(** Any number of steps. *)
Inductive steps : state -> state -> Prop :=
| steps_refl s : steps s s
| steps_step s1 s2 s3 : step s1 s2 -> steps s2 s3 -> steps s1 s3.

(** [wg.Wait()] returns once every goroutine is done. *)
Definition all_done (phases : list phase) : Prop :=
  Forall (fun p => p = Done) phases.

(** No goroutine can move although some are not done: the run time
    reports a deadlock. *)
Definition stuck (s : state) : Prop :=
  match s with
  | Live phases _ => ~ all_done phases /\ forall s', ~ step s s'
  | Exited => False
  end.

(** The state after the [go] statements: [jobs] goroutines, all pending. *)
Definition start (jobs : nat) (shared : Shared) : state :=
  Live (repeat Pending jobs) shared.

(** The outcomes of a pool of [jobs] goroutines started on [shared]:
    the shared memory when [wg.Wait()] returns, the end of the process, or
    a crash, on [make] for a negative capacity or on a deadlock. *)
Inductive run (jobs : nat) (shared : Shared) : outcome Shared -> Prop :=
| run_panic :
    (capacity < 0)%Z -> run jobs shared Crash
| run_return phases shared' :
    (0 <= capacity)%Z ->
    steps (start jobs shared) (Live phases shared') ->
    all_done phases ->
    run jobs shared (Return shared')
| run_exit :
    (0 <= capacity)%Z ->
    steps (start jobs shared) Exited ->
    run jobs shared Exit
| run_deadlock s :
    (0 <= capacity)%Z ->
    steps (start jobs shared) s ->
    stuck s ->
    run jobs shared Crash.

End Pool.

End Pool.

(** ** The pipeline *)

Definition newline : string := String (ascii_of_N 10) "".

(** The byte-order mark U+FEFF in UTF-8. *)
Definition BOM : string :=
  String (ascii_of_N 239) (String (ascii_of_N 187) (String (ascii_of_N 191) "")).

(** The prompt handed to the transcription engine. *)
Definition initialPrompt : string := "この音声は大学のサークル活動に関する会話です。
					内容には「理科大（りかだい）」または「理大（りだい）」という大学名が登場します。
					また、「理大祭（りだいさい）」というイベント名が含まれる場合があります。
					会話は自然な日本語で行われており、学生同士のカジュアルなやり取りが含まれます。
					固有名詞（大学名・イベント名など）は正確に認識してください。
					日本語の音声の認識を行います".

Section Pipeline.

Context {lib : GoLib}.
Variable w : World.
Variable a : AudioAnalyzer.

(** The body of the loop over [parts] in [parseSilenceOutput]. *)
Definition parts_body (parts : list string) (silencePoints : list float64)
    (entry : nat * string) : list float64 :=
  let '(i, part) := entry in
  if String.eqb part "silence_end:" && (Z.of_nat i + 1 <? len parts)%Z then
    match parts !! (i + 1)%nat with
    | Some next =>
        let timeStr := Strings.TrimSpace next in
        match strconv_ParseFloat timeStr with
        | inr time => silencePoints ++ [time]
        | inl _ => silencePoints
        end
    | None => silencePoints
    end
  else silencePoints.

(** The body of the loop over [lines] in [parseSilenceOutput]. *)
Definition lines_body (silencePoints : list float64) (line : string)
    : list float64 :=
  if Strings.Contains line "silence_end" then
    let parts := Strings.Fields line in
    fold_left (parts_body parts) (combine (seq 0 (length parts)) parts)
      silencePoints
  else silencePoints.

(** [parseSilenceOutput] parses ffmpeg silence detection output. *)
Definition parseSilenceOutput (output : string) : returned (list float64) :=
  let lines := Strings.Split output newline in
  (fold_left lines_body lines [], None).

(** [DetectSilence] uses ffmpeg to detect silence periods in audio. *)
Definition DetectSilence : returned (list float64) :=
  match exec_CombinedOutput w "ffmpeg"
          ["-i"; InputFile a; "-af";
           "silencedetect=noise=" +++ SilenceThreshold a +++ ":duration=" +++
             SilenceDuration a;
           "-f"; "null"; "-"] with
  | (_, Some err) => ([], Some ("ffmpeg silence detection failed: " +++ err))
  | (output, None) => parseSilenceOutput output
  end.

(** The method [GetAudioDuration] of the analyzer gets the total duration
    of the input file. *)
Definition AudioAnalyzer_GetAudioDuration : returned float64 :=
  match exec_Output w "ffprobe"
          ["-v"; "quiet"; "-show_entries"; "format=duration"; "-of";
           "csv=p=0"; InputFile a] with
  | (_, Some err) => (0, Some ("failed to get audio duration: " +++ err))
  | (output, None) =>
      let durationStr := Strings.TrimSpace output in
      match strconv_ParseFloat durationStr with
      | inl err => (0, Some ("failed to parse duration: " +++ err))
      | inr duration => (duration, None)
      end
  end.

(** [createSegment] creates a single audio segment. *)
Definition createSegment (start end_ : float64) (index : Z) : AudioSegment :=
  let filename :=
    "segment_" +++ Fmt.d03 index +++ "_" +++ Fmt.f 1 start +++ "-" +++
    Fmt.f 1 end_ +++ ".wav" in
  let filePath := filepath_Join (OutputDir a) filename in
  {| StartTime := start;
     EndTime := end_;
     Filename := filename;
     FilePath := filePath;
     Duration := end_ - start |}.

(** The integers [0, 1, ..., n-1] visited by [for i := 0; i < n; i++]; none
    when [n <= 0]. *)
Definition loop_range (n : Z) : list Z :=
  map Z.of_nat (seq 0 (Z.to_nat n)).

(** One iteration of the inner loop of [splitLongSegments]. *)
Definition split_iter (segment : AudioSegment) (numSplits : Z)
    (splitDuration : float64) (result : list AudioSegment) (i : Z)
    : list AudioSegment :=
  let start := StartTime segment + float64_of_int i * splitDuration in
  let end_ := StartTime segment + float64_of_int (i + 1) * splitDuration in
  let end_ := if (i =? numSplits - 1)%Z then EndTime segment else end_ in
  let splitSegment := createSegment start end_ (len result) in
  result ++ [splitSegment].

(** One iteration of the outer loop of [splitLongSegments]. *)
Definition split_body (result : list AudioSegment) (segment : AudioSegment)
    : list AudioSegment :=
  if Qle_bool (Duration segment) (MaxSegmentDuration a) then
    result ++ [segment]
  else
    let numSplits :=
      (int_of_float64 (Duration segment / MaxSegmentDuration a) + 1)%Z in
    let splitDuration := Duration segment / float64_of_int numSplits in
    fold_left (split_iter segment numSplits splitDuration)
      (loop_range numSplits) result.

(** [splitLongSegments] splits segments that are too long. *)
Definition splitLongSegments (segments : list AudioSegment)
    : list AudioSegment :=
  fold_left split_body segments [].

(** One iteration of the walk over the silence points in [CreateSegments]:
    the state is the pair of [segments] and [currentStart]. *)
Definition walk_body (st : list AudioSegment * float64) (silenceEnd : float64)
    : list AudioSegment * float64 :=
  let '(segments, currentStart) := st in
  if Qle_bool 10 (silenceEnd - currentStart) then
    let segment := createSegment currentStart silenceEnd (len segments) in
    (segments ++ [segment], silenceEnd)
  else st.

Definition walk (silencePoints : list float64)
    : list AudioSegment * float64 :=
  fold_left walk_body silencePoints ([], 0).

(** The segments of [CreateSegments] before the call of
    [splitLongSegments]. *)
Definition raw_segments (silencePoints : list float64)
    (totalDuration : float64) : list AudioSegment :=
  let '(segments, currentStart) := walk silencePoints in
  if Qle_bool 10 (totalDuration - currentStart) then
    segments ++ [createSegment currentStart totalDuration (len segments)]
  else segments.

(** [CreateSegments] after its two probes: the plan for the given silence
    points and total duration. *)
Definition plan_segments (silencePoints : list float64)
    (totalDuration : float64) : list AudioSegment :=
  splitLongSegments (raw_segments silencePoints totalDuration).

(** [CreateSegments] creates audio segments based on silence detection. *)
Definition CreateSegments : returned (list AudioSegment) :=
  match DetectSilence with
  | (_, Some err) => ([], Some err)
  | (silencePoints, None) =>
      match AudioAnalyzer_GetAudioDuration with
      | (_, Some err) => ([], Some err)
      | (totalDuration, None) =>
          (plan_segments silencePoints totalDuration, None)
      end
  end.

(** [extractSingleSegment] extracts a single audio segment. *)
Definition extractSingleSegment (segment : AudioSegment) : option error :=
  match exec_Run w "ffmpeg"
          ["-i"; InputFile a;
           "-ss"; Fmt.f 3 (StartTime segment);
           "-t"; Fmt.f 3 (Duration segment);
           "-c"; "copy"; "-y"; FilePath segment] with
  | Some err => Some ("ffmpeg extraction failed: " +++ err)
  | None => None
  end.

(** The line that [log.Printf] writes for a failed extraction. *)
Definition extract_log_line (seg : AudioSegment) (err : error) : string :=
  "Failed to extract segment " +++ Filename seg +++ ": " +++ err.

(** The goroutine of [ExtractAudioSegments] for the segment of index [i]:
    the memory it shares with the others is the log. *)
Definition extract_worker (segments : list AudioSegment) (i : nat)
    (log : list string) : option (list string) :=
  match segments !! i with
  | Some seg =>
      match extractSingleSegment seg with
      | Some err => Some (log ++ [extract_log_line seg err])
      | None => Some log
      end
  | None => Some log
  end.

(** [ExtractAudioSegments] extracts audio segments using ffmpeg: the
    outcomes are the error it returns with the lines logged. *)
Inductive ExtractAudioSegments (segments : list AudioSegment)
  : outcome (option error * list string) -> Prop :=
| Extract_mkdir_fails err :
    os_MkdirAll w (OutputDir a) = Some err ->
    ExtractAudioSegments segments
      (Return (Some ("failed to create output directory: " +++ err), []))
| Extract_returns log :
    os_MkdirAll w (OutputDir a) = None ->
    Pool.run (MaxWorkers a) (extract_worker segments) (length segments) []
      (Return log) ->
    ExtractAudioSegments segments (Return (None, log))
| Extract_crashes :
    os_MkdirAll w (OutputDir a) = None ->
    Pool.run (MaxWorkers a) (extract_worker segments) (length segments) []
      Crash ->
    ExtractAudioSegments segments Crash.

(** The function [GetAudioDuration] of the package, for any file. *)
Definition GetAudioDuration (filePath : string) : returned float64 :=
  match exec_Output w "ffprobe"
          ["-v"; "error"; "-show_entries"; "format=duration"; "-of";
           "default=noprint_wrappers=1:nokey=1"; filePath] with
  | (_, Some err) => (0, Some ("ffprobe failed: " +++ err))
  | (output, None) =>
      let durationStr := Strings.TrimSpace output in
      match strconv_ParseFloat durationStr with
      | inl err => (0, Some ("failed to parse duration: " +++ err))
      | inr duration => (duration, None)
      end
  end.

Definition exePath : string := "./whisper.cpp/build/bin/Release/main.exe".

Definition whisper_cli : string :=
  "./whisper.cpp/build/bin/Release/whisper-cli.exe".

(** The arguments of the command that [transcribeCpp] builds. *)
Definition whisper_arguments (filepath secondsStr : string) : list string :=
  ["-m"; "./whisper.cpp/models/ggml-large-v3.bin";
   "-f"; "./" +++ Strings.ReplaceAll filepath "\" "/";
   "-l"; "ja"; "--vad-min-speech-duration-ms"; secondsStr;
   "-otxt"; "-tdrz"; "-sns"; "--suppress-nst";
   "--prompt"; initialPrompt].

(** [transcribeCpp] runs the engine on the file of one segment. The error
    of [GetAudioDuration] is dropped, as in the source. *)
Definition transcribeCpp (segment : AudioSegment) : outcome (returned string) :=
  let filepath := FilePath segment in
  if os_Stat_IsNotExist w exePath then Exit
  else
    let '(seconds, _) := GetAudioDuration filepath in
    let secondsStr := Fmt.f 0 (seconds * 1000) in
    match exec_CombinedOutput w whisper_cli
            (whisper_arguments filepath secondsStr) with
    | (output, Some err) =>
        Return ("", Some ("C++ whisper transcription failed: " +++ err +++
                          newline +++ output))
    | (output, None) => Return (Strings.TrimSpace output, None)
    end.

(** The result a goroutine of [ProcessWithCpp] builds from what
    [transcribeCpp] returned. *)
Definition make_result (seg : AudioSegment) (r : returned string)
    : TranscriptionResult :=
  let '(text, err) := r in
  match err with
  | Some e => {| Segment := seg; Text := ""; Error := e |}
  | None => {| Segment := seg; Text := text; Error := "" |}
  end.

(** The goroutine of [ProcessWithCpp] for the segment of index [index]: the
    memory it shares with the others is the slice [results]. *)
Definition process_worker (segments : list AudioSegment) (index : nat)
    (results : list TranscriptionResult) : option (list TranscriptionResult) :=
  match segments !! index with
  | Some seg =>
      match transcribeCpp seg with
      | Return r => Some (<[index := make_result seg r]> results)
      | _ => None
      end
  | None => Some results
  end.

(** The [less] function handed to [sort.Slice]. *)
Definition by_start_time (x y : TranscriptionResult) : bool :=
  Qlt_bool (StartTime (Segment x)) (StartTime (Segment y)).

(** The slice [results] when [wg.Wait()] returns in [ProcessWithCpp]. *)
Definition dispatch (segments : list AudioSegment)
  : outcome (list TranscriptionResult) -> Prop :=
  Pool.run (MaxWorkers a) (process_worker segments) (length segments)
    (repeat zero_TranscriptionResult (length segments)).

(** [ProcessWithCpp] processes the audio segments in parallel and sorts the
    results by start time; the error it returns is always [nil]. *)
Inductive ProcessWithCpp (segments : list AudioSegment)
  : outcome (returned (list TranscriptionResult)) -> Prop :=
| Process_returns results :
    dispatch segments (Return results) ->
    ProcessWithCpp segments (Return (sort_Slice by_start_time results, None))
| Process_exits :
    dispatch segments Exit -> ProcessWithCpp segments Exit
| Process_crashes :
    dispatch segments Crash -> ProcessWithCpp segments Crash.

(** [fmt.Printf(format)] without operands. *)
Definition Printf_format_only (format : string) : string :=
  if Strings.Contains format "%" then fmt_verbs_without_operands format
  else format.

(** The line of the text report for one result. *)
Definition report_line (result : TranscriptionResult) : string :=
  if negb (String.eqb (Error result) "") then
    "[" +++ Fmt.f 1 (StartTime (Segment result)) +++ "s-" +++
    Fmt.f 1 (EndTime (Segment result)) +++ "s] ERROR: " +++ Error result +++
    newline
  else
    "[" +++ Fmt.f 1 (StartTime (Segment result)) +++ "s-" +++
    Fmt.f 1 (EndTime (Segment result)) +++ "s] " +++ Text result +++ newline.

(** What the console loop of [OutputResults] prints for one result. *)
Definition console_entry (result : TranscriptionResult) : string :=
  if negb (String.eqb (Error result) "") then
    "[" +++ Fmt.f 1 (StartTime (Segment result)) +++ "s-" +++
    Fmt.f 1 (EndTime (Segment result)) +++ "s] ERROR: " +++ Error result +++
    newline
  else Printf_format_only (Text result).

(** The text that the string builder of [OutputResults] holds. *)
Definition report_text (results : list TranscriptionResult) : string :=
  fold_left (fun text result => text +++ report_line result) results BOM.

(** What [OutputResults] does: the error it returns, the files it has
    written, oldest first, and what it has printed on the console. *)
Record output_effects : Type := {
  output_error : option error;
  files_written : list (string * string);
  console : string
}.

(** [OutputResults] outputs the transcription results. *)
Definition OutputResults (results : list TranscriptionResult)
    : output_effects :=
  let jsonFile := filepath_Join (OutputDir a) "transcription_results.json" in
  match json_MarshalIndent results with
  | inl err =>
      {| output_error := Some ("failed to marshal JSON: " +++ err);
         files_written := []; console := "" |}
  | inr jsonData =>
      match os_WriteFile w jsonFile jsonData with
      | Some err =>
          {| output_error := Some ("failed to write JSON file: " +++ err);
             files_written := []; console := "" |}
      | None =>
          let txtFile :=
            filepath_Join (OutputDir a) "transcription_results.txt" in
          let text := report_text results in
          match os_WriteFile w txtFile text with
          | Some err =>
              {| output_error := Some ("failed to write text file: " +++ err);
                 files_written := [(jsonFile, jsonData)]; console := "" |}
          | None =>
              {| output_error := None;
                 files_written := [(jsonFile, jsonData); (txtFile, text)];
                 console :=
                   fold_left (fun out result => out +++ console_entry result)
                     results
                     (newline +++ "=== Transcription Results ===" +++ newline)
              |}
          end
      end
  end.

(** [Run] executes the complete pipeline: the outcomes are the error it
    returns. *)
Inductive Run : outcome (option error) -> Prop :=
| Run_no_segments plan err :
    CreateSegments = (plan, Some err) ->
    Run (Return (Some ("failed to create segments: " +++ err)))
| Run_no_extraction segments err log :
    CreateSegments = (segments, None) ->
    ExtractAudioSegments segments (Return (Some err, log)) ->
    Run (Return (Some ("failed to extract segments: " +++ err)))
| Run_extraction_crashes segments :
    CreateSegments = (segments, None) ->
    ExtractAudioSegments segments Crash ->
    Run Crash
| Run_exits segments log :
    CreateSegments = (segments, None) ->
    ExtractAudioSegments segments (Return (None, log)) ->
    ProcessWithCpp segments Exit ->
    Run Exit
| Run_processing_crashes segments log :
    CreateSegments = (segments, None) ->
    ExtractAudioSegments segments (Return (None, log)) ->
    ProcessWithCpp segments Crash ->
    Run Crash
| Run_no_results segments log results err :
    CreateSegments = (segments, None) ->
    ExtractAudioSegments segments (Return (None, log)) ->
    ProcessWithCpp segments (Return (results, Some err)) ->
    Run (Return (Some ("failed to process with C++: " +++ err)))
| Run_no_output segments log results err :
    CreateSegments = (segments, None) ->
    ExtractAudioSegments segments (Return (None, log)) ->
    ProcessWithCpp segments (Return (results, None)) ->
    output_error (OutputResults results) = Some err ->
    Run (Return (Some ("failed to output results: " +++ err)))
| Run_completes segments log results :
    CreateSegments = (segments, None) ->
    ExtractAudioSegments segments (Return (None, log)) ->
    ProcessWithCpp segments (Return (results, None)) ->
    output_error (OutputResults results) = None ->
    Run (Return None).

End Pipeline.

(** ** Instances for the worked examples *)

(** ** Two sorts that run *)

Section InsertionSort.

Context {A : Type}.

(** [before x y] decides that [x] is put in front of [y]. *)
Variable before : A -> A -> bool.

Fixpoint insert_by (x : A) (sorted : list A) : list A :=
  match sorted with
  | [] => [x]
  | y :: rest => if before x y then x :: sorted else y :: insert_by x rest
  end.

Definition sort_by (l : list A) : list A :=
  fold_left (fun sorted x => insert_by x sorted) l [].

End InsertionSort.

(** Insertion sort: an element goes in front of the first one it is less
    than, so equal elements keep their order. *)
Definition insertion_sort {A : Type} (less : A -> A -> bool) : list A -> list A :=
  sort_by less.


(** A reader of plain decimal numbers such as [12.345], which is what ffmpeg
    and ffprobe print; [strconv.ParseFloat] accepts more. *)
Fixpoint parse_digits (s : string) (acc : N) : option N :=
  match s with
  | EmptyString => Some acc
  | String c rest =>
      let n := N_of_ascii c in
      if ((48 <=? n) && (n <=? 57))%N
      then parse_digits rest (acc * 10 + (n - 48))%N
      else None
  end.

Fixpoint split_point (s : string) : string * option string :=
  match s with
  | EmptyString => ("", None)
  | String c rest =>
      if Ascii.eqb c "." then ("", Some rest)
      else let '(int_part, frac_part) := split_point rest in
           (String c int_part, frac_part)
  end.

Definition parse_decimal (s : string) : error + float64 :=
  let syntax : error + float64 := inl "invalid syntax" in
  let '(int_part, frac_part) := split_point s in
  match int_part, parse_digits int_part 0 with
  | String _ _, Some i =>
      match frac_part with
      | None => inr (inject_Z (Z.of_N i))
      | Some digits =>
          match parse_digits digits 0 with
          | Some f =>
              inr (Qred (inject_Z (Z.of_N i) +
                         inject_Z (Z.of_N f) /
                         inject_Z (10 ^ Z.of_nat (String.length digits))))
          | None => syntax
          end
      end
  | _, _ => syntax
  end.

(** Forward slashes for [filepath.Join], decimal numbers, insertion sort. *)
Definition example_lib : GoLib := {|
  filepath_Join := fun dir name => dir +++ "/" +++ name;
  strconv_ParseFloat := parse_decimal;
  sort_Slice := insertion_sort;
  json_MarshalIndent := fun _ => inr "[]";
  fmt_verbs_without_operands := fun format => format
|}.


Definition example_analyzer : AudioAnalyzer := NewAudioAnalyzer "in.wav" "out".

(** What the silence filter of ffmpeg prints in the examples. *)
Definition silence_report : string :=
  "[silencedetect @ 0x5581] silence_end: 12.5 | silence_duration: 5.2" +++
  newline +++
  "[silencedetect @ 0x5581] silence_end: 45 | silence_duration: 6" +++
  newline.

(** A world where every tool is installed and works: the input lasts 100
    seconds and the engine answers with a line of text around white space. *)
Definition example_world : World := {|
  exec_CombinedOutput := fun name args =>
    if String.eqb name "ffmpeg" then (silence_report, None)
    else ("  spoken words" +++ newline, None);
  exec_Output := fun _ _ => ("100.0" +++ newline, None);
  exec_Run := fun _ _ => None;
  os_MkdirAll := fun _ => None;
  os_Stat_IsNotExist := fun _ => false;
  os_WriteFile := fun _ _ => None
|}.

(** The same world without the engine: neither main.exe nor whisper-cli.exe
    is there. *)
Definition no_engine_world : World := {|
  exec_CombinedOutput := fun name args =>
    if String.eqb name "ffmpeg" then (silence_report, None)
    else ("", Some ("fork/exec " +++ name +++ ": no such file or directory"));
  exec_Output := fun _ _ => ("100.0" +++ newline, None);
  exec_Run := fun _ _ => None;
  os_MkdirAll := fun _ => None;
  os_Stat_IsNotExist := fun _ => true;
  os_WriteFile := fun _ _ => None
|}.

(** A world where every extraction fails while the output directory still
    holds the segment files of an earlier run, which the engine reads. *)
Definition stale_files_world : World := {|
  exec_CombinedOutput := fun name args =>
    if String.eqb name "ffmpeg" then (silence_report, None)
    else ("words of the earlier run" +++ newline, None);
  exec_Output := fun _ _ => ("100.0" +++ newline, None);
  exec_Run := fun _ _ => Some "exit status 1";
  os_MkdirAll := fun _ => None;
  os_Stat_IsNotExist := fun _ => false;
  os_WriteFile := fun _ _ => None
|}.

(** A world where the engine fails on the file of the second segment of the
    plan and works on the others. *)
Definition failing_engine_world : World := {|
  exec_CombinedOutput := fun name args =>
    if String.eqb name "ffmpeg" then (silence_report, None)
    else if existsb (String.eqb "./out/segment_001_12.5-45.0.wav") args
         then ("error: failed to read audio file", Some "exit status 1")
         else ("  spoken words" +++ newline, None);
  exec_Output := fun _ _ => ("100.0" +++ newline, None);
  exec_Run := fun _ _ => None;
  os_MkdirAll := fun _ => None;
  os_Stat_IsNotExist := fun _ => false;
  os_WriteFile := fun _ _ => None
|}.
(** ** Facts on the numeric conversions *)

Lemma Qle_bool_false (x y : Q) : Qle_bool x y = false <-> y < x.
Proof.
  split; intros H.
  - apply Qnot_le_lt. intros Hle. apply Qle_bool_iff in Hle. congruence.
  - destruct (Qle_bool x y) eqn:E; [|reflexivity].
    apply Qle_bool_iff in E. lra.
Qed.

Lemma int_of_float64_floor (q : float64) : 0 <= q -> int_of_float64 q = Qfloor q.
Proof.
  destruct q as [n d]. unfold int_of_float64, Qfloor, Qle. simpl.
  intros H. apply Z.quot_div_nonneg; lia.
Qed.

Lemma inject_Z_succ (k : Z) : inject_Z (k + 1) == inject_Z k + 1.
Proof. rewrite inject_Z_plus. reflexivity. Qed.

(** The number of parts computed for a segment longer than the maximum. *)
Lemma numSplits_bounds (D M : float64) :
  0 < M -> M < D ->
  let n := (int_of_float64 (D / M) + 1)%Z in
  (2 <= n)%Z /\ n = (Qfloor (D / M) + 1)%Z /\
  inject_Z (n - 1) * M <= D /\ D < inject_Z n * M.
Proof.
  intros HM HD n.
  assert (H1 : 1 < D / M) by (apply Qlt_shift_div_l; lra).
  assert (Hn : n = (Qfloor (D / M) + 1)%Z).
  { unfold n. rewrite int_of_float64_floor; [reflexivity | lra]. }
  assert (Hfl : (1 <= Qfloor (D / M))%Z).
  { change 1%Z with (Qfloor 1). apply Qfloor_resp_le. lra. }
  pose proof (Qfloor_le (D / M)) as Hlo.
  pose proof (Qlt_floor (D / M)) as Hhi.
  assert (HDM : D == (D / M) * M) by (field; lra).
  repeat split; [lia | exact Hn | |].
  - rewrite Hn. replace (Qfloor (D / M) + 1 - 1)%Z with (Qfloor (D / M)) by lia.
    rewrite HDM at 2. apply Qmult_le_compat_r; lra.
  - rewrite Hn. rewrite HDM at 1. apply Qmult_lt_compat_r; lra.
Qed.

(** ** Structure of the bounding pass *)

Section SplitFacts.

Context {lib : GoLib}.
Variable a : AudioAnalyzer.

(** The sub-segment of index [i] that the inner loop builds for [segment],
    when the result holds [base] segments before the loop starts. *)
Definition piece (segment : AudioSegment) (numSplits : Z)
    (splitDuration : float64) (base : Z) (i : Z) : AudioSegment :=
  createSegment a
    (StartTime segment + float64_of_int i * splitDuration)
    (if (i =? numSplits - 1)%Z then EndTime segment
     else StartTime segment + float64_of_int (i + 1) * splitDuration)
    (base + i).

Lemma fold_split_iter segment numSplits splitDuration (m k : nat) result :
  fold_left (split_iter a segment numSplits splitDuration)
    (map Z.of_nat (seq k m)) result =
  result ++ map (fun i => piece segment numSplits splitDuration
                            (len result - Z.of_nat k) i)
                (map Z.of_nat (seq k m)).
Proof.
  revert k result. induction m as [|m IH]; intros k result; simpl.
  - now rewrite app_nil_r.
  - rewrite IH.
    assert (Hlen : (len (split_iter a segment numSplits splitDuration result
                           (Z.of_nat k)) - Z.of_nat (S k) =
                    len result - Z.of_nat k)%Z).
    { unfold split_iter, len. rewrite length_app. simpl. lia. }
    rewrite Hlen. unfold split_iter. rewrite <- app_assoc. simpl.
    do 2 f_equal. unfold piece. f_equal. lia.
Qed.

(** The sub-segments appended for one segment that is too long. *)
Definition pieces (segment : AudioSegment) (base : Z) : list AudioSegment :=
  let numSplits :=
    (int_of_float64 (Duration segment / MaxSegmentDuration a) + 1)%Z in
  let splitDuration := Duration segment / float64_of_int numSplits in
  map (piece segment numSplits splitDuration base) (loop_range numSplits).

Lemma split_body_short result segment :
  Duration segment <= MaxSegmentDuration a ->
  split_body a result segment = result ++ [segment].
Proof.
  intros H. unfold split_body. apply Qle_bool_iff in H. now rewrite H.
Qed.

Lemma split_body_long result segment :
  MaxSegmentDuration a < Duration segment ->
  split_body a result segment = result ++ pieces segment (len result).
Proof.
  intros H. unfold split_body. apply Qle_bool_false in H. rewrite H.
  unfold loop_range. rewrite fold_split_iter. unfold pieces, loop_range.
  f_equal. apply map_ext. intros i. f_equal. simpl. lia.
Qed.


End SplitFacts.

(** ** Contiguous chains of segments *)

(** A segment is well formed when its stored duration is its length. *)
Definition well_formed (s : AudioSegment) : Prop :=
  Duration s == EndTime s - StartTime s.


(** [chain P lo l hi]: the segments of [l] are non-empty intervals that
    satisfy [P] and follow each other without a gap from [lo] to [hi]. *)
Inductive chain (P : AudioSegment -> Prop) : Q -> list AudioSegment -> Q -> Prop :=
| chain_nil lo hi : lo == hi -> chain P lo [] hi
| chain_cons lo s l hi :
    StartTime s == lo -> StartTime s < EndTime s -> P s ->
    chain P (EndTime s) l hi -> chain P lo (s :: l) hi.

Section ChainFacts.

Variable P : AudioSegment -> Prop.

Lemma chain_lo_eq lo lo' l hi : lo == lo' -> chain P lo l hi -> chain P lo' l hi.
Proof.
  intros E H. destruct H as [lo hi H | lo s l hi Hs Hlt HP H].
  - apply chain_nil. lra.
  - apply chain_cons; auto. lra.
Qed.

Lemma chain_hi_eq lo l hi hi' : hi == hi' -> chain P lo l hi -> chain P lo l hi'.
Proof.
  intros E H. induction H as [lo hi H | lo s l hi Hs Hlt HP H IH].
  - apply chain_nil. lra.
  - apply chain_cons; auto.
Qed.

Lemma chain_app lo l1 mid l2 hi :
  chain P lo l1 mid -> chain P mid l2 hi -> chain P lo (l1 ++ l2) hi.
Proof.
  intros H1 H2. induction H1 as [lo mid H | lo s l mid Hs Hlt HP H IH]; simpl.
  - apply chain_lo_eq with mid; [lra | exact H2].
  - apply chain_cons; auto.
Qed.

Lemma chain_single lo s :
  StartTime s == lo -> StartTime s < EndTime s -> P s ->
  chain P lo [s] (EndTime s).
Proof. intros. apply chain_cons; auto. apply chain_nil. reflexivity. Qed.

Lemma chain_le lo l hi : chain P lo l hi -> lo <= hi.
Proof.
  induction 1 as [lo hi H | lo s l hi Hs Hlt HP H IH]; lra.
Qed.

Lemma chain_In lo l hi s :
  chain P lo l hi -> In s l ->
  P s /\ lo <= StartTime s /\ StartTime s < EndTime s /\ EndTime s <= hi.
Proof.
  induction 1 as [lo hi H | lo s' l hi Hs Hlt HP H IH]; simpl; [tauto|].
  intros [<- | Hin].
  - apply chain_le in H. repeat split; auto; lra.
  - destruct (IH Hin) as (HPs & H1 & H2 & H3). repeat split; auto; lra.
Qed.

(** Along a chain a later segment starts where, or after, an earlier one
    ends. *)
Lemma chain_ordered lo l hi :
  chain P lo l hi ->
  forall (i j : nat) (s t : AudioSegment),
    (i < j)%nat -> l !! i = Some s -> l !! j = Some t ->
    EndTime s <= StartTime t.
Proof.
  induction 1 as [lo hi H | lo s' l hi Hs Hlt HP H IH]; intros i j s t Hij Hi Hj.
  - destruct i; discriminate.
  - destruct j as [|j]; [lia|]. simpl in Hj. destruct i as [|i]; simpl in Hi.
    + injection Hi as ->. apply list_elem_of_lookup_2 in Hj.
      apply list_elem_of_In in Hj.
      destruct (chain_In _ _ _ _ H Hj) as (_ & H1 & _). exact H1.
    + apply (IH i j); auto. lia.
Qed.


End ChainFacts.

Lemma chain_impl (P R : AudioSegment -> Prop) lo l hi :
  (forall s, P s -> R s) -> chain P lo l hi -> chain R lo l hi.
Proof.
  intros HPR. induction 1; [apply chain_nil | apply chain_cons]; auto.
Qed.



(** ** The planner keeps its segments in a chain *)

Section PlanInvariants.

Context {lib : GoLib}.
Variable a : AudioAnalyzer.
Hypothesis max_positive : 0 < MaxSegmentDuration a.

(** What holds of a segment closed by the walk over the silence points. *)
Definition raw_ok (s : AudioSegment) : Prop :=
  well_formed s /\ 10 <= Duration s.

(** What holds of a segment after the bounding pass. *)
Definition bounded_ok (s : AudioSegment) : Prop :=
  well_formed s /\ 0 < Duration s /\ Duration s <= MaxSegmentDuration a.

Lemma createSegment_well_formed start end_ index :
  well_formed (createSegment a start end_ index).
Proof. unfold well_formed. simpl. reflexivity. Qed.

Lemma walk_chain silencePoints : forall lo segments currentStart,
  chain raw_ok lo segments currentStart ->
  chain raw_ok lo (fst (fold_left (walk_body a) silencePoints
                          (segments, currentStart)))
                  (snd (fold_left (walk_body a) silencePoints
                          (segments, currentStart))).
Proof.
  induction silencePoints as [|b bs IH]; intros lo segments cs H; simpl.
  - exact H.
  - destruct (Qle_bool 10 (b - cs)) eqn:E.
    + apply IH. apply Qle_bool_iff in E.
      apply chain_app with cs; [exact H|].
      apply (chain_single raw_ok cs (createSegment a cs b (len segments))).
      * reflexivity.
      * simpl. lra.
      * split; [apply createSegment_well_formed | simpl; lra].
    + apply IH. exact H.
Qed.

Lemma raw_segments_chain silencePoints totalDuration :
  exists hi, chain raw_ok 0 (raw_segments a silencePoints totalDuration) hi.
Proof.
  unfold raw_segments, walk.
  pose proof (walk_chain silencePoints 0 [] 0
                (chain_nil raw_ok 0 0 (Qeq_refl 0))) as H.
  destruct (fold_left (walk_body a) silencePoints ([], 0)) as [segments cs].
  simpl in H.
  destruct (Qle_bool 10 (totalDuration - cs)) eqn:E.
  - exists totalDuration. apply Qle_bool_iff in E.
    apply chain_app with cs; [exact H|].
    apply (chain_single raw_ok cs
             (createSegment a cs totalDuration (len segments))).
    + reflexivity.
    + simpl. lra.
    + split; [apply createSegment_well_formed | simpl; lra].
  - exists cs. exact H.
Qed.

(** The sub-segments of a long segment, taken from index [k] on, form a
    chain up to the end of the segment. *)
Lemma pieces_chain_from segment base (n : Z) (sd : Q) :
  0 < sd -> sd <= MaxSegmentDuration a ->
  StartTime segment + inject_Z n * sd == EndTime segment ->
  forall (m k : nat), (k + m)%nat = Z.to_nat n -> (0 <= n)%Z ->
  chain bounded_ok (StartTime segment + inject_Z (Z.of_nat k) * sd)
    (map (piece a segment n sd base) (map Z.of_nat (seq k m)))
    (EndTime segment).
Proof.
  intros Hsd Hmax Hend. induction m as [|m IH]; intros k Hk Hn; simpl.
  - apply chain_nil. replace (Z.of_nat k) with n by lia. exact Hend.
  - set (p := piece a segment n sd base (Z.of_nat k)).
    assert (Hstart : StartTime p = StartTime segment + inject_Z (Z.of_nat k) * sd)
      by reflexivity.
    assert (Hendp : EndTime p == StartTime segment + inject_Z (Z.of_nat (S k)) * sd).
    { unfold p, piece. simpl EndTime.
      replace (Z.of_nat (S k)) with (Z.of_nat k + 1)%Z by lia.
      destruct (Z.of_nat k =? n - 1)%Z eqn:E.
      - apply Z.eqb_eq in E. replace (Z.of_nat k + 1)%Z with n by lia.
        symmetry. exact Hend.
      - reflexivity. }
    assert (Hdur : Duration p == sd).
    { assert (Hwf : well_formed p) by apply createSegment_well_formed.
      unfold well_formed in Hwf. rewrite Hwf, Hendp, Hstart.
      replace (Z.of_nat (S k)) with (Z.of_nat k + 1)%Z by lia.
      rewrite inject_Z_succ. ring. }
    apply chain_cons.
    + rewrite Hstart. reflexivity.
    + rewrite Hendp, Hstart.
      replace (Z.of_nat (S k)) with (Z.of_nat k + 1)%Z by lia.
      rewrite inject_Z_succ. lra.
    + split; [apply createSegment_well_formed | lra].
    + apply chain_lo_eq with (StartTime segment + inject_Z (Z.of_nat (S k)) * sd).
      * symmetry. exact Hendp.
      * apply IH; lia.
Qed.

(** Width and count of the sub-segments of a long segment. *)
Lemma splitDuration_bounds (segment : AudioSegment) :
  well_formed segment ->
  MaxSegmentDuration a < Duration segment ->
  let n := (int_of_float64 (Duration segment / MaxSegmentDuration a) + 1)%Z in
  let sd := Duration segment / float64_of_int n in
  (2 <= n)%Z /\ 0 < sd /\ sd < MaxSegmentDuration a /\
  inject_Z n * sd == Duration segment.
Proof.
  intros Hwf Hlong n sd.
  destruct (numSplits_bounds (Duration segment) (MaxSegmentDuration a)
              max_positive Hlong) as (Hn2 & _ & _ & Hhi).
  fold n in Hn2, Hhi.
  assert (Hnpos : 0 < inject_Z n).
  { change 0 with (inject_Z 0). rewrite <- Zlt_Qlt. lia. }
  unfold sd, float64_of_int. repeat split.
  - exact Hn2.
  - apply Qlt_shift_div_l; lra.
  - apply Qlt_shift_div_r; [exact Hnpos | lra].
  - field. lra.
Qed.

Lemma pieces_chain segment base :
  well_formed segment ->
  MaxSegmentDuration a < Duration segment ->
  chain bounded_ok (StartTime segment) (pieces a segment base)
    (EndTime segment).
Proof.
  intros Hwf Hlong.
  destruct (splitDuration_bounds segment Hwf Hlong) as (Hn & Hsd & Hlt & Hmul).
  unfold pieces, loop_range.
  set (n := (int_of_float64 (Duration segment / MaxSegmentDuration a) + 1)%Z) in *.
  set (sd := Duration segment / float64_of_int n) in *.
  apply chain_lo_eq with (StartTime segment + inject_Z (Z.of_nat 0) * sd).
  - simpl. ring.
  - apply pieces_chain_from; try lra; try lia.
    rewrite Hmul. unfold well_formed in Hwf. rewrite Hwf. ring.
Qed.

Lemma split_body_chain lo mid result segment :
  chain bounded_ok lo result mid ->
  StartTime segment == mid -> StartTime segment < EndTime segment ->
  well_formed segment ->
  chain bounded_ok lo (split_body a result segment) (EndTime segment).
Proof.
  intros H Hs Hlt Hwf.
  destruct (Qlt_le_dec (MaxSegmentDuration a) (Duration segment)) as [Hlong | Hshort].
  - rewrite split_body_long by exact Hlong.
    apply chain_app with mid; [exact H|].
    apply chain_lo_eq with (StartTime segment); [exact Hs|].
    apply pieces_chain; assumption.
  - rewrite split_body_short by exact Hshort.
    apply chain_app with mid; [exact H|].
    apply chain_single; auto.
    unfold bounded_ok. unfold well_formed in Hwf. repeat split; auto. lra.
Qed.

Lemma fold_split_body_chain segments : forall lo mid hi result,
  chain bounded_ok lo result mid ->
  chain well_formed mid segments hi ->
  chain bounded_ok lo (fold_left (split_body a) segments result) hi.
Proof.
  induction segments as [|s l IH]; intros lo mid hi result Hres Hseg; simpl.
  - inversion Hseg; subst. apply chain_hi_eq with mid; assumption.
  - inversion Hseg; subst.
    apply (IH lo (EndTime s)); [|assumption].
    apply split_body_chain with mid; assumption.
Qed.

Lemma plan_segments_chain silencePoints totalDuration :
  exists hi,
    chain bounded_ok 0 (plan_segments a silencePoints totalDuration) hi.
Proof.
  destruct (raw_segments_chain silencePoints totalDuration) as [hi H].
  exists hi. unfold plan_segments, splitLongSegments.
  apply fold_split_body_chain with 0.
  - apply chain_nil. reflexivity.
  - apply chain_impl with raw_ok; [|exact H]. intros s [Hwf _]. exact Hwf.
Qed.

End PlanInvariants.

(** ** The walk over the silence points against its description *)

(** A planned interval [[start, end)]. *)
Definition interval (s : AudioSegment) : Q * Q := (StartTime s, EndTime s).

(** The walk as the specification words it: at a candidate boundary [b] a
    segment [[currentStart, b)] is closed when [b - currentStart >= minGap] and
    [currentStart] moves to [b]; otherwise the boundary is skipped. *)
Inductive spec_walk (minGap : Q) : Q -> list Q -> list (Q * Q) -> Q -> Prop :=
| spec_walk_done currentStart :
    spec_walk minGap currentStart [] [] currentStart
| spec_walk_close currentStart b bs closed final :
    minGap <= b - currentStart ->
    spec_walk minGap b bs closed final ->
    spec_walk minGap currentStart (b :: bs) ((currentStart, b) :: closed) final
| spec_walk_skip currentStart b bs closed final :
    b - currentStart < minGap ->
    spec_walk minGap currentStart bs closed final ->
    spec_walk minGap currentStart (b :: bs) closed final.

(** After the boundaries the final segment [[currentStart, totalDuration)] is
    closed when [totalDuration - currentStart >= minGap]; a shorter tail is
    dropped. *)
Inductive spec_plan (minGap : Q) (boundaries : list Q) (totalDuration : Q)
  : list (Q * Q) -> Prop :=
| spec_plan_tail closed currentStart :
    spec_walk minGap 0 boundaries closed currentStart ->
    minGap <= totalDuration - currentStart ->
    spec_plan minGap boundaries totalDuration
      (closed ++ [(currentStart, totalDuration)])
| spec_plan_drop closed currentStart :
    spec_walk minGap 0 boundaries closed currentStart ->
    totalDuration - currentStart < minGap ->
    spec_plan minGap boundaries totalDuration closed.

Lemma spec_walk_functional minGap cs bs closed1 final1 :
  spec_walk minGap cs bs closed1 final1 ->
  forall closed2 final2,
    spec_walk minGap cs bs closed2 final2 ->
    closed1 = closed2 /\ final1 = final2.
Proof.
  induction 1 as [cs | cs b bs closed final Hge H IH | cs b bs closed final Hlt H IH];
    intros closed2 final2 H2; inversion H2; subst; try lra.
  - split; reflexivity.
  - match goal with
    | Hw : spec_walk _ b bs _ _ |- _ => destruct (IH _ _ Hw) as [-> ->]
    end.
    split; reflexivity.
  - apply IH. assumption.
Qed.

Section WalkRefinement.

Context {lib : GoLib}.
Variable a : AudioAnalyzer.

Lemma walk_body_spec silencePoints : forall segments currentStart,
  exists closed,
    spec_walk 10 currentStart silencePoints closed
      (snd (fold_left (walk_body a) silencePoints (segments, currentStart))) /\
    map interval
      (fst (fold_left (walk_body a) silencePoints (segments, currentStart))) =
    map interval segments ++ closed.
Proof.
  induction silencePoints as [|b bs IH]; intros segments cs; simpl.
  - exists []. split; [constructor | now rewrite app_nil_r].
  - destruct (Qle_bool 10 (b - cs)) eqn:E.
    + destruct (IH (segments ++ [createSegment a cs b (len segments)]) b)
        as (closed & Hw & Hm).
      exists ((cs, b) :: closed). split.
      * apply spec_walk_close; [now apply Qle_bool_iff | exact Hw].
      * rewrite Hm, map_app, <- app_assoc. reflexivity.
    + destruct (IH segments cs) as (closed & Hw & Hm).
      exists closed. split; [|exact Hm].
      apply spec_walk_skip; [now apply Qle_bool_false | exact Hw].
Qed.

Lemma raw_segments_spec silencePoints totalDuration :
  spec_plan 10 silencePoints totalDuration
    (map interval (raw_segments a silencePoints totalDuration)).
Proof.
  unfold raw_segments, walk.
  destruct (walk_body_spec silencePoints [] 0) as (closed & Hw & Hm).
  destruct (fold_left (walk_body a) silencePoints ([], 0)) as [segments cs].
  simpl in Hw, Hm. subst closed.
  destruct (Qle_bool 10 (totalDuration - cs)) eqn:E.
  - rewrite map_app. simpl. apply spec_plan_tail with (currentStart := cs).
    + exact Hw.
    + now apply Qle_bool_iff.
  - apply spec_plan_drop with cs; [exact Hw | now apply Qle_bool_false].
Qed.

End WalkRefinement.

(** ** The planner: theorems *)

(** C5: the walk of CreateSegments over the silence points closes a segment
    [currentStart, b) at a boundary b exactly when b - currentStart >= 10 and
    then continues from b, skips the boundary otherwise, and at the end closes
    [currentStart, totalDuration) exactly when totalDuration - currentStart >=
    10, a shorter tail giving no segment: the intervals of the segments built
    by the code are the only ones the described walk admits. *)
Theorem C5_walk_refines_description `{lib : GoLib} (a : AudioAnalyzer)
    (silencePoints : list float64) (totalDuration : float64)
    (intervals : list (Q * Q)) :
  spec_plan 10 silencePoints totalDuration intervals <->
  map interval (raw_segments a silencePoints totalDuration) = intervals.
Proof.
  split.
  - intros Hspec. pose proof (raw_segments_spec a silencePoints totalDuration) as Hcode.
    destruct Hspec as [c1 s1 Hw1 Hc1 | c1 s1 Hw1 Hc1];
      inversion Hcode as [c2 s2 Hw2 Hc2 Heq | c2 s2 Hw2 Hc2 Heq];
      destruct (spec_walk_functional _ _ _ _ _ Hw1 _ _ Hw2) as [-> ->];
      try reflexivity; lra.
  - intros <-. apply raw_segments_spec.
Qed.






(** ** The count of sub-segments against the ceiling *)



Lemma lookup_map {A B : Type} (f : A -> B) (l : list A) (i : nat) :
  map f l !! i = option_map f (l !! i).
Proof.
  revert i. induction l as [|x l IH]; intros [|i]; simpl; auto.
Qed.

Section PiecesFacts.

Context {lib : GoLib}.
Variable a : AudioAnalyzer.

Lemma loop_range_length (n : Z) : length (loop_range n) = Z.to_nat n.
Proof. unfold loop_range. now rewrite length_map, length_seq. Qed.

Lemma loop_range_lookup (n : Z) (i : nat) :
  (i < Z.to_nat n)%nat -> loop_range n !! i = Some (Z.of_nat i).
Proof.
  intros H. unfold loop_range. rewrite lookup_map.
  rewrite lookup_seq_lt by exact H. reflexivity.
Qed.

Lemma pieces_length segment base :
  length (pieces a segment base) =
  Z.to_nat (int_of_float64 (Duration segment / MaxSegmentDuration a) + 1).
Proof. unfold pieces. now rewrite length_map, loop_range_length. Qed.

Lemma pieces_lookup segment base (i : nat) p :
  pieces a segment base !! i = Some p ->
  let n := (int_of_float64 (Duration segment / MaxSegmentDuration a) + 1)%Z in
  (i < Z.to_nat n)%nat /\
  p = piece a segment n (Duration segment / float64_of_int n) base (Z.of_nat i).
Proof.
  intros H n.
  assert (Hi : (i < Z.to_nat n)%nat).
  { apply lookup_lt_Some in H. now rewrite pieces_length in H. }
  split; [exact Hi|].
  unfold pieces in H. fold n in H.
  rewrite lookup_map, (loop_range_lookup n i Hi) in H.
  simpl in H. now injection H as <-.
Qed.

End PiecesFacts.




(** C6 (the code at the failing input): with silence points [70] and a total
    duration of 85 seconds the walk closes [0, 70) with index 0 and [70, 85)
    with index 1; the bounding pass cuts the first in two, numbered 0 and 1 by
    their positions, and passes the second through with the name it had, so
    the third segment of the plan carries index 1, the same as the second. *)
Theorem C6_pass_through_keeps_stale_index :
  let a := example_analyzer in
  map Filename (raw_segments (lib := example_lib) a [70] 85) =
    ["segment_000_0.0-70.0.wav"; "segment_001_70.0-85.0.wav"] /\
  map Filename (plan_segments (lib := example_lib) a [70] 85) =
    ["segment_000_0.0-35.0.wav"; "segment_001_35.0-70.0.wav";
     "segment_001_70.0-85.0.wav"].
Proof. vm_compute. split; reflexivity. Qed.

(** ** Strings *)

Lemma string_app_assoc (s t u : string) : (s +++ t) +++ u = s +++ (t +++ u).
Proof. induction s as [|c s IH]; simpl; [reflexivity | now rewrite IH]. Qed.

Lemma string_app_nil_r (s : string) : s +++ "" = s.
Proof. induction s as [|c s IH]; simpl; [reflexivity | now rewrite IH]. Qed.

(** [t] occurs in [s]. *)
Definition occurs_in (t s : string) : Prop :=
  exists pre post : string, s = pre +++ t +++ post.

Lemma occurs_in_cons (t s : string) (c : ascii) :
  occurs_in t s -> occurs_in t (String c s).
Proof. intros (pre & post & ->). now exists (String c pre), post. Qed.

Lemma occurs_in_app_l (t s u : string) : occurs_in t s -> occurs_in t (u +++ s).
Proof.
  intros H. induction u as [|c u IH]; simpl; [exact H | now apply occurs_in_cons].
Qed.

Lemma HasPrefix_app (p t : string) : Strings.HasPrefix (p +++ t) p = true.
Proof.
  induction p as [|c p IH]; simpl; [reflexivity|].
  now rewrite Ascii.eqb_refl, IH.
Qed.

Lemma Contains_unfold (s t : string) :
  Strings.Contains s t =
  Strings.HasPrefix s t ||
  match s with
  | EmptyString => false
  | String _ rest => Strings.Contains rest t
  end.
Proof. destruct s; reflexivity. Qed.

Lemma Contains_occurs (s t : string) :
  occurs_in t s -> Strings.Contains s t = true.
Proof.
  intros (pre & post & ->). induction pre as [|c pre IH].
  - rewrite Contains_unfold. simpl. now rewrite HasPrefix_app.
  - rewrite Contains_unfold. simpl. rewrite IH. apply orb_true_r.
Qed.

Lemma flush_In (cur t : string) : In t (Strings.flush cur) -> t = cur.
Proof. destruct cur; simpl; [tauto | intros [H | []]; now symmetry]. Qed.

(** Every field of a string occurs in it. *)
Lemma fields_from_occur (s : string) : forall (skip : nat) (cur t : string),
  (skip <> 0%nat -> cur = "") ->
  In t (Strings.fields_from s skip cur) -> occurs_in t (cur +++ s).
Proof.
  induction s as [|c rest IH]; intros skip cur t Hskip Hin.
  - simpl in Hin. apply flush_In in Hin. subst t.
    exists "", "". now rewrite string_app_nil_r.
  - cbn [Strings.fields_from] in Hin. destruct skip as [|k].
    + destruct (Strings.space_width (String c rest)) as [|k] eqn:E.
      * apply IH in Hin; [|intros H; now destruct H].
        now rewrite string_app_assoc in Hin.
      * apply in_app_or in Hin. destruct Hin as [Hin | Hin].
        -- apply flush_In in Hin. subst t.
           exists "", (String c rest). reflexivity.
        -- apply IH in Hin; [|reflexivity]. simpl in Hin.
           apply occurs_in_app_l. now apply occurs_in_cons.
    + rewrite (Hskip ltac:(discriminate)) in Hin |- *. simpl.
      apply occurs_in_cons.
      apply (IH k "" t); [reflexivity | exact Hin].
Qed.

Lemma Fields_occur (s t : string) : In t (Strings.Fields s) -> occurs_in t s.
Proof. intros H. apply (fields_from_occur s 0 "" t); [tauto | exact H]. Qed.

(** ** Fields hold no white space *)

(** No white-space rune starts anywhere in [s]. *)
Fixpoint narrow (s : string) : Prop :=
  match s with
  | EmptyString => True
  | String _ rest => Strings.space_width s = 0%nat /\ narrow rest
  end.

(** No white-space rune starts in [cur] when [cur] is followed by [s]. *)
Fixpoint narrow_before (cur s : string) : Prop :=
  match cur with
  | EmptyString => True
  | String _ rest =>
      Strings.space_width (cur +++ s) = 0%nat /\ narrow_before rest s
  end.

(** A white-space rune at the head of a string is at the head of every
    string that extends it. *)
Lemma space_width_prefix (p q : string) :
  Strings.space_width (p +++ q) = 0%nat -> Strings.space_width p = 0%nat.
Proof.
  destruct p as [|c [|d1 [|d2 r]]]; [reflexivity | | | now simpl].
  - simpl. destruct (Strings.ascii_space c); [discriminate | reflexivity].
  - simpl. destruct (Strings.ascii_space c); [discriminate|].
    destruct ((N_of_ascii c =? 194)%N &&
              ((N_of_ascii d1 =? 133)%N || (N_of_ascii d1 =? 160)%N));
      [discriminate | reflexivity].
Qed.

Lemma narrow_before_nil (cur : string) : narrow_before cur "" -> narrow cur.
Proof.
  induction cur as [|c cur IH]; simpl; [tauto|].
  rewrite string_app_nil_r. intros [H1 H2]. split; [exact H1 | now apply IH].
Qed.

Lemma narrow_before_cut (cur s : string) :
  narrow_before cur s -> narrow_before cur "".
Proof.
  induction cur as [|c cur IH]; [tauto|].
  cbn [narrow_before]. intros [H1 H2]. split; [|now apply IH].
  rewrite string_app_nil_r. exact (space_width_prefix _ _ H1).
Qed.

Lemma narrow_before_snoc (cur rest : string) (c : ascii) :
  narrow_before cur (String c rest) ->
  Strings.space_width (String c rest) = 0%nat ->
  narrow_before (cur +++ String c "") rest.
Proof.
  intros Hcur Hc. induction cur as [|d cur IH].
  - simpl. split; [exact Hc | exact I].
  - cbn [narrow_before] in Hcur. destruct Hcur as [H1 H2].
    change (String d cur +++ String c "") with (String d (cur +++ String c "")).
    cbn [narrow_before]. split; [|now apply IH].
    change (String d (cur +++ String c "") +++ rest)
      with (String d ((cur +++ String c "") +++ rest)).
    rewrite string_app_assoc. exact H1.
Qed.

Lemma fields_from_narrow (s : string) : forall (skip : nat) (cur t : string),
  (skip <> 0%nat -> cur = "") ->
  narrow_before cur s ->
  In t (Strings.fields_from s skip cur) -> narrow t.
Proof.
  induction s as [|c rest IH]; intros skip cur t Hskip Hcur Hin.
  - simpl in Hin. apply flush_In in Hin. subst t. now apply narrow_before_nil.
  - cbn [Strings.fields_from] in Hin. destruct skip as [|k].
    + destruct (Strings.space_width (String c rest)) as [|k] eqn:E.
      * apply IH in Hin; [exact Hin | intros H; now destruct H |].
        now apply narrow_before_snoc.
      * apply in_app_or in Hin. destruct Hin as [Hin | Hin].
        -- apply flush_In in Hin. subst t.
           apply narrow_before_nil. eapply narrow_before_cut. exact Hcur.
        -- apply IH in Hin; [exact Hin | reflexivity | exact I].
    + rewrite (Hskip ltac:(discriminate)) in Hin.
      apply IH in Hin; [exact Hin | reflexivity | exact I].
Qed.

Lemma Fields_narrow (s t : string) : In t (Strings.Fields s) -> narrow t.
Proof.
  intros H. apply (fields_from_narrow s 0 "" t); [tauto | exact I | exact H].
Qed.

Lemma trim_left_narrow (s : string) : narrow s -> Strings.trim_left s 0 = s.
Proof.
  destruct s as [|c s]; [reflexivity|]. intros [H _].
  cbn [Strings.trim_left]. now rewrite H.
Qed.

Lemma trim_right_narrow (s : string) : narrow s -> Strings.trim_right s 0 = s.
Proof.
  induction s as [|c s IH]; [reflexivity|]. intros [H Hs].
  cbn [Strings.trim_right]. rewrite H. now rewrite IH.
Qed.

(** [strings.TrimSpace] leaves a field of [strings.Fields] as it is. *)
Lemma TrimSpace_field (s t : string) :
  In t (Strings.Fields s) -> Strings.TrimSpace t = t.
Proof.
  intros H. apply Fields_narrow in H. unfold Strings.TrimSpace.
  rewrite (trim_left_narrow t H). now apply trim_right_narrow.
Qed.

(** ** The silence parser against its description *)

(** The tokens that directly follow a token [silence_end:] in a list of
    tokens, in their order. *)
Fixpoint after_marker (tokens : list string) : list string :=
  match tokens with
  | [] => []
  | token :: rest =>
      match rest with
      | [] => []
      | next :: _ =>
          if String.eqb token "silence_end:" then next :: after_marker rest
          else after_marker rest
      end
  end.

Section ParserFacts.

Context {lib : GoLib}.

(** The numbers that parse among a list of tokens, in their order. *)
Definition parsed_floats (tokens : list string) : list float64 :=
  flat_map (fun token =>
              match strconv_ParseFloat token with
              | inr time => [time]
              | inl _ => []
              end) tokens.

(** The same with the tokens trimmed first, as the code does. *)
Definition parsed_trimmed (tokens : list string) : list float64 :=
  flat_map (fun token =>
              match strconv_ParseFloat (Strings.TrimSpace token) with
              | inr time => [time]
              | inl _ => []
              end) tokens.

Lemma after_marker_subset (tokens : list string) (t : string) :
  In t (after_marker tokens) -> In t tokens.
Proof.
  induction tokens as [|token rest IH]; simpl; [tauto|].
  destruct rest as [|next rest']; [simpl; tauto|].
  destruct (String.eqb token "silence_end:").
  - intros [<- | H]; [right; now left | right; now apply IH].
  - intros H. right. now apply IH.
Qed.

Lemma parsed_trimmed_fields (line : string) :
  parsed_trimmed (after_marker (Strings.Fields line)) =
  parsed_floats (after_marker (Strings.Fields line)).
Proof.
  unfold parsed_trimmed, parsed_floats.
  assert (H : forall t, In t (after_marker (Strings.Fields line)) ->
                        Strings.TrimSpace t = t).
  { intros t Ht. apply (TrimSpace_field line). now apply after_marker_subset. }
  induction (after_marker (Strings.Fields line)) as [|t l IH]; [reflexivity|].
  simpl. rewrite (H t) by now left. f_equal. apply IH.
  intros u Hu. apply H. now right.
Qed.

(** The silence points of an output as the description has them: line by
    line, the numbers that parse after a token [silence_end:]. *)
Definition described_silence_points (output : string) : list float64 :=
  flat_map (fun line => parsed_floats (after_marker (Strings.Fields line)))
    (Strings.Split output newline).

Lemma after_marker_In (tokens : list string) :
  after_marker tokens <> [] -> In "silence_end:" tokens.
Proof.
  induction tokens as [|token rest IH]; simpl; [congruence|].
  destruct rest as [|next rest']; [congruence|].
  destruct (String.eqb token "silence_end:") eqn:E.
  - apply String.eqb_eq in E. intros _. now left.
  - intros H. right. now apply IH.
Qed.

Lemma parts_loop (parts : list string) : forall (before rest : list string)
    (silencePoints : list float64),
  parts = before ++ rest ->
  fold_left (parts_body parts)
    (combine (seq (length before) (length rest)) rest) silencePoints =
  silencePoints ++ parsed_trimmed (after_marker rest).
Proof.
  intros before rest. revert before.
  induction rest as [|part rest IH]; intros before silencePoints Hparts.
  - simpl. now rewrite app_nil_r.
  - cbn [length seq combine fold_left].
    specialize (IH (before ++ [part]) (parts_body parts silencePoints
                                          (length before, part))).
    replace (length (before ++ [part])) with (S (length before)) in IH
      by (rewrite length_app; simpl; lia).
    rewrite IH by (rewrite Hparts, <- app_assoc; reflexivity).
    clear IH. unfold parts_body.
    assert (Hnext : parts !! (length before + 1)%nat = rest !! 0%nat).
    { rewrite Hparts. rewrite lookup_app_r by lia.
      replace (length before + 1 - length before)%nat with 1%nat by lia.
      reflexivity. }
    rewrite Hnext.
    assert (Hlen : len parts = (Z.of_nat (length before) + 1 + len rest)%Z).
    { unfold len. rewrite Hparts, length_app. simpl. lia. }
    destruct rest as [|next rest'].
    + simpl. rewrite andb_comm.
      replace (Z.of_nat (length before) + 1 <? len parts)%Z with false.
      * reflexivity.
      * symmetry. apply Z.ltb_ge. rewrite Hlen. unfold len. simpl. lia.
    + cbn [after_marker]. simpl lookup.
      destruct (String.eqb part "silence_end:"); simpl andb.
      * replace (Z.of_nat (length before) + 1 <? len parts)%Z with true.
        -- cbn [parsed_trimmed flat_map].
           destruct (strconv_ParseFloat (Strings.TrimSpace next)).
           ++ reflexivity.
           ++ now rewrite <- app_assoc.
        -- symmetry. apply Z.ltb_lt. rewrite Hlen. unfold len. simpl. lia.
      * reflexivity.
Qed.

Lemma lines_body_described (silencePoints : list float64) (line : string) :
  lines_body silencePoints line =
  silencePoints ++ parsed_floats (after_marker (Strings.Fields line)).
Proof.
  rewrite <- parsed_trimmed_fields. unfold lines_body.
  destruct (Strings.Contains line "silence_end") eqn:E.
  - apply (parts_loop (Strings.Fields line) [] (Strings.Fields line)).
    reflexivity.
  - destruct (after_marker (Strings.Fields line)) as [|t l] eqn:Ha.
    + simpl. now rewrite app_nil_r.
    + exfalso.
      assert (Hin : In "silence_end:" (Strings.Fields line)).
      { apply after_marker_In. rewrite Ha. discriminate. }
      apply Fields_occur in Hin. destruct Hin as (pre & post & Hline).
      assert (Hc : Strings.Contains line "silence_end" = true).
      { apply Contains_occurs. exists pre, (":" +++ post). exact Hline. }
      congruence.
Qed.

Lemma lines_loop (lines : list string) : forall silencePoints : list float64,
  fold_left lines_body lines silencePoints =
  silencePoints ++
  flat_map (fun line => parsed_floats (after_marker (Strings.Fields line)))
    lines.
Proof.
  induction lines as [|line lines IH]; intros silencePoints; simpl.
  - now rewrite app_nil_r.
  - rewrite IH, lines_body_described, <- app_assoc. reflexivity.
Qed.

End ParserFacts.

(** C10: parseSilenceOutput is total and its error is always nil: for every
    text it returns, line by line and in their order of appearance, exactly
    the numbers that strconv.ParseFloat accepts among the tokens that directly
    follow a token "silence_end:", and passes over the tokens that do not
    parse. *)
Theorem C10_parseSilenceOutput_total `{lib : GoLib} (output : string) :
  parseSilenceOutput output = (described_silence_points output, None).
Proof.
  unfold parseSilenceOutput, described_silence_points.
  now rewrite lines_loop.
Qed.

(** ** The worker pool: progress, termination and what a run preserves *)

Section PoolFacts.

Context {Shared : Type}.
Variable capacity : Z.
Variable work : nat -> Shared -> option Shared.

Definition is_pending (p : Pool.phase) : bool :=
  match p with Pool.Pending => true | _ => false end.

(** Two units for a pending goroutine, one for a running one: every step
    takes one unit away. *)
Definition weight (phases : list Pool.phase) : Z :=
  (2 * Pool.count is_pending phases + Pool.count Pool.is_running phases)%Z.

Lemma count_nonneg f phases : (0 <= Pool.count f phases)%Z.
Proof. induction phases as [|p ps IH]; simpl; [lia | destruct (f p); lia]. Qed.

Lemma count_insert f (phases : list Pool.phase) (i : nat) (p q : Pool.phase) :
  phases !! i = Some p ->
  Pool.count f (<[i := q]> phases) =
  (Pool.count f phases - (if f p then 1 else 0) + (if f q then 1 else 0))%Z.
Proof.
  revert i. induction phases as [|p' ps IH]; intros [|i] H; simpl in *;
    try discriminate.
  - injection H as ->. lia.
  - rewrite (IH i H). lia.
Qed.

Lemma step_weight phases shared phases' shared' :
  Pool.step capacity work (Pool.Live phases shared) (Pool.Live phases' shared') ->
  length phases' = length phases /\ weight phases' = (weight phases - 1)%Z.
Proof.
  intros H. inversion H; subst; rewrite length_insert; split; try reflexivity;
    unfold weight;
    match goal with
    | Hl : phases !! _ = Some _ |- _ =>
        rewrite !(count_insert _ _ _ _ _ Hl)
    end; simpl; lia.
Qed.

Lemma all_done_count (phases : list Pool.phase) :
  Pool.all_done phases <-> weight phases = 0%Z.
Proof.
  unfold Pool.all_done, weight. induction phases as [|p ps IH]; simpl.
  - split; [reflexivity | constructor].
  - pose proof (count_nonneg is_pending ps) as Hp.
    pose proof (count_nonneg Pool.is_running ps) as Hr.
    split.
    + intros Hall. inversion Hall as [|p' ps' Hhead Htail]; subst.
      apply IH in Htail. simpl. lia.
    + intros Hsum. destruct p; simpl in Hsum; try lia.
      constructor; [reflexivity | apply IH; lia].
Qed.

(** Among goroutines that are not all done, one is running, or none is
    running and one is pending. *)
Lemma not_all_done_cases (phases : list Pool.phase) :
  ~ Pool.all_done phases ->
  (exists i, phases !! i = Some Pool.Running) \/
  (Pool.count Pool.is_running phases = 0%Z /\
   exists i, phases !! i = Some Pool.Pending).
Proof.
  induction phases as [|p ps IH]; intros H.
  - exfalso. apply H. constructor.
  - destruct p.
    + destruct (Z.eq_dec (Pool.count Pool.is_running ps) 0%Z) as [Hz | Hnz].
      * right. split; [simpl; lia | now exists 0%nat].
      * left. destruct IH as [[i Hi] | [Hz _]]; [| now exists (S i) | contradiction].
        intros Hd. apply all_done_count in Hd. unfold weight in Hd.
        pose proof (count_nonneg is_pending ps).
        pose proof (count_nonneg Pool.is_running ps). lia.
    + left. now exists 0%nat.
    + destruct IH as [[i Hi] | [Hz [i Hi]]].
      * intros Hd. apply H. constructor; [reflexivity | exact Hd].
      * left. now exists (S i).
      * right. split; [simpl; lia | now exists (S i)].
Qed.

(** With room for one goroutine, a pool that is not done can move. *)
Lemma pool_progress phases shared :
  (1 <= capacity)%Z -> ~ Pool.all_done phases ->
  exists s', Pool.step capacity work (Pool.Live phases shared) s'.
Proof.
  intros Hcap Hnd.
  destruct (not_all_done_cases phases Hnd) as [[i Hi] | [Hz [i Hi]]].
  - destruct (work i shared) as [shared'|] eqn:E.
    + eexists. eapply Pool.step_finish; eauto.
    + eexists. eapply Pool.step_fatal; eauto.
  - eexists. eapply Pool.step_acquire; [exact Hi | lia].
Qed.

Lemma pool_not_stuck s :
  (1 <= capacity)%Z -> ~ Pool.stuck capacity work s.
Proof.
  intros Hcap. destruct s as [phases shared|]; simpl; [|tauto].
  intros [Hnd Hno]. destruct (pool_progress phases shared Hcap Hnd) as [s' Hs'].
  exact (Hno s' Hs').
Qed.

Lemma steps_trans s1 s2 s3 :
  Pool.steps capacity work s1 s2 -> Pool.steps capacity work s2 s3 ->
  Pool.steps capacity work s1 s3.
Proof.
  induction 1; intros H'; [exact H' | eapply Pool.steps_step; eauto].
Qed.

Lemma steps_from_Exited s :
  Pool.steps capacity work Pool.Exited s -> s = Pool.Exited.
Proof.
  intros H. inversion H; subst; [reflexivity|].
  match goal with Hs : Pool.step _ _ Pool.Exited _ |- _ => inversion Hs end.
Qed.

(** With room for one goroutine every pool can be run to its end: all its
    goroutines done, or the process ended by one of them. *)
Lemma pool_completes :
  (1 <= capacity)%Z ->
  forall phases shared,
  exists final,
    Pool.steps capacity work (Pool.Live phases shared) final /\
    (final = Pool.Exited \/
     exists phases' shared',
       final = Pool.Live phases' shared' /\ Pool.all_done phases').
Proof.
  intros Hcap phases.
  assert (Hw : (0 <= weight phases)%Z).
  { unfold weight. pose proof (count_nonneg is_pending phases).
    pose proof (count_nonneg Pool.is_running phases). lia. }
  remember (weight phases) as k eqn:Hk. revert phases Hk.
  pattern k. apply Zlt_0_ind; [|exact Hw]. clear k Hw.
  intros k IH _ phases Hk shared.
  destruct (Z.eq_dec k 0%Z) as [Hz | Hnz].
  - exists (Pool.Live phases shared). split; [constructor|].
    right. exists phases, shared. split; [reflexivity|].
    apply all_done_count. lia.
  - assert (Hnd : ~ Pool.all_done phases).
    { intros Hd. apply all_done_count in Hd. lia. }
    destruct (pool_progress phases shared Hcap Hnd) as [s' Hs'].
    destruct s' as [phases' shared'|].
    + destruct (step_weight _ _ _ _ Hs') as [_ Hw'].
      assert (Hk' : (0 <= weight phases' < k)%Z).
      { unfold weight in *. pose proof (count_nonneg is_pending phases').
        pose proof (count_nonneg Pool.is_running phases'). lia. }
      destruct (IH (weight phases') Hk' phases' eq_refl shared')
        as (final & Hsteps & Hfinal).
      exists final. split; [|exact Hfinal].
      eapply Pool.steps_step; eauto.
    + exists Pool.Exited. split; [|now left].
      eapply Pool.steps_step; [exact Hs' | constructor].
Qed.

(** A property of the live states that every step preserves holds after any
    number of steps. *)
Lemma steps_invariant (I : list Pool.phase -> Shared -> Prop) :
  (forall phases shared phases' shared',
     I phases shared ->
     Pool.step capacity work (Pool.Live phases shared)
       (Pool.Live phases' shared') ->
     I phases' shared') ->
  forall s s',
    Pool.steps capacity work s s' ->
    forall phases shared phases' shared',
      s = Pool.Live phases shared -> s' = Pool.Live phases' shared' ->
      I phases shared -> I phases' shared'.
Proof.
  intros Hstep s s' H. induction H as [s | s1 s2 s3 H12 H23 IH];
    intros phases shared phases' shared' E1 E2 HI.
  - subst. injection E2 as -> ->. exact HI.
  - subst. destruct s2 as [ps2 sh2|].
    + apply (IH ps2 sh2 phases' shared' eq_refl eq_refl).
      eapply Hstep; eauto.
    + apply steps_from_Exited in H23. discriminate.
Qed.

End PoolFacts.

Section PoolOutcomes.

Context {Shared : Type}.
Variable capacity : Z.
Variable work : nat -> Shared -> option Shared.

(** When no goroutine calls [log.Fatal] the process does not end. *)
Lemma steps_stay_live phases shared s :
  (forall i sh, work i sh <> None) ->
  Pool.steps capacity work (Pool.Live phases shared) s ->
  exists phases' shared', s = Pool.Live phases' shared'.
Proof.
  intros Hwork H. remember (Pool.Live phases shared) as s0 eqn:E.
  revert phases shared E.
  induction H as [s | s1 s2 s3 H12 H23 IH]; intros phases shared E; subst.
  - eauto.
  - inversion H12; subst; try (eapply IH; reflexivity).
    exfalso. eapply Hwork; eauto.
Qed.

(** When every goroutine calls [log.Fatal] none gets done. *)
Lemma steps_none_done phases shared phases' shared' :
  (forall i sh, (i < length phases)%nat -> work i sh = None) ->
  Pool.steps capacity work (Pool.Live phases shared) (Pool.Live phases' shared') ->
  Pool.count Pool.is_done phases = 0%Z ->
  length phases' = length phases /\ Pool.count Pool.is_done phases' = 0%Z.
Proof.
  intros Hwork H Hz.
  refine (steps_invariant capacity work
            (fun ps _ => length ps = length phases /\
                         Pool.count Pool.is_done ps = 0%Z)
            _ _ _ H phases shared phases' shared' eq_refl eq_refl _);
    [|split; [reflexivity | exact Hz]].
  intros ps sh ps' sh' [Hlen Hcount] Hstep.
  inversion Hstep; subst.
  - rewrite length_insert. split; [exact Hlen|].
    match goal with
    | Hl : ps !! _ = Some _ |- _ => rewrite (count_insert _ _ _ _ _ Hl)
    end. simpl. lia.
  - match goal with
    | Hl : ps !! ?i = Some _, Hw : work ?i _ = Some _ |- _ =>
        apply lookup_lt_Some in Hl; rewrite Hwork in Hw by lia; discriminate
    end.
Qed.

Lemma all_done_count_done (phases : list Pool.phase) :
  Pool.all_done phases -> Pool.count Pool.is_done phases = Z.of_nat (length phases).
Proof.
  induction 1 as [|p ps Hp Hall IH]; simpl; [reflexivity|].
  subst p. simpl. lia.
Qed.

Lemma count_repeat_pending f (n : nat) :
  f Pool.Pending = false -> Pool.count f (repeat Pool.Pending n) = 0%Z.
Proof. intros Hf. induction n as [|n IH]; simpl; [reflexivity | rewrite Hf, IH; lia]. Qed.

(** A pool with at least one goroutine, room for one, and goroutines that all
    call [log.Fatal]: the process ends, whatever the order. *)
Lemma run_all_fatal (jobs : nat) (shared : Shared) :
  (1 <= capacity)%Z -> (1 <= jobs)%nat ->
  (forall i sh, (i < jobs)%nat -> work i sh = None) ->
  Pool.run capacity work jobs shared Exit /\
  forall o, Pool.run capacity work jobs shared o -> o = Exit.
Proof.
  intros Hcap Hjobs Hwork. split.
  - apply Pool.run_exit; [lia|]. unfold Pool.start.
    destruct jobs as [|n]; [lia|]. simpl.
    eapply Pool.steps_step.
    + apply (Pool.step_acquire capacity work _ shared 0%nat); [reflexivity|].
      simpl. rewrite count_repeat_pending by reflexivity. lia.
    + eapply Pool.steps_step; [|constructor].
      apply (Pool.step_fatal capacity work _ shared 0%nat); [reflexivity|].
      apply Hwork. lia.
  - intros o Hrun. destruct Hrun as [Hneg | phases shared' _ Hsteps Hdone | | s _ Hsteps Hstuck].
    + lia.
    + exfalso. unfold Pool.start in Hsteps.
      apply steps_none_done in Hsteps;
        [|intros i sh Hi; rewrite repeat_length in Hi; now apply Hwork|].
      * destruct Hsteps as [Hlen Hcount].
        apply all_done_count_done in Hdone.
        rewrite Hlen, repeat_length in Hdone. lia.
      * now apply count_repeat_pending.
    + reflexivity.
    + exfalso. exact (pool_not_stuck capacity work s Hcap Hstuck).
Qed.

(** A channel without room blocks every goroutine: the run time reports the
    deadlock. *)
Lemma run_without_room_deadlocks (jobs : nat) (shared : Shared) :
  capacity = 0%Z -> (1 <= jobs)%nat ->
  Pool.run capacity work jobs shared Crash.
Proof.
  intros Hcap Hjobs.
  apply (Pool.run_deadlock capacity work jobs shared (Pool.start jobs shared));
    [lia | constructor |].
  unfold Pool.start. simpl. split.
  - intros Hdone. destruct jobs as [|n]; [lia|].
    inversion Hdone. discriminate.
  - intros s' Hstep. inversion Hstep; subst.
    + pose proof (count_nonneg Pool.is_running (repeat Pool.Pending jobs)). lia.
    + match goal with
      | Hl : repeat Pool.Pending jobs !! _ = Some Pool.Running |- _ =>
          apply list_elem_of_lookup_2, list_elem_of_In, repeat_spec in Hl;
          discriminate
      end.
    + match goal with
      | Hl : repeat Pool.Pending jobs !! _ = Some Pool.Running |- _ =>
          apply list_elem_of_lookup_2, list_elem_of_In, repeat_spec in Hl;
          discriminate
      end.
Qed.

End PoolOutcomes.

(** ** The transcription pool *)

Section DispatchFacts.

Context {lib : GoLib}.
Variable w : World.
Variable a : AudioAnalyzer.

(** The result that the goroutine of a segment writes, when [transcribeCpp]
    returns. *)
Definition transcribed (seg : AudioSegment) : TranscriptionResult :=
  match transcribeCpp w seg with
  | Return r => make_result seg r
  | _ => zero_TranscriptionResult
  end.

Lemma transcribeCpp_returns (seg : AudioSegment) :
  os_Stat_IsNotExist w exePath = false ->
  exists r, transcribeCpp w seg = Return r.
Proof.
  intros H. unfold transcribeCpp. rewrite H.
  destruct (GetAudioDuration w (FilePath seg)) as [seconds e].
  destruct (exec_CombinedOutput w whisper_cli _) as [output [err|]]; eauto.
Qed.

Lemma transcribeCpp_exits (seg : AudioSegment) :
  os_Stat_IsNotExist w exePath = true -> transcribeCpp w seg = Exit.
Proof. intros H. unfold transcribeCpp. now rewrite H. Qed.

Lemma make_result_Segment (seg : AudioSegment) (r : returned string) :
  Segment (make_result seg r) = seg.
Proof. destruct r as [text [e|]]; reflexivity. Qed.

Lemma transcribed_Segment (seg : AudioSegment) :
  os_Stat_IsNotExist w exePath = false -> Segment (transcribed seg) = seg.
Proof.
  intros H. unfold transcribed.
  destruct (transcribeCpp_returns seg H) as [r ->]. apply make_result_Segment.
Qed.

Variable segments : list AudioSegment.

(** What holds of the slice [results] while the pool runs: it keeps its
    length, and the slot of a goroutine that is done holds its result. *)
Definition slots_ok (phases : list Pool.phase)
    (results : list TranscriptionResult) : Prop :=
  length phases = length segments /\
  length results = length segments /\
  forall (i : nat) (seg : AudioSegment),
    segments !! i = Some seg -> phases !! i = Some Pool.Done ->
    results !! i = Some (transcribed seg).

Lemma slots_ok_start :
  slots_ok (repeat Pool.Pending (length segments))
           (repeat zero_TranscriptionResult (length segments)).
Proof.
  unfold slots_ok. rewrite !repeat_length. repeat split.
  intros i seg _ H. exfalso.
  assert (Hin : In Pool.Done (repeat Pool.Pending (length segments))).
  { apply list_elem_of_In. eapply list_elem_of_lookup_2. exact H. }
  apply repeat_spec in Hin. discriminate.
Qed.

Lemma slots_ok_step phases results phases' results' :
  slots_ok phases results ->
  Pool.step (MaxWorkers a) (process_worker w segments)
    (Pool.Live phases results) (Pool.Live phases' results') ->
  slots_ok phases' results'.
Proof.
  intros (Hlp & Hlr & Hslots) Hstep. inversion Hstep; subst.
  - unfold slots_ok. rewrite length_insert. repeat split; auto.
    intros j seg Hseg Hj. apply Hslots; [exact Hseg|].
    destruct (decide (i = j)) as [<- | Hne].
    + rewrite list_lookup_insert_eq in Hj by (eapply lookup_lt_Some; eauto).
      discriminate.
    + now rewrite list_lookup_insert_ne in Hj.
  - match goal with
    | Hw : process_worker _ _ _ _ = Some _ |- _ => rename Hw into Hwork
    end.
    match goal with
    | Hp : phases !! _ = Some Pool.Running |- _ => rename Hp into Hrun
    end.
    assert (Hi : (i < length segments)%nat).
    { rewrite <- Hlp. eapply lookup_lt_Some; eauto. }
    unfold process_worker in Hwork.
    destruct (segments !! i) as [seg_i|] eqn:Hseg_i.
    2:{ apply lookup_ge_None in Hseg_i. lia. }
    destruct (transcribeCpp w seg_i) as [r| |] eqn:Hr; try discriminate.
    injection Hwork as <-.
    unfold slots_ok. rewrite !length_insert. repeat split; auto.
    intros j seg Hseg Hj.
    destruct (decide (i = j)) as [<- | Hne].
    + rewrite list_lookup_insert_eq by lia.
      rewrite Hseg_i in Hseg. injection Hseg as <-.
      unfold transcribed. now rewrite Hr.
    + rewrite list_lookup_insert_ne by exact Hne.
      apply Hslots; [exact Hseg|].
      now rewrite list_lookup_insert_ne in Hj.
Qed.

Lemma slots_ok_done phases results :
  slots_ok phases results -> Pool.all_done phases ->
  results = map transcribed segments.
Proof.
  intros (Hlp & Hlr & Hslots) Hdone.
  apply list_eq. intros i. rewrite lookup_map.
  destruct (segments !! i) as [seg|] eqn:Hseg; simpl.
  - apply Hslots; [exact Hseg|].
    assert (Hi : (i < length phases)%nat).
    { rewrite Hlp. eapply lookup_lt_Some; eauto. }
    destruct (lookup_lt_is_Some_2 phases i Hi) as [p Hp].
    rewrite Hp. f_equal.
    unfold Pool.all_done in Hdone. rewrite Forall_forall in Hdone.
    apply Hdone. eapply list_elem_of_lookup_2. exact Hp.
  - apply lookup_ge_None. apply lookup_ge_None in Hseg. lia.
Qed.

(** Whatever the order in which the goroutines run, the slice [results] is
    the same when [wg.Wait()] returns. *)
Lemma dispatch_Return_unique results :
  dispatch w a segments (Return results) ->
  results = map transcribed segments.
Proof.
  intros H. inversion H as [| phases shared' Hcap Hsteps Hdone | |]; subst.
  apply slots_ok_done with phases; [|exact Hdone].
  unfold Pool.start in Hsteps.
  refine (steps_invariant _ _ slots_ok _ _ _ Hsteps _ _ _ _ eq_refl eq_refl
            slots_ok_start).
  intros ps sh ps' sh' HI Hstep. eapply slots_ok_step; eauto.
Qed.

Lemma process_worker_never_fatal :
  os_Stat_IsNotExist w exePath = false ->
  forall i results, process_worker w segments i results <> None.
Proof.
  intros H i results. unfold process_worker.
  destruct (segments !! i) as [seg|]; [|discriminate].
  destruct (transcribeCpp_returns seg H) as [r ->]. discriminate.
Qed.

(** With a worker and with main.exe in place the pool has one outcome. *)
Lemma dispatch_returns :
  (1 <= MaxWorkers a)%Z ->
  os_Stat_IsNotExist w exePath = false ->
  dispatch w a segments (Return (map transcribed segments)) /\
  forall o, dispatch w a segments o -> o = Return (map transcribed segments).
Proof.
  intros Hcap Hexe.
  assert (Honly : forall o, dispatch w a segments o ->
                            o = Return (map transcribed segments)).
  { intros o H. destruct o as [results | |].
    - f_equal. now apply dispatch_Return_unique.
    - exfalso. inversion H as [| | _ Hsteps |]; subst.
      apply steps_stay_live in Hsteps.
      + destruct Hsteps as (ps & sh & Heq). discriminate.
      + now apply process_worker_never_fatal.
    - exfalso. inversion H as [Hneg | | | s _ Hsteps Hstuck]; subst; [lia|].
      exact (pool_not_stuck _ _ s Hcap Hstuck). }
  split; [|exact Honly].
  destruct (pool_completes (MaxWorkers a) (process_worker w segments) Hcap
              (repeat Pool.Pending (length segments))
              (repeat zero_TranscriptionResult (length segments)))
    as (final & Hsteps & [-> | (ps & sh & -> & Hdone)]).
  - apply steps_stay_live in Hsteps.
    + destruct Hsteps as (ps & sh & Heq). discriminate.
    + now apply process_worker_never_fatal.
  - assert (Hrun : dispatch w a segments (Return sh)).
    { eapply Pool.run_return; [lia | exact Hsteps | exact Hdone]. }
    now rewrite <- (dispatch_Return_unique sh Hrun).
Qed.

End DispatchFacts.

(** ** Sorting *)

(** What [sort.Interface] asks of [less]: a transitive ordering. *)
Definition transitive_ordering {A : Type} (less : A -> A -> bool) : Prop :=
  (forall x, less x x = false) /\
  (forall x y z, less x y = true -> less y z = true -> less x z = true) /\
  (forall x y z, less x y = false -> less y z = false -> less x z = false).

(** What the documentation of [sort.Slice] promises for such a [less]: the
    slice is rearranged so that no element is less than one before it. The
    order of equal elements is not promised. *)
Definition sort_Slice_contract (lib : GoLib) : Prop :=
  forall less : TranscriptionResult -> TranscriptionResult -> bool,
    transitive_ordering less ->
    forall results : list TranscriptionResult,
      Permutation results (sort_Slice less results) /\
      StronglySorted (fun x y => less y x = false) (sort_Slice less results).

Lemma Qlt_bool_true (x y : Q) : Qlt_bool x y = true <-> x < y.
Proof.
  unfold Qlt_bool. rewrite negb_true_iff. apply Qle_bool_false.
Qed.

Lemma Qlt_bool_false (x y : Q) : Qlt_bool x y = false <-> y <= x.
Proof.
  unfold Qlt_bool. rewrite negb_false_iff. apply Qle_bool_iff.
Qed.

Lemma by_start_time_ordering : transitive_ordering by_start_time.
Proof.
  unfold transitive_ordering, by_start_time. split_and!.
  - intros x. apply Qlt_bool_false. lra.
  - intros x y z. rewrite !Qlt_bool_true. lra.
  - intros x y z. rewrite !Qlt_bool_false. lra.
Qed.

Section InsertionSortFacts.

Context {A : Type}.
Variable less : A -> A -> bool.
Variable before : A -> A -> bool.

Lemma insert_by_perm (x : A) (sorted : list A) :
  Permutation (x :: sorted) (insert_by before x sorted).
Proof.
  induction sorted as [|y rest IH]; simpl; [reflexivity|].
  destruct (before x y); [reflexivity|].
  rewrite perm_swap. now apply perm_skip.
Qed.

Lemma sort_by_perm (l : list A) : Permutation l (sort_by before l).
Proof.
  unfold sort_by.
  assert (H : forall acc, Permutation (acc ++ l)
                (fold_left (fun sorted x => insert_by before x sorted) l acc)).
  { induction l as [|x l IH]; intros acc; simpl.
    - now rewrite app_nil_r.
    - rewrite <- IH. rewrite <- insert_by_perm. simpl.
      symmetry. apply Permutation_middle. }
  apply (H []).
Qed.

Hypothesis before_ok : forall x y,
  (before x y = true ->
   less y x = false /\ forall z, less z y = false -> less z x = false) /\
  (before x y = false -> less x y = false).

Lemma insert_by_sorted (x : A) (sorted : list A) :
  StronglySorted (fun u v => less v u = false) sorted ->
  StronglySorted (fun u v => less v u = false) (insert_by before x sorted).
Proof.
  induction 1 as [|y rest Hrest IH Hy]; simpl.
  - repeat constructor.
  - destruct (before x y) eqn:E.
    + destruct (proj1 (before_ok x y) E) as [Hyx Hz].
      constructor; [constructor; assumption|].
      constructor; [exact Hyx|].
      rewrite Forall_forall in Hy |- *. intros z Hin. apply Hz. now apply Hy.
    + constructor; [exact IH|].
      rewrite Forall_forall in Hy |- *. intros z Hin.
      apply list_elem_of_In in Hin.
      apply (Permutation_in _ (Permutation_sym (insert_by_perm x rest))) in Hin.
      destruct Hin as [<- | Hin].
      * exact (proj2 (before_ok x y) E).
      * apply Hy. now apply list_elem_of_In.
Qed.

Lemma sort_by_sorted (l : list A) :
  StronglySorted (fun u v => less v u = false) (sort_by before l).
Proof.
  unfold sort_by.
  assert (H : forall acc, StronglySorted (fun u v => less v u = false) acc ->
                StronglySorted (fun u v => less v u = false)
                  (fold_left (fun sorted x => insert_by before x sorted) l acc)).
  { induction l as [|x l IH]; intros acc Hacc; simpl; [exact Hacc|].
    apply IH. now apply insert_by_sorted. }
  apply H. constructor.
Qed.

End InsertionSortFacts.

Lemma asymmetric {A : Type} (less : A -> A -> bool) (x y : A) :
  transitive_ordering less -> less x y = true -> less y x = false.
Proof.
  intros (Hirr & Htrans & _) Hxy.
  destruct (less y x) eqn:E; [|reflexivity].
  rewrite <- (Hirr x). symmetry. now apply Htrans with y.
Qed.

Lemma insertion_sort_contract {A : Type} (less : A -> A -> bool) (l : list A) :
  transitive_ordering less ->
  Permutation l (insertion_sort less l) /\
  StronglySorted (fun u v => less v u = false) (insertion_sort less l).
Proof.
  intros Hord. split; [apply sort_by_perm|].
  apply sort_by_sorted. intros x y. split.
  - intros Hxy. split; [now apply asymmetric|].
    intros z Hzy. destruct (less z x) eqn:E; [|reflexivity].
    destruct Hord as (_ & Htrans & _). rewrite <- Hzy. symmetry.
    now apply Htrans with x.
  - auto.
Qed.


(** A list in ascending order without equal keys is the only arrangement of
    its elements in ascending order. *)
Lemma sorted_arrangement_unique {A : Type} (key : A -> Q) (l0 : list A) :
  StronglySorted (fun x y => key x < key y) l0 ->
  forall l,
    StronglySorted (fun x y => key x <= key y) l ->
    Permutation l0 l -> l = l0.
Proof.
  induction 1 as [|x l0 Hl0 IH Hx]; intros l Hsorted Hperm.
  - apply Permutation_nil in Hperm. now subst.
  - destruct l as [|y l]; [now apply Permutation_sym, Permutation_nil in Hperm|].
    inversion Hsorted as [|y' l' Hl Hy]; subst.
    rewrite Forall_forall in Hx, Hy.
    assert (Hyin : In y (x :: l0)).
    { apply (Permutation_in _ (Permutation_sym Hperm)). now left. }
    assert (Hxin : In x (y :: l)).
    { apply (Permutation_in _ Hperm). now left. }
    assert (Hxy : x = y).
    { destruct Hyin as [H | Hyin]; [exact H|].
      apply list_elem_of_In, Hx in Hyin.
      destruct Hxin as [H | Hxin]; [now symmetry|].
      apply list_elem_of_In, Hy in Hxin. lra. }
    subst y. f_equal. apply IH; [exact Hl|].
    now apply Permutation_cons_inv with x.
Qed.

(** ** The extraction pool *)

Section ExtractFacts.

Variable w : World.
Variable a : AudioAnalyzer.

(** The line logged for a segment: none when its extraction succeeds. *)
Definition extract_failure (seg : AudioSegment) : list string :=
  match extractSingleSegment w a seg with
  | Some err => [extract_log_line seg err]
  | None => []
  end.

(** The lines logged by the goroutines that are done. *)
Fixpoint lines_done (phases : list Pool.phase) (segments : list AudioSegment)
    : list string :=
  match phases, segments with
  | p :: ps, seg :: segs =>
      (if Pool.is_done p then extract_failure seg else []) ++ lines_done ps segs
  | _, _ => []
  end.

Lemma lines_done_acquire phases segments (i : nat) :
  phases !! i = Some Pool.Pending ->
  lines_done (<[i := Pool.Running]> phases) segments = lines_done phases segments.
Proof.
  revert segments i. induction phases as [|p ps IH]; intros [|seg segs] [|i] H;
    simpl in *; try reflexivity; try discriminate.
  - now injection H as ->.
  - now rewrite IH.
Qed.

Lemma lines_done_finish phases segments (i : nat) (seg : AudioSegment) :
  phases !! i = Some Pool.Running -> segments !! i = Some seg ->
  Permutation (lines_done (<[i := Pool.Done]> phases) segments)
              (lines_done phases segments ++ extract_failure seg).
Proof.
  revert segments i. induction phases as [|p ps IH]; intros [|s segs] [|i] Hp Hs;
    simpl in *; try discriminate.
  - injection Hp as ->. injection Hs as ->. simpl.
    apply Permutation_app_comm.
  - rewrite (IH segs i Hp Hs). now rewrite app_assoc.
Qed.

Lemma lines_done_all phases segments :
  Pool.all_done phases -> length phases = length segments ->
  lines_done phases segments = flat_map extract_failure segments.
Proof.
  intros Hdone. revert segments.
  induction Hdone as [|p ps Hp Hall IH]; intros [|seg segs] Hlen;
    simpl in *; try reflexivity; try discriminate.
  subst p. simpl. f_equal. apply IH. lia.
Qed.

Variable segments : list AudioSegment.

Definition log_ok (phases : list Pool.phase) (log : list string) : Prop :=
  length phases = length segments /\
  Permutation log (lines_done phases segments).

Lemma lines_done_pending (n : nat) (segs : list AudioSegment) :
  lines_done (repeat Pool.Pending n) segs = [].
Proof.
  revert segs. induction n as [|n IH]; intros [|seg segs]; simpl; auto.
Qed.

Lemma log_ok_step phases log phases' log' :
  log_ok phases log ->
  Pool.step (MaxWorkers a) (extract_worker w a segments)
    (Pool.Live phases log) (Pool.Live phases' log') ->
  log_ok phases' log'.
Proof.
  intros [Hlen Hperm] Hstep. inversion Hstep; subst.
  - split; [now rewrite length_insert|]. now rewrite lines_done_acquire.
  - match goal with
    | Hw : extract_worker _ _ _ _ _ = Some _ |- _ => rename Hw into Hwork
    end.
    match goal with
    | Hp : phases !! _ = Some Pool.Running |- _ => rename Hp into Hrun
    end.
    split; [now rewrite length_insert|].
    assert (Hi : (i < length segments)%nat).
    { rewrite <- Hlen. eapply lookup_lt_Some; eauto. }
    destruct (lookup_lt_is_Some_2 segments i Hi) as [seg Hseg].
    rewrite (lines_done_finish phases segments i seg Hrun Hseg).
    unfold extract_worker in Hwork. rewrite Hseg in Hwork.
    unfold extract_failure.
    destruct (extractSingleSegment w a seg) as [err|]; injection Hwork as <-.
    + now apply Permutation_app_tail.
    + now rewrite app_nil_r.
Qed.

Lemma extract_worker_never_fatal (i : nat) (log : list string) :
  extract_worker w a segments i log <> None.
Proof.
  unfold extract_worker. destruct (segments !! i) as [seg|]; [|discriminate].
  destruct (extractSingleSegment w a seg); discriminate.
Qed.

(** With a worker the extraction pool always comes to its end, and the log
    holds one line for each segment whose extraction failed. *)
Lemma extract_pool_returns :
  (1 <= MaxWorkers a)%Z ->
  (exists log,
     Pool.run (MaxWorkers a) (extract_worker w a segments) (length segments) []
       (Return log)) /\
  forall o,
    Pool.run (MaxWorkers a) (extract_worker w a segments) (length segments) [] o ->
    exists log,
      o = Return log /\ Permutation log (flat_map extract_failure segments).
Proof.
  intros Hcap.
  assert (Hret : forall phases log,
    Pool.steps (MaxWorkers a) (extract_worker w a segments)
      (Pool.start (length segments) []) (Pool.Live phases log) ->
    Pool.all_done phases ->
    Permutation log (flat_map extract_failure segments)).
  { intros phases log Hsteps Hdone.
    assert (Hok : log_ok phases log).
    { refine (steps_invariant _ _ log_ok _ _ _ Hsteps _ _ _ _ eq_refl eq_refl _).
      - intros ps sh ps' sh' HI Hstep. eapply log_ok_step; eauto.
      - split; [apply repeat_length|]. now rewrite lines_done_pending. }
    destruct Hok as [Hlen Hperm].
    now rewrite <- (lines_done_all phases segments Hdone Hlen). }
  split.
  - destruct (pool_completes (MaxWorkers a) (extract_worker w a segments) Hcap
                (repeat Pool.Pending (length segments)) [])
      as (final & Hsteps & [-> | (ps & sh & -> & Hdone)]).
    + apply steps_stay_live in Hsteps.
      * destruct Hsteps as (ps & sh & Heq). discriminate.
      * apply extract_worker_never_fatal.
    + exists sh. eapply Pool.run_return; [lia | exact Hsteps | exact Hdone].
  - intros o Hrun.
    destruct Hrun as [Hneg | phases log _ Hsteps Hdone | _ Hsteps | s _ Hsteps Hstuck].
    + lia.
    + exists log. split; [reflexivity | now apply Hret with phases].
    + exfalso. apply steps_stay_live in Hsteps.
      * destruct Hsteps as (ps & sh & Heq). discriminate.
      * apply extract_worker_never_fatal.
    + exfalso. exact (pool_not_stuck _ _ s Hcap Hstuck).
Qed.

(** [ExtractAudioSegments] returns an error only for the output directory. *)
Lemma ExtractAudioSegments_returns :
  (1 <= MaxWorkers a)%Z ->
  (exists o, ExtractAudioSegments w a segments o) /\
  forall o, ExtractAudioSegments w a segments o ->
    exists (err : option error) (log : list string),
      o = Return (err, log) /\
      match os_MkdirAll w (OutputDir a) with
      | Some e =>
          err = Some ("failed to create output directory: " +++ e) /\ log = []
      | None =>
          err = None /\ Permutation log (flat_map extract_failure segments)
      end.
Proof.
  intros Hcap. destruct (extract_pool_returns Hcap) as [[log0 Hlog0] Honly].
  split.
  - destruct (os_MkdirAll w (OutputDir a)) as [e|] eqn:E.
    + eexists. eapply Extract_mkdir_fails. exact E.
    + eexists. apply Extract_returns; eauto.
  - intros o H. destruct H as [e He | log He Hrun | He Hrun].
    + exists (Some ("failed to create output directory: " +++ e)), [].
      rewrite He. auto.
    + destruct (Honly _ Hrun) as (log' & Heq & Hperm). injection Heq as <-.
      exists None, log. rewrite He. auto.
    + destruct (Honly _ Hrun) as (log' & Heq & _). discriminate.
Qed.

End ExtractFacts.

(** ** The outcomes of [ProcessWithCpp] *)

Section ProcessFacts.

Context {lib : GoLib}.
Variable w : World.
Variable a : AudioAnalyzer.
Variable segments : list AudioSegment.

Lemma ProcessWithCpp_returns :
  (1 <= MaxWorkers a)%Z ->
  os_Stat_IsNotExist w exePath = false ->
  let results := sort_Slice by_start_time (map (transcribed w) segments) in
  ProcessWithCpp w a segments (Return (results, None)) /\
  forall o, ProcessWithCpp w a segments o -> o = Return (results, None).
Proof.
  intros Hcap Hexe results.
  destruct (dispatch_returns w a segments Hcap Hexe) as [Hrun Honly].
  split.
  - now apply Process_returns.
  - intros o H. destruct H as [results0 H | H | H]; apply Honly in H;
      try discriminate.
    injection H as ->. reflexivity.
Qed.

Lemma ProcessWithCpp_exits :
  (1 <= MaxWorkers a)%Z ->
  os_Stat_IsNotExist w exePath = true ->
  segments <> [] ->
  ProcessWithCpp w a segments Exit /\
  forall o, ProcessWithCpp w a segments o -> o = Exit.
Proof.
  intros Hcap Hexe Hne.
  assert (Hjobs : (1 <= length segments)%nat).
  { destruct segments; [contradiction | simpl; lia]. }
  assert (Hfatal : forall i sh, (i < length segments)%nat ->
                     process_worker w segments i sh = None).
  { intros i sh Hi. unfold process_worker.
    destruct (lookup_lt_is_Some_2 segments i Hi) as [seg ->].
    now rewrite transcribeCpp_exits. }
  destruct (run_all_fatal (MaxWorkers a) (process_worker w segments)
              (length segments)
              (repeat zero_TranscriptionResult (length segments))
              Hcap Hjobs Hfatal) as [Hrun Honly].
  split.
  - now apply Process_exits.
  - intros o H. destruct H as [results0 H | H | H]; apply Honly in H;
      try discriminate. reflexivity.
Qed.

End ProcessFacts.

Lemma sorted_by_start_time (results : list TranscriptionResult) :
  StronglySorted (fun x y => by_start_time y x = false) results ->
  StronglySorted
    (fun x y => StartTime (Segment x) <= StartTime (Segment y)) results.
Proof.
  induction 1 as [|x l Hl IH Hx]; constructor; [exact IH|].
  rewrite Forall_forall in Hx |- *. intros y Hy.
  apply (Qlt_bool_false (StartTime (Segment y)) (StartTime (Segment x))).
  now apply Hx.
Qed.


(** A plan in ascending order of start time, no two starts equal. *)
Definition ascending_starts (plan : list AudioSegment) : Prop :=
  StronglySorted (fun s t => StartTime s < StartTime t) plan.

Lemma chain_ascending (P : AudioSegment -> Prop) lo l hi :
  chain P lo l hi -> ascending_starts l.
Proof.
  induction 1 as [lo hi H | lo s l hi Hs Hlt HP H IH]; constructor; [exact IH|].
  rewrite Forall_forall. intros t Ht. apply list_elem_of_In in Ht.
  destruct (chain_In _ _ _ _ _ H Ht) as (_ & Hlo & _). lra.
Qed.

(** The planner's plans are in ascending order. *)
Lemma plan_segments_ascending `{lib : GoLib} (a : AudioAnalyzer)
    (silencePoints : list float64) (totalDuration : float64) :
  0 < MaxSegmentDuration a ->
  ascending_starts (plan_segments a silencePoints totalDuration).
Proof.
  intros Hmax.
  destruct (plan_segments_chain a Hmax silencePoints totalDuration) as [hi H].
  now apply chain_ascending in H.
Qed.

Lemma transcribed_ascending `{lib : GoLib} (w : World) (plan : list AudioSegment) :
  os_Stat_IsNotExist w exePath = false ->
  ascending_starts plan ->
  StronglySorted
    (fun x y => StartTime (Segment x) < StartTime (Segment y))
    (map (transcribed w) plan).
Proof.
  intros Hexe Hasc. unfold ascending_starts in Hasc.
  induction Hasc as [|s l Hl IH Hs]; simpl; constructor; [exact IH|].
  apply Forall_forall. intros r Hr.
  apply list_elem_of_In, in_map_iff in Hr. destruct Hr as (t & <- & Ht).
  rewrite !transcribed_Segment by exact Hexe.
  apply (proj1 (Forall_forall _ _) Hs). now apply list_elem_of_In.
Qed.

(** Counterexample to C3 as stated: a plan of two segments, the later one
    first. ProcessWithCpp returns two results sorted by start time, so slot 0
    of the returned collection refers to plan[1] and slot 1 to plan[0]. *)
Lemma C3_counterexample_unsorted_plan :
  let later := createSegment (lib := example_lib) example_analyzer 10 20 0 in
  let earlier := createSegment (lib := example_lib) example_analyzer 0 10 1 in
  let plan := [later; earlier] in
  (exists results,
     ProcessWithCpp (lib := example_lib) example_world example_analyzer plan
       (Return (results, None))) /\
  forall o,
    ProcessWithCpp (lib := example_lib) example_world example_analyzer plan o ->
    exists results,
      o = Return (results, None) /\
      map Segment results = [earlier; later].
Proof.
  intros later earlier plan.
  destruct (ProcessWithCpp_returns (lib := example_lib) example_world
              example_analyzer plan) as [Hrun Honly];
    [discriminate | reflexivity |].
  split; [eauto|].
  intros o Ho. apply Honly in Ho.
  eexists. split; [exact Ho | reflexivity].
Qed.

(** C3 (amended): with a worker and main.exe in place, and for every plan:
    whatever the order in which the goroutines complete, the slice of results
    has the length of the plan and its slot i holds the result of plan[i]
    when the wait for the goroutines returns; ProcessWithCpp returns, always
    a collection of the length of the plan, and for a plan in ascending order
    of start time, as the planner's are, slot i of the returned collection
    refers to the segment plan[i]. *)
Theorem C3_results_follow_plan `{lib : GoLib} (w : World) (a : AudioAnalyzer)
    (plan : list AudioSegment) :
  (1 <= MaxWorkers a)%Z ->
  os_Stat_IsNotExist w exePath = false ->
  sort_Slice_contract lib ->
  ((exists results, dispatch w a plan (Return results)) /\
   forall o, dispatch w a plan o ->
     exists results, o = Return results /\ length results = length plan /\
       forall (i : nat) (r : TranscriptionResult),
         results !! i = Some r -> plan !! i = Some (Segment r)) /\
  ((exists results, ProcessWithCpp w a plan (Return (results, None))) /\
   forall o, ProcessWithCpp w a plan o ->
     exists results, o = Return (results, None) /\
       length results = length plan /\
       (ascending_starts plan ->
        forall (i : nat) (r : TranscriptionResult),
          results !! i = Some r -> plan !! i = Some (Segment r))).
Proof.
  intros Hcap Hexe Hsort.
  assert (Hslots : forall (i : nat) (r : TranscriptionResult),
            map (transcribed w) plan !! i = Some r ->
            plan !! i = Some (Segment r)).
  { intros i r. rewrite lookup_map.
    destruct (plan !! i) as [seg|]; simpl; [|discriminate].
    intros H. injection H as <-. now rewrite transcribed_Segment. }
  destruct (dispatch_returns w a plan Hcap Hexe) as [Hrun Honly].
  destruct (ProcessWithCpp_returns w a plan Hcap Hexe) as [Hprun Hponly].
  destruct (Hsort by_start_time by_start_time_ordering
              (map (transcribed w) plan)) as [Hperm Hsorted].
  split_and!.
  - eauto.
  - intros o Ho. exists (map (transcribed w) plan).
    split; [now apply Honly|]. split; [apply length_map | exact Hslots].
  - eauto.
  - intros o Ho. eexists. split; [now apply Hponly|]. split.
    + rewrite <- (Permutation_length Hperm). apply length_map.
    + intros Hasc.
      rewrite (sorted_arrangement_unique
                 (fun r => StartTime (Segment r)) (map (transcribed w) plan)
                 (transcribed_ascending w plan Hexe Hasc)
                 _ (sorted_by_start_time _ Hsorted) Hperm).
      exact Hslots.
Qed.

Lemma example_lib_contract : sort_Slice_contract example_lib.
Proof. intros less Hless results. now apply insertion_sort_contract. Qed.


Lemma C3_results_follow_plan_witness :
  let plan := fst (CreateSegments (lib := example_lib) example_world
                     example_analyzer) in
  length plan = 3%nat /\
  forall o, ProcessWithCpp (lib := example_lib) example_world example_analyzer
              plan o ->
    exists results, o = Return (results, None) /\
      length results = length plan /\
      forall (i : nat) (r : TranscriptionResult),
        results !! i = Some r -> plan !! i = Some (Segment r).
Proof.
  intros plan. split; [reflexivity|].
  assert (Hcap : (1 <= MaxWorkers example_analyzer)%Z) by discriminate.
  assert (Hexe : os_Stat_IsNotExist example_world exePath = false) by reflexivity.
  destruct (C3_results_follow_plan (lib := example_lib) example_world
              example_analyzer plan Hcap Hexe example_lib_contract)
    as [_ [_ Hall]].
  intros o Ho. destruct (Hall o Ho) as (results & Heq & Hlen & Hslots).
  exists results. split; [exact Heq|]. split; [exact Hlen|].
  apply Hslots.
  apply (plan_segments_ascending (lib := example_lib) example_analyzer).
  reflexivity.
Defined.




(** ** What a result says about the engine *)

Section EngineFacts.

Context {lib : GoLib}.
Variable w : World.

(** The answer of whisper-cli to the command that [transcribeCpp] builds for
    a segment. *)
Definition engine_answer (segment : AudioSegment) : returned string :=
  let filepath := FilePath segment in
  let '(seconds, _) := GetAudioDuration w filepath in
  let secondsStr := Fmt.f 0 (seconds * 1000) in
  exec_CombinedOutput w whisper_cli (whisper_arguments filepath secondsStr).

Lemma transcribeCpp_engine (segment : AudioSegment) :
  os_Stat_IsNotExist w exePath = false ->
  transcribeCpp w segment =
  match engine_answer segment with
  | (output, Some err) =>
      Return ("", Some ("C++ whisper transcription failed: " +++ err +++
                        newline +++ output))
  | (output, None) => Return (Strings.TrimSpace output, None)
  end.
Proof.
  intros H. unfold transcribeCpp, engine_answer. rewrite H.
  now destruct (GetAudioDuration w (FilePath segment)) as [seconds e].
Qed.

(** The result of a segment: its error holds the failure of the engine, or
    its text holds what the engine printed. *)
Lemma transcribed_engine (segment : AudioSegment) :
  os_Stat_IsNotExist w exePath = false ->
  Segment (transcribed w segment) = segment /\
  match engine_answer segment with
  | (output, Some err) =>
      Error (transcribed w segment) =
        "C++ whisper transcription failed: " +++ err +++ newline +++ output /\
      Error (transcribed w segment) <> "" /\
      Text (transcribed w segment) = ""
  | (output, None) =>
      Error (transcribed w segment) = "" /\
      Text (transcribed w segment) = Strings.TrimSpace output
  end.
Proof.
  intros H. split; [now apply transcribed_Segment|].
  unfold transcribed. rewrite (transcribeCpp_engine segment H).
  destruct (engine_answer segment) as [output [err|]]; simpl.
  - split_and!; [reflexivity | discriminate | reflexivity].
  - split; reflexivity.
Qed.

End EngineFacts.

(** C7 (amended): when main.exe is in place, a failure of the invocation of
    whisper-cli for a segment, a nonzero exit or a binary that cannot be
    started, is captured in the error of that segment's result, with an empty
    text, and aborts nothing: ProcessWithCpp returns, whatever the order of
    the goroutines, one result for each segment of the plan, and the result of
    a segment is decided by the invocation for that segment alone. *)
Theorem C7_engine_failure_is_captured `{lib : GoLib} (w : World)
    (a : AudioAnalyzer) (plan : list AudioSegment) :
  (1 <= MaxWorkers a)%Z ->
  os_Stat_IsNotExist w exePath = false ->
  sort_Slice_contract lib ->
  (exists results, ProcessWithCpp w a plan (Return (results, None))) /\
  (forall o, ProcessWithCpp w a plan o ->
     exists results,
       o = Return (results, None) /\
       Permutation (map (transcribed w) plan) results) /\
  (forall segment : AudioSegment,
     Segment (transcribed w segment) = segment /\
     match engine_answer w segment with
     | (output, Some err) =>
         Error (transcribed w segment) =
           "C++ whisper transcription failed: " +++ err +++ newline +++ output /\
         Error (transcribed w segment) <> "" /\
         Text (transcribed w segment) = ""
     | (output, None) =>
         Error (transcribed w segment) = "" /\
         Text (transcribed w segment) = Strings.TrimSpace output
     end).
Proof.
  intros Hcap Hexe Hsort.
  destruct (ProcessWithCpp_returns w a plan Hcap Hexe) as [Hrun Honly].
  split_and!.
  - eauto.
  - intros o Ho. eexists. split; [now apply Honly|].
    apply (Hsort by_start_time by_start_time_ordering).
  - intros segment. now apply transcribed_engine.
Qed.

Lemma C7_engine_failure_is_captured_witness :
  let w := failing_engine_world in
  let plan := fst (CreateSegments (lib := example_lib) w example_analyzer) in
  let second := createSegment (lib := example_lib) example_analyzer
                  (25 # 2) 45 1 in
  plan !! 1%nat = Some second /\
  (exists results,
     ProcessWithCpp (lib := example_lib) w example_analyzer plan
       (Return (results, None))) /\
  Error (transcribed (lib := example_lib) w second) <> "" /\
  Text (transcribed (lib := example_lib) w second) = "".
Proof.
  intros w plan second.
  assert (Hcap : (1 <= MaxWorkers example_analyzer)%Z) by discriminate.
  assert (Hexe : os_Stat_IsNotExist w exePath = false) by reflexivity.
  destruct (C7_engine_failure_is_captured (lib := example_lib) w
              example_analyzer plan Hcap Hexe example_lib_contract)
    as (Hex & _ & Hseg).
  split; [reflexivity|]. split; [exact Hex|].
  destruct (Hseg second) as [_ Hanswer].
  change (engine_answer (lib := example_lib) w second)
    with ("error: failed to read audio file", Some "exit status 1") in Hanswer.
  destruct Hanswer as (_ & Herr & Htext). split; assumption.
Defined.

(** ** The outcomes of [Run] *)

Section RunFacts.

Context {lib : GoLib}.
Variable w : World.
Variable a : AudioAnalyzer.
Variable plan : list AudioSegment.

Hypothesis workers : (1 <= MaxWorkers a)%Z.
Hypothesis planned : CreateSegments w a = (plan, None).
Hypothesis directory : os_MkdirAll w (OutputDir a) = None.

Lemma extraction_returns_nil o :
  ExtractAudioSegments w a plan o -> exists log, o = Return (None, log).
Proof.
  intros H.
  destruct (proj2 (ExtractAudioSegments_returns w a plan workers) o H)
    as (err & log & -> & Hcase).
  rewrite directory in Hcase. destruct Hcase as [-> _]. eauto.
Qed.

(** Without main.exe the run ends in [log.Fatal]. *)
Lemma Run_exits_without_main_exe :
  os_Stat_IsNotExist w exePath = true -> plan <> [] ->
  Run w a Exit /\ forall o, Run w a o -> o = Exit.
Proof.
  intros Hexe Hne.
  destruct (ProcessWithCpp_exits w a plan workers Hexe Hne) as [Hrun Honly].
  split.
  - destruct (proj1 (ExtractAudioSegments_returns w a plan workers)) as [o Ho].
    destruct (extraction_returns_nil o Ho) as [log ->].
    eapply Run_exits; eauto.
  - intros o H.
    destruct H as [p e Hc | s e l Hc He | s Hc He | s l Hc He Hp
                  | s l Hc He Hp | s l r e Hc He Hp | s l r e Hc He Hp Ho
                  | s l r Hc He Hp Ho];
      rewrite planned in Hc; try discriminate; injection Hc as <-;
      try (apply extraction_returns_nil in He; destruct He as [l' He];
           discriminate);
      try (apply Honly in Hp; discriminate).
    reflexivity.
Qed.

(** With main.exe and a report that can be written the run completes,
    whatever the extractions and the engine did. *)
Lemma Run_completes_with_main_exe :
  os_Stat_IsNotExist w exePath = false ->
  output_error
    (OutputResults w a (sort_Slice by_start_time (map (transcribed w) plan))) =
    None ->
  Run w a (Return None) /\ forall o, Run w a o -> o = Return None.
Proof.
  intros Hexe Hout.
  destruct (ProcessWithCpp_returns w a plan workers Hexe) as [Hrun Honly].
  split.
  - destruct (proj1 (ExtractAudioSegments_returns w a plan workers)) as [o Ho].
    destruct (extraction_returns_nil o Ho) as [log ->].
    eapply Run_completes; eauto.
  - intros o H.
    destruct H as [p e Hc | s e l Hc He | s Hc He | s l Hc He Hp
                  | s l Hc He Hp | s l r e Hc He Hp | s l r e Hc He Hp Ho
                  | s l r Hc He Hp Ho];
      rewrite planned in Hc; try discriminate; injection Hc as <-;
      try (apply extraction_returns_nil in He; destruct He as [l' He];
           discriminate);
      try (apply Honly in Hp; discriminate).
    + apply Honly in Hp. injection Hp as ->. congruence.
    + reflexivity.
Qed.

End RunFacts.

(** Counterexample to C7 as stated: in a world without the binaries of the
    engine, ProcessWithCpp on the three segments of the plan never returns:
    the first goroutine to run ends the process in log.Fatal, and with it the
    run as a whole. *)
Lemma C7_counterexample_missing_engine :
  let w := no_engine_world in
  let plan := fst (CreateSegments (lib := example_lib) w example_analyzer) in
  length plan = 3%nat /\
  (ProcessWithCpp (lib := example_lib) w example_analyzer plan Exit /\
   forall o,
     ProcessWithCpp (lib := example_lib) w example_analyzer plan o -> o = Exit) /\
  (Run (lib := example_lib) w example_analyzer Exit /\
   forall o, Run (lib := example_lib) w example_analyzer o -> o = Exit).
Proof.
  intros w plan. split; [reflexivity|]. split.
  - apply ProcessWithCpp_exits; [discriminate | reflexivity | discriminate].
  - apply (Run_exits_without_main_exe (lib := example_lib) w example_analyzer plan);
      try reflexivity; discriminate.
Qed.

(** Counterexample to C8 as stated: every extraction fails and is logged,
    the output directory holds the files of an earlier run, and the three
    results come back with an empty error and the text of the stale files. *)
Lemma C8_counterexample_stale_files :
  let w := stale_files_world in
  let plan := fst (CreateSegments (lib := example_lib) w example_analyzer) in
  map (extractSingleSegment w example_analyzer) plan =
    [Some "ffmpeg extraction failed: exit status 1";
     Some "ffmpeg extraction failed: exit status 1";
     Some "ffmpeg extraction failed: exit status 1"] /\
  forall o,
    ProcessWithCpp (lib := example_lib) w example_analyzer plan o ->
    exists results,
      o = Return (results, None) /\
      map (fun r => (Filename (Segment r), Text r, Error r)) results =
        [("segment_000_0.0-12.5.wav", "words of the earlier run", "");
         ("segment_001_12.5-45.0.wav", "words of the earlier run", "");
         ("segment_002_45.0-100.0.wav", "words of the earlier run", "")].
Proof.
  intros w plan. split; [reflexivity|].
  intros o Ho.
  apply (ProcessWithCpp_returns (lib := example_lib) w example_analyzer plan)
    in Ho; [| discriminate | reflexivity].
  eexists. split; [exact Ho | reflexivity].
Qed.

(** C8 (amended): a failed extraction is logged and aborts neither the other
    extractions nor the run: ExtractAudioSegments returns, with a non-nil
    error only when the output directory cannot be created, and otherwise
    with one logged line for each failed extraction; when main.exe is in
    place ProcessWithCpp then returns a result for every segment of the plan,
    and the run completes when its report can be written. The result of a
    segment has a non-empty error and an empty text exactly when the
    invocation of the engine on its file fails, whether its extraction
    succeeded or not. *)
Theorem C8_extraction_failures_are_local `{lib : GoLib} (w : World)
    (a : AudioAnalyzer) (plan : list AudioSegment) :
  (1 <= MaxWorkers a)%Z ->
  os_Stat_IsNotExist w exePath = false ->
  sort_Slice_contract lib ->
  ((exists o, ExtractAudioSegments w a plan o) /\
   forall o, ExtractAudioSegments w a plan o ->
     exists (err : option error) (log : list string),
       o = Return (err, log) /\
       match os_MkdirAll w (OutputDir a) with
       | Some e =>
           err = Some ("failed to create output directory: " +++ e) /\ log = []
       | None =>
           err = None /\ Permutation log (flat_map (extract_failure w a) plan)
       end) /\
  ((exists results, ProcessWithCpp w a plan (Return (results, None))) /\
   forall o, ProcessWithCpp w a plan o ->
     exists results,
       o = Return (results, None) /\
       Permutation (map (transcribed w) plan) results) /\
  (forall segment : AudioSegment,
     (Error (transcribed w segment) <> "" /\ Text (transcribed w segment) = "")
     <-> exists err, snd (engine_answer w segment) = Some err) /\
  (CreateSegments w a = (plan, None) ->
   os_MkdirAll w (OutputDir a) = None ->
   output_error
     (OutputResults w a (sort_Slice by_start_time (map (transcribed w) plan))) =
     None ->
   Run w a (Return None) /\ forall o, Run w a o -> o = Return None).
Proof.
  intros Hcap Hexe Hsort.
  destruct (ProcessWithCpp_returns w a plan Hcap Hexe) as [Hrun Honly].
  split_and!.
  - apply (ExtractAudioSegments_returns w a plan Hcap).
  - apply (ExtractAudioSegments_returns w a plan Hcap).
  - eauto.
  - intros o Ho. eexists. split; [now apply Honly|].
    apply (Hsort by_start_time by_start_time_ordering).
  - intros segment.
    destruct (transcribed_engine w segment Hexe) as [_ Hanswer].
    destruct (engine_answer w segment) as [output [err|]]; simpl.
    + destruct Hanswer as (_ & Herr & Htext). split; eauto.
    + destruct Hanswer as [Herr Htext]. split.
      * intros [Hne _]. contradiction.
      * intros [err Herr']. discriminate.
  - intros Hplan Hdir Hout.
    now apply (Run_completes_with_main_exe w a plan).
Qed.

Lemma C8_extraction_failures_are_local_witness :
  let w := stale_files_world in
  let plan := fst (CreateSegments (lib := example_lib) w example_analyzer) in
  length plan = 3%nat /\
  (forall o, ExtractAudioSegments w example_analyzer plan o ->
     exists log, o = Return (None, log) /\ length log = 3%nat) /\
  Run (lib := example_lib) w example_analyzer (Return None).
Proof.
  intros w plan.
  assert (Hcap : (1 <= MaxWorkers example_analyzer)%Z) by discriminate.
  assert (Hexe : os_Stat_IsNotExist w exePath = false) by reflexivity.
  destruct (C8_extraction_failures_are_local (lib := example_lib) w
              example_analyzer plan Hcap Hexe example_lib_contract)
    as ((_ & Hextract) & _ & _ & Hrun).
  split; [reflexivity|]. split.
  - intros o Ho. destruct (Hextract o Ho) as (err & log & -> & Hcase).
    change (os_MkdirAll w (OutputDir example_analyzer)) with (@None error)
      in Hcase.
    destruct Hcase as [-> Hperm]. exists log. split; [reflexivity|].
    now rewrite (Permutation_length Hperm).
  - apply Hrun; reflexivity.
Defined.

(** ** The text report *)

(** The strings of a list, one after the other. *)
Definition join (l : list string) : string := fold_right String.append "" l.

(** [s] holds the byte [c]. *)
Fixpoint has_byte (c : ascii) (s : string) : bool :=
  match s with
  | EmptyString => false
  | String d rest => Ascii.eqb c d || has_byte c rest
  end.

(** A string without a line feed. *)
Definition one_line (s : string) : Prop := has_byte (ascii_of_N 10) s = false.

Lemma has_byte_app (c : ascii) (s t : string) :
  has_byte c (s +++ t) = has_byte c s || has_byte c t.
Proof.
  induction s as [|d s IH]; simpl; [reflexivity|].
  now rewrite IH, orb_assoc.
Qed.

Lemma one_line_app (s t : string) : one_line s -> one_line t -> one_line (s +++ t).
Proof. unfold one_line. intros Hs Ht. now rewrite has_byte_app, Hs, Ht. Qed.

Lemma digit_char_not_newline (d : N) :
  (d < 10)%N -> Ascii.eqb (ascii_of_N 10) (Fmt.digit_char d) = false.
Proof.
  intros Hd. apply Ascii.eqb_neq. unfold Fmt.digit_char. intros H.
  apply (f_equal N_of_ascii) in H.
  rewrite !N_ascii_embedding in H by lia. lia.
Qed.

Lemma digits_fuel_one_line (fuel : nat) : forall (n : N) (acc : string),
  one_line acc -> one_line (Fmt.digits_fuel fuel n acc).
Proof.
  induction fuel as [|fuel IH]; intros n acc Hacc; simpl; [exact Hacc|].
  assert (Hacc' : one_line (String (Fmt.digit_char (n mod 10)) acc)).
  { unfold one_line. cbn [has_byte]. rewrite digit_char_not_newline.
    - exact Hacc.
    - apply N.mod_lt. discriminate. }
  destruct (n / 10 =? 0)%N; [exact Hacc' | now apply IH].
Qed.

Lemma itoa_one_line (n : N) : one_line (Fmt.itoa n).
Proof. apply digits_fuel_one_line. reflexivity. Qed.

Lemma zeros_one_line (k : nat) : one_line (Fmt.zeros k).
Proof. induction k as [|k IH]; [reflexivity | exact IH]. Qed.

Lemma pad_zero_one_line (width : nat) (s : string) :
  one_line s -> one_line (Fmt.pad_zero width s).
Proof. intros H. apply one_line_app; [apply zeros_one_line | exact H]. Qed.

(** A number printed by the verb [%.<prec>f] holds no line feed. *)
Lemma f_one_line (prec : nat) (x : float64) : one_line (Fmt.f prec x).
Proof.
  unfold Fmt.f.
  assert (Hsign : one_line (if Qlt_bool x 0 then "-" else ""))
    by (destruct (Qlt_bool x 0); reflexivity).
  destruct prec as [|prec].
  - apply one_line_app; [exact Hsign | apply itoa_one_line].
  - apply one_line_app; [exact Hsign|].
    apply one_line_app; [apply itoa_one_line|].
    apply one_line_app; [reflexivity|].
    apply pad_zero_one_line, itoa_one_line.
Qed.

Lemma HasPrefix_newline (c : ascii) (s : string) :
  Strings.HasPrefix (String c s) newline = Ascii.eqb (ascii_of_N 10) c.
Proof. unfold newline. simpl. now rewrite andb_true_r. Qed.

(** Splitting at line feeds a line followed by a line feed and more text. *)
Lemma split_from_line (s rest cur : string) :
  one_line s ->
  Strings.split_from newline (s +++ newline +++ rest) 0 cur =
  (cur +++ s) :: Strings.split_from newline rest 0 "".
Proof.
  revert cur. induction s as [|c s IH]; intros cur Hs.
  - rewrite string_app_nil_r. reflexivity.
  - unfold one_line in Hs. cbn [has_byte] in Hs. apply orb_false_iff in Hs.
    destruct Hs as [Hc Hs].
    change (String c s +++ newline +++ rest)
      with (String c (s +++ newline +++ rest)).
    cbn [Strings.split_from]. rewrite HasPrefix_newline, Hc.
    rewrite (IH _ Hs). now rewrite string_app_assoc.
Qed.

(** A text made of lines, each closed by a line feed, splits into its lines
    and a last empty piece. *)
Lemma Split_lines (lines : list string) :
  Forall one_line lines ->
  Strings.Split (join (map (fun l => l +++ newline) lines)) newline =
  lines ++ [""].
Proof.
  intros H. unfold Strings.Split. cbn [newline].
  change (String (ascii_of_N 10) "") with newline.
  induction H as [|l lines Hl Hlines IH]; [reflexivity|].
  cbn [map join fold_right]. fold (join (map (fun l => l +++ newline) lines)).
  rewrite string_app_assoc, (split_from_line l _ "" Hl). simpl.
  now rewrite IH.
Qed.

Lemma fold_left_append {A : Type} (f : A -> string) (l : list A) (acc : string) :
  fold_left (fun text x => text +++ f x) l acc = acc +++ join (map f l).
Proof.
  revert acc. induction l as [|x l IH]; intros acc; simpl.
  - now rewrite string_app_nil_r.
  - now rewrite IH, string_app_assoc.
Qed.

Section ReportFacts.

Context {lib : GoLib}.

(** A record of the report as the description has it, without the line feed
    that closes it: the interval with one decimal, then the text of a success
    or [ERROR:] and the message of a failure. *)
Definition described_record (result : TranscriptionResult) : string :=
  "[" +++ Fmt.f 1 (StartTime (Segment result)) +++ "s-" +++
  Fmt.f 1 (EndTime (Segment result)) +++ "s] " +++
  (if String.eqb (Error result) "" then Text result
   else "ERROR: " +++ Error result).

Lemma report_line_described (result : TranscriptionResult) :
  report_line result = described_record result +++ newline.
Proof.
  unfold report_line, described_record.
  destruct (String.eqb (Error result) ""); cbn [negb];
    rewrite !string_app_assoc; reflexivity.
Qed.

Lemma console_entry_failure (result : TranscriptionResult) :
  Error result <> "" ->
  console_entry result = described_record result +++ newline.
Proof.
  intros H. rewrite <- report_line_described.
  unfold console_entry, report_line.
  apply String.eqb_neq in H. now rewrite H.
Qed.

Lemma described_record_one_line (result : TranscriptionResult) :
  one_line (Text result) -> one_line (Error result) ->
  one_line (described_record result).
Proof.
  intros Ht He. unfold described_record.
  repeat (apply one_line_app;
          [first [reflexivity | apply f_one_line] |]).
  destruct (String.eqb (Error result) ""); [exact Ht|].
  apply one_line_app; [reflexivity | exact He].
Qed.

Lemma report_text_described (results : list TranscriptionResult) :
  report_text results =
  BOM +++ join (map (fun r => described_record r +++ newline) results).
Proof.
  unfold report_text. rewrite fold_left_append. f_equal. f_equal.
  apply map_ext. intros r. apply report_line_described.
Qed.

End ReportFacts.

(** Counterexample to C9 as stated: the three results that ProcessWithCpp
    returns when the engine fails on the second segment. The report has four
    lines for three results, the message of the failure holding a line feed
    as every message of transcribeCpp does, and the console shows the texts
    of the two successes without their intervals and without line feeds, so
    it does not echo the report. *)
Lemma C9_counterexample_lines_and_console :
  let w := failing_engine_world in
  let plan := fst (CreateSegments (lib := example_lib) w example_analyzer) in
  let results := sort_Slice (GoLib := example_lib) by_start_time
                   (map (transcribed (lib := example_lib) w) plan) in
  let out := OutputResults (lib := example_lib) w example_analyzer results in
  length results = 3%nat /\
  files_written out =
    [("out/transcription_results.json", "[]");
     ("out/transcription_results.txt",
      BOM +++
      "[0.0s-12.5s] spoken words" +++ newline +++
      "[12.5s-45.0s] ERROR: C++ whisper transcription failed: exit status 1" +++
      newline +++
      "error: failed to read audio file" +++ newline +++
      "[45.0s-100.0s] spoken words" +++ newline)] /\
  console out =
    newline +++ "=== Transcription Results ===" +++ newline +++
    "spoken words" +++
    "[12.5s-45.0s] ERROR: C++ whisper transcription failed: exit status 1" +++
    newline +++
    "error: failed to read audio file" +++ newline +++
    "spoken words".
Proof. vm_compute. repeat split; reflexivity. Qed.

(** C9 (amended): when the two files can be written, OutputResults writes a
    text file that is the UTF-8 byte-order mark followed by exactly one
    record per result, in the order of the collection, which is chronological
    for the collection that ProcessWithCpp returns; a record is
    "[start s-end s] text" for a success and "[start s-end s] ERROR: message"
    for a failure, closed by a line feed, with the text or message in full;
    when no text and no message holds a line feed the records are exactly the
    lines of the file. The console gets a header and one entry per result,
    which for a failure is the record of the report. *)
Theorem C9_report_one_record_per_result `{lib : GoLib} (w : World)
    (a : AudioAnalyzer) (results : list TranscriptionResult)
    (jsonData : string) :
  json_MarshalIndent results = inr jsonData ->
  os_WriteFile w (filepath_Join (OutputDir a) "transcription_results.json")
    jsonData = None ->
  os_WriteFile w (filepath_Join (OutputDir a) "transcription_results.txt")
    (report_text results) = None ->
  let out := OutputResults w a results in
  let body := join (map (fun r => described_record r +++ newline) results) in
  output_error out = None /\
  files_written out =
    [(filepath_Join (OutputDir a) "transcription_results.json", jsonData);
     (filepath_Join (OutputDir a) "transcription_results.txt", BOM +++ body)] /\
  (Forall (fun r => one_line (Text r) /\ one_line (Error r)) results ->
   Strings.Split body newline = map described_record results ++ [""]) /\
  console out =
    (newline +++ "=== Transcription Results ===" +++ newline) +++
    join (map console_entry results) /\
  (forall r, Error r <> "" ->
     console_entry r = described_record r +++ newline).
Proof.
  intros Hjson Hwj Hwt out body. unfold out, OutputResults.
  rewrite Hjson, Hwj, Hwt. cbn [output_error files_written console].
  split_and!.
  - reflexivity.
  - now rewrite report_text_described.
  - intros Hlines. unfold body. rewrite <- (Split_lines (map described_record results)).
    + now rewrite map_map.
    + rewrite Forall_forall in Hlines. apply Forall_forall. intros l Hl.
      apply list_elem_of_In, in_map_iff in Hl. destruct Hl as (r & <- & Hr).
      apply list_elem_of_In, Hlines in Hr.
      now apply described_record_one_line.
  - apply fold_left_append.
  - apply console_entry_failure.
Qed.

Lemma C9_report_one_record_per_result_witness :
  let w := example_world in
  let plan := fst (CreateSegments (lib := example_lib) w example_analyzer) in
  let results := sort_Slice (GoLib := example_lib) by_start_time
                   (map (transcribed (lib := example_lib) w) plan) in
  let out := OutputResults (lib := example_lib) w example_analyzer results in
  output_error out = None /\
  files_written out =
    [("out/transcription_results.json", "[]");
     ("out/transcription_results.txt",
      BOM +++
      "[0.0s-12.5s] spoken words" +++ newline +++
      "[12.5s-45.0s] spoken words" +++ newline +++
      "[45.0s-100.0s] spoken words" +++ newline)].
Proof.
  intros w plan results out.
  destruct (C9_report_one_record_per_result (lib := example_lib) w
              example_analyzer results "[]" eq_refl eq_refl eq_refl)
    as (Herr & Hfiles & _).
  split; [exact Herr|]. fold out in Hfiles. rewrite Hfiles. reflexivity.
Defined.

(** * Further properties of the pipeline *)

(** ** The planner: where a segment of the plan comes from *)

Lemma fold_left_ext_eq {A B : Type} (f g : A -> B -> A) (l : list B) :
  (forall acc x, f acc x = g acc x) ->
  forall acc, fold_left f l acc = fold_left g l acc.
Proof.
  intros H. induction l as [|x l IH]; intros acc; simpl; [reflexivity|].
  now rewrite H, IH.
Qed.

Lemma inject_Z_pred (k : Z) : inject_Z (k - 1) == inject_Z k - 1.
Proof. unfold Z.sub. rewrite inject_Z_plus. reflexivity. Qed.

Section PlanOrigins.

Context {lib : GoLib}.
Variable a : AudioAnalyzer.

(** A segment of the result of the bounding pass was in the result before,
    or is a short segment passed through, or is a sub-segment of a long
    one. *)
Lemma fold_split_body_In segments : forall result s,
  In s (fold_left (split_body a) segments result) ->
  In s result \/
  exists segment, In segment segments /\
    ((Duration segment <= MaxSegmentDuration a /\ s = segment) \/
     (MaxSegmentDuration a < Duration segment /\
      exists base, In s (pieces a segment base))).
Proof.
  induction segments as [|seg l IH]; intros result s H; simpl in H.
  - now left.
  - destruct (IH _ _ H) as [Hin | (segment & Hseg & Hcase)].
    + destruct (Qlt_le_dec (MaxSegmentDuration a) (Duration seg)) as [Hlong | Hshort].
      * rewrite split_body_long in Hin by exact Hlong.
        apply in_app_or in Hin. destruct Hin as [Hin | Hin]; [now left|].
        right. exists seg. split; [now left|]. right. split; [exact Hlong|].
        now exists (len result).
      * rewrite split_body_short in Hin by exact Hshort.
        apply in_app_or in Hin. destruct Hin as [Hin | [<- | []]]; [now left|].
        right. exists seg. split; [now left|]. left. now split.
    + right. exists segment. split; [now right | exact Hcase].
Qed.

(** The stored duration of every sub-segment of a long segment is the width
    of the split. *)
Lemma pieces_Duration segment base p :
  0 < MaxSegmentDuration a ->
  well_formed segment ->
  MaxSegmentDuration a < Duration segment ->
  In p (pieces a segment base) ->
  let n := (int_of_float64 (Duration segment / MaxSegmentDuration a) + 1)%Z in
  Duration p == Duration segment / float64_of_int n.
Proof.
  intros Hmax Hwf Hlong Hin n.
  destruct (splitDuration_bounds a Hmax segment Hwf Hlong) as (Hn & Hsd & _ & Hmul).
  fold n in Hn, Hsd, Hmul.
  apply list_elem_of_In, list_elem_of_lookup_1 in Hin. destruct Hin as [i Hi].
  apply pieces_lookup in Hi. fold n in Hi. destruct Hi as [Hi ->].
  unfold piece. simpl Duration.
  set (sd := Duration segment / float64_of_int n) in *.
  destruct (Z.of_nat i =? n - 1)%Z eqn:E.
  - apply Z.eqb_eq in E.
    assert (Hi1 : float64_of_int (Z.of_nat i) == inject_Z n - 1).
    { unfold float64_of_int. rewrite E. apply inject_Z_pred. }
    unfold well_formed in Hwf. rewrite Hi1. lra.
  - unfold float64_of_int. rewrite inject_Z_succ. ring.
Qed.

(** The width of a split is more than half the maximum and less than the
    maximum. *)
Lemma splitDuration_half (D M : float64) :
  0 < M -> M < D ->
  let n := (int_of_float64 (D / M) + 1)%Z in
  M / 2 < D / float64_of_int n /\ D / float64_of_int n < M.
Proof.
  intros HM HD. cbv zeta.
  pose proof (numSplits_bounds D M HM HD) as H. cbv zeta in H.
  set (n := (int_of_float64 (D / M) + 1)%Z) in *.
  destruct H as (Hn2 & _ & Hlo & Hhi).
  assert (Hnpos : 0 < inject_Z n).
  { change 0 with (inject_Z 0). rewrite <- Zlt_Qlt. lia. }
  rewrite inject_Z_pred in Hlo.
  unfold float64_of_int. split.
  - apply Qlt_shift_div_l; [exact Hnpos|].
    assert (E : M / 2 * inject_Z n ==
                (1 # 2) * ((inject_Z n - 1) * M) + (1 # 2) * M) by field.
    rewrite E. lra.
  - apply Qlt_shift_div_r; [exact Hnpos | lra].
Qed.



End PlanOrigins.





(** ** The planner: what the plan covers *)



Section WalkFacts.

Context {lib : GoLib}.
Variable a : AudioAnalyzer.






(** The bounding pass never shortens its result. *)
Lemma fold_split_body_length segments : forall result,
  0 < MaxSegmentDuration a ->
  (length result + length segments <=
   length (fold_left (split_body a) segments result))%nat.
Proof.
  induction segments as [|s l IH]; intros result Hmax; simpl; [lia|].
  etransitivity; [|apply IH; exact Hmax].
  destruct (Qlt_le_dec (MaxSegmentDuration a) (Duration s)) as [Hlong | Hshort].
  - rewrite split_body_long by exact Hlong.
    rewrite length_app, pieces_length.
    destruct (numSplits_bounds (Duration s) (MaxSegmentDuration a) Hmax Hlong)
      as (Hn & _).
    cbv zeta in Hn. lia.
  - rewrite split_body_short by exact Hshort. rewrite length_app. simpl. lia.
Qed.

End WalkFacts.





(** A silence point that is not later than the point just before it in the
    list, a duplicate or a step back, changes nothing in the plan. *)
Theorem plan_segments_ignores_step_back `{lib : GoLib} (a : AudioAnalyzer)
    (before after : list float64) (b b' : float64) (totalDuration : float64) :
  b' <= b ->
  plan_segments a (before ++ b :: b' :: after) totalDuration =
  plan_segments a (before ++ b :: after) totalDuration.
Proof.
  intros Hle. unfold plan_segments, raw_segments, walk.
  rewrite !fold_left_app. simpl.
  assert (E : walk_body a (walk_body a
                (fold_left (walk_body a) before ([], 0)) b) b' =
              walk_body a (fold_left (walk_body a) before ([], 0)) b).
  { destruct (fold_left (walk_body a) before ([], 0)) as [segments cs].
    unfold walk_body at 2 3.
    destruct (Qle_bool 10 (b - cs)) eqn:E1; unfold walk_body.
    - assert (E2 : Qle_bool 10 (b' - b) = false)
        by (apply Qle_bool_false; lra).
      now rewrite E2.
    - apply Qle_bool_false in E1.
      assert (E2 : Qle_bool 10 (b' - cs) = false)
        by (apply Qle_bool_false; lra).
      now rewrite E2. }
  now rewrite E.
Qed.

Lemma plan_segments_ignores_step_back_witness :
  let a := example_analyzer in
  12 <= 45 /\
  plan_segments (lib := example_lib) a ([30] ++ 45 :: 12 :: [200]) 300 =
  plan_segments (lib := example_lib) a ([30] ++ 45 :: [200]) 300.
Proof.
  intros a.
  assert (Hle : 12 <= 45) by discriminate.
  split; [exact Hle|].
  apply (plan_segments_ignores_step_back (lib := example_lib) a [30] [200]
           45 12 300 Hle).
Defined.

(** ** The planner: how the segments are numbered *)

Section Numbering.

Context {lib : GoLib}.
Variable a : AudioAnalyzer.

(** [named j p]: the segment [p] is the one that [createSegment] builds for
    its interval with the index [j]; its file name and its file path carry
    that index. *)
Definition named (j : nat) (p : AudioSegment) : Prop :=
  p = createSegment a (StartTime p) (EndTime p) (Z.of_nat j).

Lemma named_createSegment start end_ (j : nat) :
  named j (createSegment a start end_ (Z.of_nat j)).
Proof. reflexivity. Qed.

Lemma named_FilePath j p :
  named j p -> FilePath p = filepath_Join (OutputDir a) (Filename p).
Proof. intros H. rewrite H. reflexivity. Qed.

(** Every segment is named by its position. *)
Definition sequential (segments : list AudioSegment) : Prop :=
  forall (i : nat) (s : AudioSegment), segments !! i = Some s -> named i s.

Lemma sequential_snoc segments start end_ :
  sequential segments ->
  sequential (segments ++ [createSegment a start end_ (len segments)]).
Proof.
  intros H i s Hs. apply lookup_app_Some in Hs.
  destruct Hs as [Hs | [Hle Hs]]; [now apply H|].
  destruct (i - length segments)%nat as [|k] eqn:E; [|destruct k; discriminate].
  simpl in Hs. injection Hs as <-.
  replace i with (length segments) by lia. apply named_createSegment.
Qed.

Lemma walk_sequential silencePoints : forall segments currentStart,
  sequential segments ->
  sequential (fst (fold_left (walk_body a) silencePoints
                     (segments, currentStart))).
Proof.
  induction silencePoints as [|b bs IH]; intros segments cs H; simpl.
  - exact H.
  - destruct (Qle_bool 10 (b - cs)).
    + apply IH. now apply sequential_snoc.
    + now apply IH.
Qed.

Lemma raw_segments_sequential silencePoints totalDuration :
  sequential (raw_segments a silencePoints totalDuration).
Proof.
  unfold raw_segments, walk.
  assert (H0 : sequential []) by (intros i s Hs; destruct i; discriminate).
  pose proof (walk_sequential silencePoints [] 0 H0) as H.
  destruct (fold_left (walk_body a) silencePoints ([], 0)) as [segments cs].
  simpl in H.
  destruct (Qle_bool 10 (totalDuration - cs)); [|exact H].
  now apply sequential_snoc.
Qed.

(** What holds of the segment at position [k] of the result of the bounding
    pass over [raw]: it is named by its position, or it is a segment of
    [raw] that passed through and is named by the position [j] it had
    there. *)
Definition numbered (raw : list AudioSegment) (k : nat) (p : AudioSegment)
    : Prop :=
  exists j : nat,
    (j <= k)%nat /\ named j p /\
    (j = k \/ (Duration p <= MaxSegmentDuration a /\ raw !! j = Some p)).

Lemma fold_split_body_numbered raw :
  0 < MaxSegmentDuration a ->
  sequential raw ->
  forall segments done result,
    raw = done ++ segments ->
    (length done <= length result)%nat ->
    (forall k p, result !! k = Some p -> numbered raw k p) ->
    forall k p,
      fold_left (split_body a) segments result !! k = Some p ->
      numbered raw k p.
Proof.
  intros Hmax Hraw.
  induction segments as [|s l IH]; intros done result Hsplit Hlen Hres; simpl.
  - exact Hres.
  - assert (Hs : raw !! length done = Some s).
    { rewrite Hsplit. rewrite lookup_app_r by lia.
      now replace (length done - length done)%nat with 0%nat by lia. }
    apply (IH (done ++ [s])).
    + rewrite Hsplit, <- app_assoc. reflexivity.
    + rewrite length_app. simpl.
      pose proof (fold_split_body_length a [s] result Hmax) as H.
      simpl in H. lia.
    + intros k p Hp.
      destruct (Qlt_le_dec (MaxSegmentDuration a) (Duration s)) as [Hlong | Hshort].
      * rewrite split_body_long in Hp by exact Hlong.
        apply lookup_app_Some in Hp.
        destruct Hp as [Hp | [Hle Hp]]; [now apply Hres|].
        apply pieces_lookup in Hp. destruct Hp as [_ ->].
        exists k. split_and!; [lia | | now left].
        unfold named, piece. simpl. do 2 f_equal. unfold len. lia.
      * rewrite split_body_short in Hp by exact Hshort.
        apply lookup_app_Some in Hp.
        destruct Hp as [Hp | [Hle Hp]]; [now apply Hres|].
        destruct (k - length result)%nat as [|k'] eqn:E;
          [|destruct k'; discriminate].
        simpl in Hp. injection Hp as <-.
        exists (length done). split_and!; [lia | now apply Hraw |].
        right. now split.
Qed.

End Numbering.

(** How the plan is numbered. The segments that the walk closes carry their
    positions as indices. After the bounding pass, the segment at position k
    of the plan carries the index k, unless it is a segment of the walk that
    passed through: then it carries the position j <= k that it had before
    the pass. In every case the file path is the output directory joined
    with the file name. *)
Theorem plan_segments_numbering `{lib : GoLib} (a : AudioAnalyzer)
    (silencePoints : list float64) (totalDuration : float64) :
  0 < MaxSegmentDuration a ->
  (forall (i : nat) (s : AudioSegment),
      raw_segments a silencePoints totalDuration !! i = Some s ->
      s = createSegment a (StartTime s) (EndTime s) (Z.of_nat i)) /\
  (forall (k : nat) (p : AudioSegment),
      plan_segments a silencePoints totalDuration !! k = Some p ->
      FilePath p = filepath_Join (OutputDir a) (Filename p) /\
      exists j : nat,
        (j <= k)%nat /\
        p = createSegment a (StartTime p) (EndTime p) (Z.of_nat j) /\
        (j = k \/
         (Duration p <= MaxSegmentDuration a /\
          raw_segments a silencePoints totalDuration !! j = Some p))).
Proof.
  intros Hmax. split.
  - apply raw_segments_sequential.
  - intros k p Hp.
    assert (H : numbered a (raw_segments a silencePoints totalDuration) k p).
    { apply (fold_split_body_numbered a
               (raw_segments a silencePoints totalDuration) Hmax
               (raw_segments_sequential a silencePoints totalDuration)
               (raw_segments a silencePoints totalDuration) [] []).
      - reflexivity.
      - simpl. lia.
      - intros k' p' H'. destruct k'; discriminate.
      - exact Hp. }
    destruct H as (j & Hjk & Hnamed & Hcase).
    split; [now apply named_FilePath with j|].
    exists j. split_and!; assumption.
Qed.

Lemma plan_segments_numbering_witness :
  let a := example_analyzer in
  let p := createSegment (lib := example_lib) a 70 85 1 in
  0 < MaxSegmentDuration a /\
  plan_segments (lib := example_lib) a [70] 85 !! 2%nat = Some p /\
  FilePath p = "out/segment_001_70.0-85.0.wav".
Proof.
  intros a p.
  assert (Hmax : 0 < MaxSegmentDuration a) by reflexivity.
  assert (Hp : plan_segments (lib := example_lib) a [70] 85 !! 2%nat = Some p)
    by reflexivity.
  split; [exact Hmax|]. split; [exact Hp|].
  destruct (plan_segments_numbering (lib := example_lib) a [70] 85 Hmax)
    as [_ H].
  destruct (H 2%nat p Hp) as [Hpath _].
  rewrite Hpath. reflexivity.
Defined.

(** ** The planner: what it reads of the configuration *)

Section PlanConfiguration.

Context {lib : GoLib}.
Variables a a' : AudioAnalyzer.
Hypothesis same_dir : OutputDir a = OutputDir a'.
Hypothesis same_max : MaxSegmentDuration a = MaxSegmentDuration a'.

Lemma createSegment_configuration start end_ index :
  createSegment a start end_ index = createSegment a' start end_ index.
Proof. unfold createSegment. now rewrite same_dir. Qed.

Lemma split_body_configuration result segment :
  split_body a result segment = split_body a' result segment.
Proof.
  unfold split_body. rewrite same_max.
  destruct (Qle_bool (Duration segment) (MaxSegmentDuration a')); [reflexivity|].
  apply fold_left_ext_eq. intros acc i. unfold split_iter.
  now rewrite createSegment_configuration.
Qed.

Lemma walk_body_configuration st silenceEnd :
  walk_body a st silenceEnd = walk_body a' st silenceEnd.
Proof.
  destruct st as [segments cs]. unfold walk_body.
  now rewrite createSegment_configuration.
Qed.

Lemma plan_segments_configuration silencePoints totalDuration :
  plan_segments a silencePoints totalDuration =
  plan_segments a' silencePoints totalDuration.
Proof.
  unfold plan_segments, splitLongSegments, raw_segments, walk.
  rewrite (fold_left_ext_eq _ _ silencePoints walk_body_configuration).
  destruct (fold_left (walk_body a') silencePoints ([], 0)) as [segments cs].
  rewrite createSegment_configuration.
  apply fold_left_ext_eq. exact split_body_configuration.
Qed.

End PlanConfiguration.

(** The plan depends on two fields of the analyzer only, the output
    directory and the maximal duration: MinSegmentDuration, MaxWorkers, the
    input file and the silence settings have no part in it. In particular
    the minimum of 30 seconds that NewAudioAnalyzer sets is not enforced:
    an audio of 10 seconds or more, and no longer than the maximum, without
    silence points is planned as one segment, however large
    MinSegmentDuration is. *)
Theorem plan_segments_reads_dir_and_max `{lib : GoLib} (a a' : AudioAnalyzer)
    (silencePoints : list float64) (totalDuration : float64) :
  OutputDir a = OutputDir a' ->
  MaxSegmentDuration a = MaxSegmentDuration a' ->
  plan_segments a silencePoints totalDuration =
  plan_segments a' silencePoints totalDuration /\
  (10 <= totalDuration -> totalDuration <= MaxSegmentDuration a ->
   plan_segments a [] totalDuration = [createSegment a 0 totalDuration 0]).
Proof.
  intros Hdir Hmax. split.
  - now apply plan_segments_configuration.
  - intros H10 Hle. unfold plan_segments, raw_segments, walk. simpl.
    assert (E : Qle_bool 10 (totalDuration - 0) = true)
      by (apply Qle_bool_iff; lra).
    rewrite E. simpl. unfold splitLongSegments. simpl.
    rewrite split_body_short; [reflexivity|]. simpl. lra.
Qed.

Lemma plan_segments_reads_dir_and_max_witness :
  let a := example_analyzer in
  let a' := {| InputFile := "other.wav"; OutputDir := "out"; MaxWorkers := 4;
               SilenceThreshold := "-20dB"; SilenceDuration := "1";
               MinSegmentDuration := 45; MaxSegmentDuration := 60 |} in
  plan_segments (lib := example_lib) a [70] 85 =
  plan_segments (lib := example_lib) a' [70] 85 /\
  plan_segments (lib := example_lib) a' [] 12 =
  [createSegment (lib := example_lib) a' 0 12 0] /\
  Duration (createSegment (lib := example_lib) a' 0 12 0) <
  MinSegmentDuration a'.
Proof.
  intros a a'.
  destruct (plan_segments_reads_dir_and_max (lib := example_lib) a a' [70] 85
              eq_refl eq_refl) as [H1 _].
  destruct (plan_segments_reads_dir_and_max (lib := example_lib) a' a' [] 12
              eq_refl eq_refl) as [_ H2].
  split; [exact H1|]. split; [|reflexivity].
  apply H2; discriminate.
Defined.

(** ** The worker pools: bounds, and pools that cannot move *)

Section PoolBounds.

Context {Shared : Type}.
Variable capacity : Z.
Variable work : nat -> Shared -> option Shared.

(** The goroutines that hold a slot never outnumber the slots. *)
Lemma steps_running_bounded (jobs : nat) shared phases shared' :
  (0 <= capacity)%Z ->
  Pool.steps capacity work (Pool.start jobs shared) (Pool.Live phases shared') ->
  length phases = jobs /\ (Pool.count Pool.is_running phases <= capacity)%Z.
Proof.
  intros Hcap H. unfold Pool.start in H.
  refine (steps_invariant capacity work
            (fun ps _ => length ps = jobs /\
                         (Pool.count Pool.is_running ps <= capacity)%Z)
            _ _ _ H _ _ _ _ eq_refl eq_refl _).
  - intros ps sh ps' sh' [Hlen Hc] Hstep.
    inversion Hstep; subst; rewrite length_insert; (split; [reflexivity|]);
      match goal with
      | Hl : ps !! _ = Some _ |- _ => rewrite (count_insert _ _ _ _ _ Hl)
      end; simpl; lia.
  - split; [apply repeat_length|].
    rewrite count_repeat_pending by reflexivity. exact Hcap.
Qed.

Lemma repeat_pending_not_running (jobs i : nat) :
  repeat Pool.Pending jobs !! i <> Some Pool.Running.
Proof.
  intros H. apply list_elem_of_lookup_2, list_elem_of_In, repeat_spec in H.
  discriminate.
Qed.

(** Without a slot no goroutine ever leaves the start. *)
Lemma steps_blocked (jobs : nat) shared s :
  (capacity <= 0)%Z ->
  Pool.steps capacity work (Pool.start jobs shared) s ->
  s = Pool.start jobs shared.
Proof.
  intros Hcap H. inversion H as [|s1 s2 s3 Hstep Hrest]; subst; [reflexivity|].
  exfalso. unfold Pool.start in Hstep. inversion Hstep; subst.
  - pose proof (count_nonneg Pool.is_running (repeat Pool.Pending jobs)). lia.
  - eapply repeat_pending_not_running; eauto.
  - eapply repeat_pending_not_running; eauto.
Qed.

(** A pool without a slot and with a goroutine to run can only crash: on
    [make] when the capacity is negative, on the deadlock when it is 0. *)
Lemma run_blocked (jobs : nat) (shared : Shared) :
  (capacity < 0)%Z \/ (capacity = 0%Z /\ (1 <= jobs)%nat) ->
  Pool.run capacity work jobs shared Crash /\
  forall o, Pool.run capacity work jobs shared o -> o = Crash.
Proof.
  intros Hcap. split.
  - destruct Hcap as [Hneg | [Hz Hjobs]].
    + now apply Pool.run_panic.
    + now apply run_without_room_deadlocks.
  - intros o H.
    destruct H as [Hneg | phases shared' Hpos Hsteps Hdone | Hpos Hsteps
                  | s Hpos Hsteps Hstuck]; try reflexivity;
      (destruct Hcap as [Hneg | [Hz Hjobs]]; [lia|]);
      apply steps_blocked in Hsteps; try lia; exfalso.
    + unfold Pool.start in Hsteps. injection Hsteps as -> _.
      destruct jobs as [|n]; [lia|]. inversion Hdone. discriminate.
    + discriminate.
Qed.

(** A pool without a goroutine returns at once. *)
Lemma run_no_jobs (shared : Shared) :
  (0 <= capacity)%Z ->
  Pool.run capacity work 0 shared (Return shared) /\
  forall o, Pool.run capacity work 0 shared o -> o = Return shared.
Proof.
  intros Hcap.
  assert (Hstay : forall s,
            Pool.steps capacity work (Pool.start 0 shared) s ->
            s = Pool.Live [] shared).
  { intros s H. inversion H as [|s1 s2 s3 Hstep Hrest]; subst; [reflexivity|].
    unfold Pool.start in Hstep. simpl in Hstep.
    inversion Hstep; subst; discriminate. }
  split.
  - apply Pool.run_return with []; [exact Hcap | constructor | constructor].
  - intros o H.
    destruct H as [Hneg | phases shared' Hpos Hsteps Hdone | Hpos Hsteps
                  | s Hpos Hsteps Hstuck].
    + lia.
    + apply Hstay in Hsteps. now injection Hsteps as _ ->.
    + apply Hstay in Hsteps. discriminate.
    + apply Hstay in Hsteps. subst s. destruct Hstuck as [Hnd _].
      exfalso. apply Hnd. constructor.
Qed.

End PoolBounds.

(** Both pools keep to MaxWorkers: whatever the goroutines have done so far,
    at most MaxWorkers of them hold a slot of the semaphore, in the
    extraction pool and in the transcription pool, and the slice of results
    keeps the length of the plan, so that every goroutine writes inside
    it. *)
Theorem pools_keep_to_MaxWorkers `{lib : GoLib} (w : World) (a : AudioAnalyzer)
    (segments : list AudioSegment) :
  (0 <= MaxWorkers a)%Z ->
  (forall phases log,
     Pool.steps (MaxWorkers a) (extract_worker w a segments)
       (Pool.start (length segments) []) (Pool.Live phases log) ->
     length phases = length segments /\
     (Pool.count Pool.is_running phases <= MaxWorkers a)%Z) /\
  (forall phases results,
     Pool.steps (MaxWorkers a) (process_worker w segments)
       (Pool.start (length segments)
          (repeat zero_TranscriptionResult (length segments)))
       (Pool.Live phases results) ->
     length phases = length segments /\
     (Pool.count Pool.is_running phases <= MaxWorkers a)%Z /\
     length results = length segments).
Proof.
  intros Hcap. split.
  - intros phases log H. now apply steps_running_bounded in H.
  - intros phases results H.
    destruct (steps_running_bounded _ _ _ _ _ _ Hcap H) as [Hlen Hc].
    split_and!; [exact Hlen | exact Hc |].
    unfold Pool.start in H.
    assert (Hok : slots_ok w segments phases results).
    { refine (steps_invariant _ _ (slots_ok w segments) _ _ _ H _ _ _ _
                eq_refl eq_refl (slots_ok_start w segments)).
      intros ps sh ps' sh' HI Hstep. eapply slots_ok_step; eauto. }
    destruct Hok as (_ & Hlr & _). exact Hlr.
Qed.

Lemma pools_keep_to_MaxWorkers_witness :
  let a := example_analyzer in
  let segments := plan_segments (lib := example_lib) a [70] 85 in
  (0 <= MaxWorkers a)%Z /\
  forall phases log,
    Pool.steps (MaxWorkers a) (extract_worker example_world a segments)
      (Pool.start (length segments) []) (Pool.Live phases log) ->
    (Pool.count Pool.is_running phases <= 1)%Z.
Proof.
  intros a segments.
  assert (Hcap : (0 <= MaxWorkers a)%Z) by discriminate.
  split; [exact Hcap|].
  intros phases log H.
  destruct (pools_keep_to_MaxWorkers (lib := example_lib) example_world a
              segments Hcap) as [Hextract _].
  destruct (Hextract phases log H) as [_ Hc]. exact Hc.
Defined.

(** ** The outcomes of [Run], whatever the configuration *)

Section RunOutcomes.

Context {lib : GoLib}.
Variable w : World.
Variable a : AudioAnalyzer.

(** The errors of [CreateSegments] are those of its two probes. *)
Lemma CreateSegments_error plan err :
  CreateSegments w a = (plan, Some err) ->
  plan = [] /\
  ((exists output e,
      exec_CombinedOutput w "ffmpeg"
        ["-i"; InputFile a; "-af";
         "silencedetect=noise=" +++ SilenceThreshold a +++ ":duration=" +++
           SilenceDuration a;
         "-f"; "null"; "-"] = (output, Some e) /\
      err = "ffmpeg silence detection failed: " +++ e) \/
   (exists output e,
      exec_Output w "ffprobe"
        ["-v"; "quiet"; "-show_entries"; "format=duration"; "-of";
         "csv=p=0"; InputFile a] = (output, Some e) /\
      err = "failed to get audio duration: " +++ e) \/
   (exists output e,
      exec_Output w "ffprobe"
        ["-v"; "quiet"; "-show_entries"; "format=duration"; "-of";
         "csv=p=0"; InputFile a] = (output, None) /\
      strconv_ParseFloat (Strings.TrimSpace output) = inl e /\
      err = "failed to parse duration: " +++ e)).
Proof.
  unfold CreateSegments, DetectSilence, AudioAnalyzer_GetAudioDuration.
  destruct (exec_CombinedOutput w "ffmpeg" _) as [output [e|]] eqn:E1.
  - intros H. injection H as <- <-. split; [reflexivity|]. left. eauto.
  - unfold parseSilenceOutput.
    destruct (exec_Output w "ffprobe" _) as [output2 [e|]] eqn:E2.
    + intros H. injection H as <- <-. split; [reflexivity|]. right. left. eauto.
    + destruct (strconv_ParseFloat (Strings.TrimSpace output2)) as [e|d] eqn:E3.
      * intros H. injection H as <- <-. split; [reflexivity|].
        right. right. exists output2, e. auto.
      * discriminate.
Qed.

Lemma Run_without_plan plan err o :
  CreateSegments w a = (plan, Some err) ->
  Run w a o <-> o = Return (Some ("failed to create segments: " +++ err)).
Proof.
  intros Hc. split.
  - intros H.
    destruct H as [p e Hc' | s e l Hc' He | s Hc' He | s l Hc' He Hp
                  | s l Hc' He Hp | s l r e Hc' He Hp | s l r e Hc' He Hp Ho
                  | s l r Hc' He Hp Ho];
      rewrite Hc in Hc'; try discriminate.
    now injection Hc' as _ <-.
  - intros ->. eapply Run_no_segments. exact Hc.
Qed.

(** Without segments the transcription pool returns at once, with or without
    main.exe. *)
Lemma ProcessWithCpp_nothing :
  (0 <= MaxWorkers a)%Z ->
  ProcessWithCpp w a [] (Return (sort_Slice by_start_time [], None)) /\
  forall o, ProcessWithCpp w a [] o ->
    o = Return (sort_Slice by_start_time [], None).
Proof.
  intros Hcap.
  destruct (run_no_jobs (MaxWorkers a) (process_worker w []) [] Hcap)
    as [Hrun Honly].
  split.
  - apply (Process_returns w a [] []). exact Hrun.
  - intros o H. destruct H as [results H | H | H]; apply Honly in H;
      try discriminate.
    now injection H as ->.
Qed.

Section Planned.

Variable plan : list AudioSegment.
Hypothesis planned : CreateSegments w a = (plan, None).

Lemma Run_without_directory e o :
  os_MkdirAll w (OutputDir a) = Some e ->
  Run w a o <->
  o = Return (Some ("failed to extract segments: " +++
                    "failed to create output directory: " +++ e)).
Proof.
  intros Hdir.
  assert (Hex : forall o', ExtractAudioSegments w a plan o' ->
            o' = Return (Some ("failed to create output directory: " +++ e), [])).
  { intros o' H. destruct H as [e' He' | log He' _ | He' _];
      rewrite Hdir in He'; try discriminate. now injection He' as <-. }
  split.
  - intros H.
    destruct H as [p e' Hc | s e' l Hc He | s Hc He | s l Hc He Hp
                  | s l Hc He Hp | s l r e' Hc He Hp | s l r e' Hc He Hp Ho
                  | s l r Hc He Hp Ho];
      rewrite planned in Hc; try discriminate; injection Hc as <-;
      apply Hex in He; try discriminate.
    now injection He as -> _.
  - intros ->. eapply Run_no_extraction; [exact planned|].
    now apply Extract_mkdir_fails.
Qed.

Hypothesis directory : os_MkdirAll w (OutputDir a) = None.

Lemma Run_blocked :
  (MaxWorkers a < 0)%Z \/ (MaxWorkers a = 0%Z /\ plan <> []) ->
  Run w a Crash /\ forall o, Run w a o -> o = Crash.
Proof.
  intros Hcap.
  assert (Hcap' : (MaxWorkers a < 0)%Z \/
                  (MaxWorkers a = 0%Z /\ (1 <= length plan)%nat)).
  { destruct Hcap as [H | [H Hne]]; [now left | right]. split; [exact H|].
    destruct plan; [contradiction | simpl; lia]. }
  destruct (run_blocked (MaxWorkers a) (extract_worker w a plan) (length plan)
              [] Hcap') as [Hcrash Honly].
  assert (Hex : forall o', ExtractAudioSegments w a plan o' -> o' = Crash).
  { intros o' H. destruct H as [e He | log He Hrun | He Hrun].
    - rewrite directory in He. discriminate.
    - apply Honly in Hrun. discriminate.
    - reflexivity. }
  split.
  - eapply Run_extraction_crashes; [exact planned|].
    now apply Extract_crashes.
  - intros o H.
    destruct H as [p e' Hc | s e' l Hc He | s Hc He | s l Hc He Hp
                  | s l Hc He Hp | s l r e' Hc He Hp | s l r e' Hc He Hp Ho
                  | s l r Hc He Hp Ho];
      rewrite planned in Hc; try discriminate; injection Hc as <-;
      apply Hex in He; try discriminate.
    reflexivity.
Qed.

Hypothesis workers : (1 <= MaxWorkers a)%Z.

(** How the run ends once the results are there. *)
Definition report_outcome (results : list TranscriptionResult)
    : outcome (option error) :=
  match output_error (OutputResults w a results) with
  | Some e => Return (Some ("failed to output results: " +++ e))
  | None => Return None
  end.

Lemma Run_after_processing results o :
  ProcessWithCpp w a plan (Return (results, None)) ->
  (forall o', ProcessWithCpp w a plan o' -> o' = Return (results, None)) ->
  Run w a o <-> o = report_outcome results.
Proof.
  intros Hrun Honly. unfold report_outcome. split.
  - intros H.
    destruct H as [p e' Hc | s e' l Hc He | s Hc He | s l Hc He Hp
                  | s l Hc He Hp | s l r e' Hc He Hp | s l r e' Hc He Hp Ho
                  | s l r Hc He Hp Ho];
      rewrite planned in Hc; try discriminate; injection Hc as <-;
      try (apply (extraction_returns_nil w a plan workers directory) in He;
           destruct He as [l' He]; discriminate);
      apply Honly in Hp; try discriminate; injection Hp as ->;
      now rewrite Ho.
  - intros ->.
    destruct (proj1 (ExtractAudioSegments_returns w a plan workers)) as [o' Ho'].
    destruct (extraction_returns_nil w a plan workers directory o' Ho')
      as [log ->].
    destruct (output_error (OutputResults w a results)) as [e|] eqn:E.
    + eapply Run_no_output; eauto.
    + eapply Run_completes; eauto.
Qed.

End Planned.

End RunOutcomes.

(** The outcome of the pipeline, step after step: the error of
    [CreateSegments]; the error of the output directory; the end of the
    process when main.exe is missing and there is a segment to transcribe;
    and otherwise what the writing of the report gives for the results of
    the segments, in the order of the sort. *)
Definition Run_outcome `{lib : GoLib} (w : World) (a : AudioAnalyzer)
    : outcome (option error) :=
  match CreateSegments w a with
  | (_, Some err) => Return (Some ("failed to create segments: " +++ err))
  | (plan, None) =>
      match os_MkdirAll w (OutputDir a) with
      | Some e =>
          Return (Some ("failed to extract segments: " +++
                        "failed to create output directory: " +++ e))
      | None =>
          if os_Stat_IsNotExist w exePath && negb (Nat.eqb (length plan) 0)
          then Exit
          else report_outcome w a
                 (sort_Slice by_start_time (map (transcribed w) plan))
      end
  end.

(** With a worker the run has the outcome of its steps taken one after the
    other, and no other. *)
Lemma Run_iff_outcome `{lib : GoLib} (w : World) (a : AudioAnalyzer) o :
  (1 <= MaxWorkers a)%Z ->
  Run w a o <-> o = Run_outcome w a.
Proof.
  intros Hcap. unfold Run_outcome.
  destruct (CreateSegments w a) as [plan [err|]] eqn:Hplan.
  { now apply Run_without_plan with plan. }
  destruct (os_MkdirAll w (OutputDir a)) as [e|] eqn:Hdir.
  { now apply Run_without_directory with plan. }
  destruct (os_Stat_IsNotExist w exePath) eqn:Hexe; simpl.
  - destruct plan as [|s l] eqn:El; simpl.
    + assert (Hcap0 : (0 <= MaxWorkers a)%Z) by lia.
      destruct (ProcessWithCpp_nothing w a Hcap0) as [Hrun Honly].
      now apply (Run_after_processing w a [] Hplan Hdir Hcap).
    + rewrite <- El in *.
      assert (Hne : plan <> []) by (rewrite El; discriminate).
      destruct (Run_exits_without_main_exe w a plan Hcap Hplan Hdir Hexe Hne)
        as [Hrun Honly].
      split; [apply Honly | now intros ->].
  - destruct (ProcessWithCpp_returns w a plan Hcap Hexe) as [Hrun Honly].
    now apply (Run_after_processing w a plan Hplan Hdir Hcap).
Qed.

Lemma Run_outcome_no_crash `{lib : GoLib} (w : World) (a : AudioAnalyzer) :
  Run_outcome w a <> Crash.
Proof.
  unfold Run_outcome, report_outcome.
  destruct (CreateSegments w a) as [plan [err|]]; [discriminate|].
  destruct (os_MkdirAll w (OutputDir a)); [discriminate|].
  destruct (os_Stat_IsNotExist w exePath && negb (Nat.eqb (length plan) 0));
    [discriminate|].
  destruct (output_error _); discriminate.
Qed.

(** With at least one worker the run has one outcome, whatever the order in
    which the goroutines of its two pools take their turns, and it never
    crashes: its outcome is the one of the steps taken one after the other.
    In particular a missing main.exe ends the process only when there is a
    segment to transcribe, and is not noticed otherwise. *)
Theorem Run_has_one_outcome `{lib : GoLib} (w : World) (a : AudioAnalyzer) :
  (1 <= MaxWorkers a)%Z ->
  (forall o, Run w a o <-> o = Run_outcome w a) /\
  Run_outcome w a <> Crash /\
  (CreateSegments w a = ([], None) ->
   os_MkdirAll w (OutputDir a) = None ->
   Run_outcome w a = report_outcome w a (sort_Slice by_start_time [])).
Proof.
  intros Hcap. split_and!.
  - intros o. now apply Run_iff_outcome.
  - apply Run_outcome_no_crash.
  - intros Hplan Hdir. unfold Run_outcome. rewrite Hplan, Hdir. simpl.
    now rewrite andb_false_r.
Qed.

Lemma Run_has_one_outcome_witness :
  (1 <= MaxWorkers example_analyzer)%Z /\
  (forall o, Run (lib := example_lib) example_world example_analyzer o <->
             o = Return None) /\
  (forall o, Run (lib := example_lib) no_engine_world example_analyzer o <->
             o = Exit).
Proof.
  assert (Hcap : (1 <= MaxWorkers example_analyzer)%Z) by discriminate.
  split; [exact Hcap|]. split.
  - apply (Run_has_one_outcome (lib := example_lib) example_world
             example_analyzer Hcap).
  - apply (Run_has_one_outcome (lib := example_lib) no_engine_world
             example_analyzer Hcap).
Defined.

(** A run without a worker: with a negative MaxWorkers the run panics when it
    makes the channel of the extraction pool, and with MaxWorkers 0 and a
    segment in the plan every goroutine of that pool blocks for ever; in both
    cases the run crashes once the plan is there and the output directory is
    made, and it has no other outcome. *)
Theorem Run_crashes_without_worker `{lib : GoLib} (w : World)
    (a : AudioAnalyzer) (plan : list AudioSegment) :
  CreateSegments w a = (plan, None) ->
  os_MkdirAll w (OutputDir a) = None ->
  (MaxWorkers a < 0)%Z \/ (MaxWorkers a = 0%Z /\ plan <> []) ->
  Run w a Crash /\ forall o, Run w a o -> o = Crash.
Proof.
  intros Hplan Hdir Hcap. now apply Run_blocked with plan.
Qed.

(** A failure of a probe ends the run before anything else is done, for any
    number of workers: [CreateSegments] returns no segment with the error of
    ffmpeg, of ffprobe, or of the parsing of the duration, in that order, and
    the run returns that error behind its own prefix. *)
Theorem Run_aborts_on_probe_failure `{lib : GoLib} (w : World)
    (a : AudioAnalyzer) (plan : list AudioSegment) (err : error) :
  CreateSegments w a = (plan, Some err) ->
  plan = [] /\
  (exists e, err = "ffmpeg silence detection failed: " +++ e \/
             err = "failed to get audio duration: " +++ e \/
             err = "failed to parse duration: " +++ e) /\
  forall o, Run w a o <->
            o = Return (Some ("failed to create segments: " +++ err)).
Proof.
  intros Hc.
  destruct (CreateSegments_error w a plan err Hc) as [Hnil Hcase].
  split_and!.
  - exact Hnil.
  - destruct Hcase as [(out & e & _ & ->) | [(out & e & _ & ->)
                      | (out & e & _ & _ & ->)]]; exists e; auto.
  - intros o. now apply Run_without_plan with plan.
Qed.

(** An analyzer built by hand, without a worker. *)
Definition idle_analyzer : AudioAnalyzer := {|
  InputFile := "in.wav";
  OutputDir := "out";
  MaxWorkers := 0;
  SilenceThreshold := "-30dB";
  SilenceDuration := "5";
  MinSegmentDuration := 30;
  MaxSegmentDuration := 60
|}.

(** A world without ffmpeg and ffprobe. *)
Definition no_ffmpeg_world : World := {|
  exec_CombinedOutput := fun name args =>
    ("", Some ("exec: " +++ name +++ ": executable file not found in $PATH"));
  exec_Output := fun name args =>
    ("", Some ("exec: " +++ name +++ ": executable file not found in $PATH"));
  exec_Run := fun name args =>
    Some ("exec: " +++ name +++ ": executable file not found in $PATH");
  os_MkdirAll := fun _ => None;
  os_Stat_IsNotExist := fun _ => false;
  os_WriteFile := fun _ _ => None
|}.

Lemma Run_crashes_without_worker_witness :
  let w := example_world in
  let plan := fst (CreateSegments (lib := example_lib) w idle_analyzer) in
  length plan = 3%nat /\
  Run (lib := example_lib) w idle_analyzer Crash /\
  forall o, Run (lib := example_lib) w idle_analyzer o -> o = Crash.
Proof.
  intros w plan. split; [reflexivity|].
  apply (Run_crashes_without_worker (lib := example_lib) w idle_analyzer plan).
  - reflexivity.
  - reflexivity.
  - right. split; [reflexivity | discriminate].
Defined.

Lemma Run_aborts_on_probe_failure_witness :
  let w := no_ffmpeg_world in
  let err := "ffmpeg silence detection failed: " +++
             "exec: ffmpeg: executable file not found in $PATH" in
  CreateSegments (lib := example_lib) w example_analyzer = ([], Some err) /\
  forall o, Run (lib := example_lib) w example_analyzer o <->
            o = Return (Some ("failed to create segments: " +++ err)).
Proof.
  intros w err.
  assert (Hc : CreateSegments (lib := example_lib) w example_analyzer =
               ([], Some err)) by reflexivity.
  split; [exact Hc|].
  destruct (Run_aborts_on_probe_failure (lib := example_lib) w example_analyzer
              [] err Hc) as (_ & _ & H).
  exact H.
Defined.

(** ** The entry point *)

(** How the process ends: with an exit status, or by a crash of the run
    time, a panic or a deadlock. *)
Inductive process_end : Type :=
| Status (code : Z)
| RuntimeCrash.

(** The lines that [main] prints when arguments are missing. *)
Definition usage : list string :=
  ["Usage: go run main.go <input_audio_file> <output_directory> [max_workers] [python_script]";
   "  max_workers: optional, number of parallel workers (default: auto-detect)";
   "  python_script: optional, path to Python whisper script (default: ./whisper_transcriber.py)"].

(** What [main] itself shows and how the process ends: the lines of the
    usage it has printed, the message it has handed to [log.Fatalf], and the
    end of the process. *)
Record main_end : Type := {
  printed_usage : list string;
  fatal_message : option string;
  ending : process_end
}.

Definition usage_end : main_end :=
  {| printed_usage := usage; fatal_message := None; ending := Status 1 |}.

(** The end of [main] after a run of the pipeline with the given outcome:
    [log.Fatalf] and [log.Fatal] end the process with status 1. *)
Definition end_of_run (o : outcome (option error)) : main_end :=
  match o with
  | Return None =>
      {| printed_usage := []; fatal_message := None; ending := Status 0 |}
  | Return (Some err) =>
      {| printed_usage := [];
         fatal_message := Some ("Audio analysis failed: " +++ err);
         ending := Status 1 |}
  | Exit =>
      {| printed_usage := []; fatal_message := None; ending := Status 1 |}
  | Crash =>
      {| printed_usage := []; fatal_message := None; ending := RuntimeCrash |}
  end.

(** [main] for the arguments [os.Args], the name of the program first. *)
Inductive main `{lib : GoLib} (w : World) (args : list string)
  : main_end -> Prop :=
| main_usage :
    (len args < 3)%Z -> main w args usage_end
| main_runs inputFile outputDir o :
    ~ (len args < 3)%Z ->
    args !! 1%nat = Some inputFile ->
    args !! 2%nat = Some outputDir ->
    Run w (NewAudioAnalyzer inputFile outputDir) o ->
    main w args (end_of_run o).

(** The end of [main], its steps taken one after the other. *)
Definition main_outcome `{lib : GoLib} (w : World) (args : list string)
    : main_end :=
  match args with
  | _ :: inputFile :: outputDir :: _ =>
      end_of_run (Run_outcome w (NewAudioAnalyzer inputFile outputDir))
  | _ => usage_end
  end.

Lemma main_iff_outcome `{lib : GoLib} (w : World) (args : list string) e :
  main w args e <-> e = main_outcome w args.
Proof.
  split.
  - intros H. destruct H as [Hlen | inputFile outputDir o Hlen H1 H2 Hrun].
    + destruct args as [|a0 [|a1 [|a2 rest]]]; try reflexivity.
      unfold len in Hlen. simpl in Hlen. lia.
    + destruct args as [|a0 [|a1 [|a2 rest]]]; try discriminate.
      simpl in H1, H2. injection H1 as ->. injection H2 as ->.
      simpl. f_equal. apply Run_iff_outcome; [discriminate | exact Hrun].
  - intros ->. destruct args as [|a0 [|a1 [|a2 rest]]];
      try (apply main_usage; unfold len; simpl; lia).
    simpl.
    apply (main_runs w (a0 :: a1 :: a2 :: rest) a1 a2
             (Run_outcome w (NewAudioAnalyzer a1 a2))).
    + unfold len. simpl. lia.
    + reflexivity.
    + reflexivity.
    + apply Run_iff_outcome; [discriminate | reflexivity].
Qed.

(** [main] has one end for every world and every list of arguments, and
    the run time never crashes under it, since the analyzer it builds has
    one worker. With fewer than two arguments after the name of the program
    it prints the usage and ends with status 1 without looking at the
    world; otherwise the status is 0 exactly when the run of the pipeline
    returns no error. *)
Theorem main_has_one_end `{lib : GoLib} (w : World) (args : list string) :
  (forall e, main w args e <-> e = main_outcome w args) /\
  ending (main_outcome w args) <> RuntimeCrash /\
  ((len args < 3)%Z -> main_outcome w args = usage_end) /\
  (forall inputFile outputDir,
     ~ (len args < 3)%Z ->
     args !! 1%nat = Some inputFile -> args !! 2%nat = Some outputDir ->
     (ending (main_outcome w args) = Status 0 <->
      Run w (NewAudioAnalyzer inputFile outputDir) (Return None))).
Proof.
  split_and!.
  - intros e. apply main_iff_outcome.
  - destruct args as [|a0 [|a1 [|a2 rest]]]; try discriminate.
    simpl. pose proof (Run_outcome_no_crash w (NewAudioAnalyzer a1 a2)) as H.
    destruct (Run_outcome w (NewAudioAnalyzer a1 a2)) as [[err|]| |];
      try discriminate. contradiction.
  - intros Hlen. destruct args as [|a0 [|a1 [|a2 rest]]]; try reflexivity.
    unfold len in Hlen. simpl in Hlen. lia.
  - intros inputFile outputDir Hlen H1 H2.
    destruct args as [|a0 [|a1 [|a2 rest]]]; try discriminate.
    simpl in H1, H2. injection H1 as ->. injection H2 as ->. simpl.
    rewrite (Run_iff_outcome w (NewAudioAnalyzer inputFile outputDir)
               (Return None)) by discriminate.
    destruct (Run_outcome w (NewAudioAnalyzer inputFile outputDir))
      as [[err|]| |]; simpl; split; intros H; try discriminate; reflexivity.
Qed.

(** [main] reads its first two arguments only: the max_workers and
    python_script that its usage text offers change nothing, and the
    analyzer runs with one worker whatever follows. *)
Theorem main_ignores_further_arguments `{lib : GoLib} (w : World)
    (program inputFile outputDir : string) (further : list string)
    (e : main_end) :
  (main w (program :: inputFile :: outputDir :: further) e <->
   main w [program; inputFile; outputDir] e) /\
  MaxWorkers (NewAudioAnalyzer inputFile outputDir) = 1%Z.
Proof.
  split; [|reflexivity].
  rewrite !main_iff_outcome. reflexivity.
Qed.

(** ** The command of the engine *)

(** The backslash. *)
Definition backslash : ascii := ascii_of_N 92.

Lemma replace_backslashes (s : string) :
  has_byte backslash (Strings.replace_from "\" "/" s 0) = false /\
  String.length (Strings.replace_from "\" "/" s 0) = String.length s /\
  (has_byte backslash s = false -> Strings.replace_from "\" "/" s 0 = s).
Proof.
  induction s as [|c s (IH1 & IH2 & IH3)]; [repeat split|].
  cbn [Strings.replace_from Strings.HasPrefix].
  rewrite andb_true_r.
  change (Ascii.eqb "\" c) with (Ascii.eqb backslash c).
  destruct (Ascii.eqb backslash c) eqn:E; cbn [String.length Nat.sub].
  - split_and!.
    + exact IH1.
    + simpl. now rewrite IH2.
    + cbn [has_byte]. rewrite E. discriminate.
  - split_and!.
    + cbn [has_byte]. now rewrite E.
    + simpl. now rewrite IH2.
    + cbn [has_byte]. rewrite E. simpl. intros H. now rewrite IH3.
Qed.

(** The file that the engine is told to read is the path of the segment
    behind "./" with every backslash turned into a slash: it holds no
    backslash, it is as long as the path of the segment, and it is that path
    itself when the path holds no backslash. *)
Theorem engine_file_has_no_backslash (filepath secondsStr : string) :
  exists file : string,
    whisper_arguments filepath secondsStr !! 3%nat = Some ("./" +++ file) /\
    has_byte backslash file = false /\
    String.length file = String.length filepath /\
    (has_byte backslash filepath = false -> file = filepath).
Proof.
  exists (Strings.ReplaceAll filepath "\" "/"). split; [reflexivity|].
  unfold Strings.ReplaceAll. apply replace_backslashes.
Qed.

Section EngineCommand.

Context {lib : GoLib}.
Variable w : World.

(** When the probe of the duration fails the duration it returns is 0. *)
Lemma GetAudioDuration_error (filePath : string) (d : float64) (e : error) :
  GetAudioDuration w filePath = (d, Some e) ->
  d = 0 /\
  (exists cause, e = "ffprobe failed: " +++ cause \/
                 e = "failed to parse duration: " +++ cause).
Proof.
  unfold GetAudioDuration.
  destruct (exec_Output w "ffprobe" _) as [output [err|]].
  - intros H. injection H as <- <-. split; [reflexivity | eauto].
  - destruct (strconv_ParseFloat (Strings.TrimSpace output)) as [err|duration].
    + intros H. injection H as <- <-. split; [reflexivity | eauto].
    + discriminate.
Qed.

End EngineCommand.

(** [transcribeCpp] drops the error of the probe of the duration: when
    ffprobe fails on the file of a segment, or prints what is no number, the
    segment is transcribed all the same, and the engine is called with a
    minimal speech duration of 0 milliseconds. *)
Theorem transcribeCpp_ignores_failed_probe `{lib : GoLib} (w : World)
    (segment : AudioSegment) (d : float64) (e : error) :
  os_Stat_IsNotExist w exePath = false ->
  GetAudioDuration w (FilePath segment) = (d, Some e) ->
  transcribeCpp w segment =
  match exec_CombinedOutput w whisper_cli
          (whisper_arguments (FilePath segment) "0") with
  | (output, Some err) =>
      Return ("", Some ("C++ whisper transcription failed: " +++ err +++
                        newline +++ output))
  | (output, None) => Return (Strings.TrimSpace output, None)
  end.
Proof.
  intros Hexe Hprobe.
  destruct (GetAudioDuration_error w _ _ _ Hprobe) as [-> _].
  unfold transcribeCpp. rewrite Hexe, Hprobe. reflexivity.
Qed.

Lemma transcribeCpp_ignores_failed_probe_witness :
  let w := {|
    exec_CombinedOutput := fun name args =>
      if existsb (String.eqb "0") args then ("spoken words", None)
      else ("", Some "exit status 1");
    exec_Output := fun name args => ("", Some "exit status 1");
    exec_Run := fun _ _ => None;
    os_MkdirAll := fun _ => None;
    os_Stat_IsNotExist := fun _ => false;
    os_WriteFile := fun _ _ => None |} in
  let segment := createSegment (lib := example_lib) example_analyzer 0 12 0 in
  GetAudioDuration (lib := example_lib) w (FilePath segment) =
    (0, Some "ffprobe failed: exit status 1") /\
  transcribeCpp (lib := example_lib) w segment = Return ("spoken words", None).
Proof.
  intros w segment.
  assert (Hprobe : GetAudioDuration (lib := example_lib) w (FilePath segment) =
                   (0, Some "ffprobe failed: exit status 1")) by reflexivity.
  split; [exact Hprobe|].
  rewrite (transcribeCpp_ignores_failed_probe (lib := example_lib) w segment
             0 "ffprobe failed: exit status 1" eq_refl Hprobe).
  reflexivity.
Defined.

(** ** The report writer when a step fails *)

(** When [OutputResults] returns an error it has printed nothing, and it has
    written no file, or the JSON file alone: the JSON file stays behind when
    the text file cannot be written. The error tells the step: the encoding,
    the JSON file or the text file, tried in that order. It returns no error
    exactly when the encoding and both writes succeed. *)
Theorem OutputResults_failure `{lib : GoLib} (w : World) (a : AudioAnalyzer)
    (results : list TranscriptionResult) :
  let out := OutputResults w a results in
  let jsonFile := filepath_Join (OutputDir a) "transcription_results.json" in
  let txtFile := filepath_Join (OutputDir a) "transcription_results.txt" in
  (forall err, output_error out = Some err ->
     console out = "" /\
     ((exists e, json_MarshalIndent results = inl e /\
                 err = "failed to marshal JSON: " +++ e /\
                 files_written out = []) \/
      (exists jsonData e,
         json_MarshalIndent results = inr jsonData /\
         os_WriteFile w jsonFile jsonData = Some e /\
         err = "failed to write JSON file: " +++ e /\
         files_written out = []) \/
      (exists jsonData e,
         json_MarshalIndent results = inr jsonData /\
         os_WriteFile w jsonFile jsonData = None /\
         os_WriteFile w txtFile (report_text results) = Some e /\
         err = "failed to write text file: " +++ e /\
         files_written out = [(jsonFile, jsonData)]))) /\
  (output_error out = None <->
   exists jsonData,
     json_MarshalIndent results = inr jsonData /\
     os_WriteFile w jsonFile jsonData = None /\
     os_WriteFile w txtFile (report_text results) = None).
Proof.
  cbv zeta. unfold OutputResults.
  destruct (json_MarshalIndent results) as [e|jsonData] eqn:Hjson.
  { split.
    - intros err H. simpl in H. injection H as <-. split; [reflexivity|].
      left. eauto.
    - split; [discriminate|]. intros (d & Hd & _). discriminate. }
  destruct (os_WriteFile w _ jsonData) as [e|] eqn:Hwj.
  { split.
    - intros err H. simpl in H. injection H as <-. split; [reflexivity|].
      right. left. exists jsonData, e. auto.
    - split; [discriminate|]. intros (d & Hd & Hw & _).
      injection Hd as <-. congruence. }
  destruct (os_WriteFile w _ (report_text results)) as [e|] eqn:Hwt.
  { split.
    - intros err H. simpl in H. injection H as <-. split; [reflexivity|].
      right. right. exists jsonData, e. auto.
    - split; [discriminate|]. intros (d & Hd & _ & Hw). congruence. }
  split.
  - intros err H. discriminate.
  - split; [|reflexivity]. intros _. exists jsonData. auto.
Qed.

(** ** The errors of [Run] *)

(** Every error that [Run] returns comes from the planning, from the making
    of the output directory or from the writing of the report, and carries
    the prefix of its step: a failed extraction, a failed transcription and
    [ProcessWithCpp] itself never make the run return an error. *)
Theorem Run_error_origin `{lib : GoLib} (w : World) (a : AudioAnalyzer)
    (err : error) :
  Run w a (Return (Some err)) ->
  (exists plan e,
     CreateSegments w a = (plan, Some e) /\
     err = "failed to create segments: " +++ e) \/
  (exists e,
     os_MkdirAll w (OutputDir a) = Some e /\
     err = "failed to extract segments: " +++
           "failed to create output directory: " +++ e) \/
  (exists results e,
     output_error (OutputResults w a results) = Some e /\
     err = "failed to output results: " +++ e).
Proof.
  intros H.
  inversion H as [p e Hc | s e l Hc He | | | | s l r e Hc He Hp
                 | s l r e Hc He Hp Ho | ]; subst.
  - left. eauto.
  - right. left. inversion He as [e' He' | |]; subst. eauto.
  - exfalso. inversion Hp.
  - right. right. eauto.
Qed.

Lemma Run_error_origin_witness :
  let w := no_ffmpeg_world in
  let err := "failed to create segments: " +++
             "ffmpeg silence detection failed: " +++
             "exec: ffmpeg: executable file not found in $PATH" in
  Run (lib := example_lib) w example_analyzer (Return (Some err)) /\
  exists plan e,
    CreateSegments (lib := example_lib) w example_analyzer = (plan, Some e) /\
    err = "failed to create segments: " +++ e.
Proof.
  intros w err.
  assert (Hrun : Run (lib := example_lib) w example_analyzer (Return (Some err))).
  { apply (Run_no_segments (lib := example_lib) w example_analyzer []). reflexivity. }
  split; [exact Hrun|].
  destruct (Run_error_origin (lib := example_lib) w example_analyzer err Hrun)
    as [H | [(e & He & _) | (results & e & He & Herr)]].
  - exact H.
  - discriminate.
  - exfalso. unfold err in Herr. discriminate.
Defined.

(** ** The silence parser, line by line *)

(** Splitting at line feeds a text followed by a line feed and more text. *)
Lemma split_from_app (s rest : string) : forall cur : string,
  Strings.split_from newline (s +++ newline +++ rest) 0 cur =
  Strings.split_from newline s 0 cur ++ Strings.split_from newline rest 0 "".
Proof.
  induction s as [|c s IH]; intros cur.
  - reflexivity.
  - change (String c s +++ newline +++ rest)
      with (String c (s +++ newline +++ rest)).
    cbn [Strings.split_from]. rewrite !HasPrefix_newline.
    destruct (Ascii.eqb (ascii_of_N 10) c).
    + cbn [String.length newline Nat.sub]. now rewrite IH.
    + apply IH.
Qed.

Lemma Split_app (s rest : string) :
  Strings.Split (s +++ newline +++ rest) newline =
  Strings.Split s newline ++ Strings.Split rest newline.
Proof. unfold Strings.Split. cbn [newline]. apply (split_from_app s rest ""). Qed.

(** Every piece of a split occurs in the text. *)
Lemma split_from_occur (s : string) : forall (cur t : string),
  In t (Strings.split_from newline s 0 cur) -> occurs_in t (cur +++ s).
Proof.
  induction s as [|c s IH]; intros cur t Hin.
  - simpl in Hin. destruct Hin as [<- | []]. exists "", "".
    now rewrite string_app_nil_r.
  - cbn [Strings.split_from] in Hin. rewrite HasPrefix_newline in Hin.
    destruct (Ascii.eqb (ascii_of_N 10) c).
    + cbn [String.length newline Nat.sub] in Hin.
      destruct Hin as [<- | Hin].
      * exists "", (String c s). reflexivity.
      * apply IH in Hin. simpl in Hin.
        apply occurs_in_app_l. now apply occurs_in_cons.
    + apply IH in Hin. now rewrite string_app_assoc in Hin.
Qed.

Lemma occurs_in_trans (t s u : string) :
  occurs_in t s -> occurs_in s u -> occurs_in t u.
Proof.
  intros (p1 & q1 & ->) (p2 & q2 & ->).
  exists (p2 +++ p1), (q1 +++ q2). now rewrite !string_app_assoc.
Qed.

(** The parse of an output is made of the parses of its lines: what stands
    before a line feed and what stands after it are parsed apart, and a
    number that follows its marker on the next line is not read. *)
Theorem parseSilenceOutput_line_by_line `{lib : GoLib} (first rest : string) :
  parseSilenceOutput (first +++ newline +++ rest) =
  (fst (parseSilenceOutput first) ++ fst (parseSilenceOutput rest), None).
Proof.
  unfold parseSilenceOutput. rewrite Split_app. simpl fst.
  rewrite !lines_loop. simpl. now rewrite flat_map_app.
Qed.

(** An output in which "silence_end:" does not occur gives no silence
    point. *)
Theorem parseSilenceOutput_without_marker `{lib : GoLib} (output : string) :
  Strings.Contains output "silence_end:" = false ->
  parseSilenceOutput output = ([], None).
Proof.
  intros Hno. unfold parseSilenceOutput. rewrite lines_loop. cbn [app]. f_equal.
  assert (Hlines : forall line, In line (Strings.Split output newline) ->
            after_marker (Strings.Fields line) = []).
  { intros line Hline.
    destruct (after_marker (Strings.Fields line)) as [|t l] eqn:Ha;
      [reflexivity|].
    exfalso.
    assert (Hin : In "silence_end:" (Strings.Fields line)).
    { apply after_marker_In. rewrite Ha. discriminate. }
    apply Fields_occur in Hin.
    unfold Strings.Split in Hline. cbn [newline] in Hline.
    apply (split_from_occur output "" line) in Hline. simpl in Hline.
    pose proof (Contains_occurs _ _ (occurs_in_trans _ _ _ Hin Hline)) as Hc.
    congruence. }
  induction (Strings.Split output newline) as [|line lines IH]; [reflexivity|].
  simpl. rewrite (Hlines line) by now left. simpl.
  apply IH. intros l Hl. apply Hlines. now right.
Qed.

Lemma parseSilenceOutput_without_marker_witness :
  let output := "[silencedetect @ 0x5581] silence_start: 7.3" +++ newline +++
                "size=N/A time=00:01:40.00 bitrate=N/A speed= 912x" in
  parseSilenceOutput (lib := example_lib) output = ([], None).
Proof.
  intros output.
  apply (parseSilenceOutput_without_marker (lib := example_lib) output).
  reflexivity.
Defined.

(** ** Carriage returns *)

(** The carriage return. *)
Definition CR : string := String (ascii_of_N 13) "".

Lemma space_width_CR (s : string) :
  s <> "" -> Strings.space_width (s +++ CR) = Strings.space_width s.
Proof.
  intros Hs. destruct s as [|c [|d1 [|d2 r]]]; [contradiction | | | reflexivity].
  - cbn [String.append CR Strings.space_width].
    destruct (Strings.ascii_space c); [reflexivity|].
    change (N_of_ascii (ascii_of_N 13)) with 13%N.
    cbn [N.eqb Pos.eqb orb]. now rewrite andb_false_r.
  - cbn [String.append CR Strings.space_width].
    destruct (Strings.ascii_space c); [reflexivity|].
    destruct ((N_of_ascii c =? 194)%N &&
              ((N_of_ascii d1 =? 133)%N || (N_of_ascii d1 =? 160)%N));
      [reflexivity|].
    change (N_of_ascii (ascii_of_N 13)) with 13%N.
    cbn [N.eqb N.leb N.compare Pos.eqb Pos.compare Pos.compare_cont orb andb].
    now rewrite !andb_false_r.
Qed.

(** A carriage return at the end of a line adds no field and changes
    none. *)
Lemma fields_from_CR (s : string) : forall (skip : nat) (cur : string),
  Strings.fields_from (s +++ CR) skip cur = Strings.fields_from s skip cur.
Proof.
  induction s as [|c s IH]; intros skip cur.
  - destruct skip as [|k]; simpl; [now rewrite app_nil_r | reflexivity].
  - change (String c s +++ CR) with (String c (s +++ CR)).
    cbn [Strings.fields_from]. destruct skip as [|k]; [|apply IH].
    change (String c (s +++ CR)) with (String c s +++ CR).
    rewrite space_width_CR by discriminate.
    destruct (Strings.space_width (String c s)); now rewrite IH.
Qed.

Lemma one_line_CR (l : string) : one_line l -> one_line (l +++ CR).
Proof. intros H. apply one_line_app; [exact H | reflexivity]. Qed.

(** Lines that end in a carriage return and a line feed give the silence
    points of the same lines ended by a line feed alone. *)
Theorem parseSilenceOutput_ignores_carriage_returns `{lib : GoLib}
    (lines : list string) :
  Forall one_line lines ->
  parseSilenceOutput (join (map (fun l => l +++ CR +++ newline) lines)) =
  parseSilenceOutput (join (map (fun l => l +++ newline) lines)).
Proof.
  intros H. unfold parseSilenceOutput. f_equal.
  rewrite (Split_lines lines H).
  assert (E : map (fun l => l +++ CR +++ newline) lines =
              map (fun l => l +++ newline) (map (fun l => l +++ CR) lines)).
  { rewrite map_map. apply map_ext. intros l. now rewrite string_app_assoc. }
  rewrite E, Split_lines; clear E.
  - rewrite !lines_loop. cbn [app]. rewrite !flat_map_app. f_equal.
    clear H. induction lines as [|l lines IH]; [reflexivity|].
    cbn [map flat_map]. rewrite IH. f_equal.
    unfold Strings.Fields. now rewrite fields_from_CR.
  - apply Forall_forall. intros l Hl.
    apply list_elem_of_In, in_map_iff in Hl. destruct Hl as (l0 & <- & Hl0).
    apply one_line_CR.
    apply (proj1 (Forall_forall _ _) H). now apply list_elem_of_In.
Qed.

Lemma parseSilenceOutput_ignores_carriage_returns_witness :
  let lines := ["[silencedetect @ 0x5581] silence_end: 12.5 | silence_duration: 5.2";
                "[silencedetect @ 0x5581] silence_end: 45 | silence_duration: 6"] in
  Forall one_line lines /\
  parseSilenceOutput (lib := example_lib)
    (join (map (fun l => l +++ CR +++ newline) lines)) =
  parseSilenceOutput (lib := example_lib)
    (join (map (fun l => l +++ newline) lines)).
Proof.
  intros lines.
  assert (H : Forall one_line lines) by (repeat constructor).
  split; [exact H|].
  apply (parseSilenceOutput_ignores_carriage_returns (lib := example_lib) lines H).
Defined.

(** ** Reading back what the formatting verbs print *)

Lemma digit_char_code (d : N) :
  (d < 10)%N -> N_of_ascii (Fmt.digit_char d) = (48 + d)%N.
Proof. intros H. unfold Fmt.digit_char. apply N_ascii_embedding. lia. Qed.

Lemma parse_digits_digit (d : N) (rest : string) (acc : N) :
  (d < 10)%N ->
  parse_digits (String (Fmt.digit_char d) rest) acc =
  parse_digits rest (acc * 10 + d)%N.
Proof.
  intros H. cbn [parse_digits]. cbv zeta. rewrite digit_char_code by exact H.
  replace ((48 <=? 48 + d) && (48 + d <=? 57))%N with true.
  - f_equal. lia.
  - symmetry. apply andb_true_intro. split; apply N.leb_le; lia.
Qed.

(** The digits that [digits_fuel] puts in front of [acc] read as [n]. *)
Lemma parse_digits_fuel (fuel : nat) : forall (n : N) (acc : string),
  (n < 2 ^ N.of_nat fuel)%N ->
  exists k : N, forall a : N,
    parse_digits (Fmt.digits_fuel fuel n acc) a =
    parse_digits acc (a * 10 ^ k + n)%N.
Proof.
  induction fuel as [|fuel IH]; intros n acc Hn.
  - simpl in Hn. exists 0%N. intros a. simpl. f_equal. lia.
  - assert (Hmod : (n mod 10 < 10)%N) by (apply N.mod_lt; discriminate).
    pose proof (N.div_mod n 10 ltac:(discriminate)) as Hdm.
    cbn [Fmt.digits_fuel]. cbv zeta.
    destruct (n / 10 =? 0)%N eqn:E.
    + apply N.eqb_eq in E. exists 1%N. intros a.
      rewrite parse_digits_digit by exact Hmod. f_equal.
      rewrite N.pow_1_r. lia.
    + assert (Hdiv : (n / 10 < 2 ^ N.of_nat fuel)%N).
      { apply N.Div0.div_lt_upper_bound.
        rewrite Nat2N.inj_succ, N.pow_succ_r' in Hn. lia. }
      destruct (IH (n / 10)%N (String (Fmt.digit_char (n mod 10)) acc) Hdiv)
        as [k Hk].
      exists (k + 1)%N. intros a. rewrite Hk.
      rewrite parse_digits_digit by exact Hmod. f_equal.
      rewrite N.pow_add_r, N.pow_1_r. lia.
Qed.

Lemma parse_itoa (n : N) : parse_digits (Fmt.itoa n) 0 = Some n.
Proof.
  unfold Fmt.itoa.
  destruct (parse_digits_fuel (S (N.to_nat (N.log2 n))) n "") as [k Hk].
  - rewrite Nat2N.inj_succ, N2Nat.id.
    destruct n as [|p]; [reflexivity|].
    apply N.log2_spec. reflexivity.
  - rewrite Hk. simpl. f_equal.
Qed.

Lemma parse_zeros (k : nat) (s : string) :
  parse_digits (Fmt.zeros k +++ s) 0 = parse_digits s 0.
Proof. induction k as [|k IH]; [reflexivity | exact IH]. Qed.

(** Two numbers that print alike, each behind its zeros, are equal. *)
Lemma pad_zero_itoa_inj (w w' : nat) (n n' : N) :
  Fmt.pad_zero w (Fmt.itoa n) = Fmt.pad_zero w' (Fmt.itoa n') -> n = n'.
Proof.
  intros H. apply (f_equal (fun s => parse_digits s 0)) in H.
  unfold Fmt.pad_zero in H. rewrite !parse_zeros, !parse_itoa in H.
  now injection H.
Qed.

Lemma itoa_inj (n n' : N) : Fmt.itoa n = Fmt.itoa n' -> n = n'.
Proof.
  intros H. apply (f_equal (fun s => parse_digits s 0)) in H.
  rewrite !parse_itoa in H. now injection H.
Qed.

(** A byte that is no digit. *)
Definition no_digit (c : ascii) : Prop :=
  (N_of_ascii c < 48)%N \/ (57 < N_of_ascii c)%N.

Section NoDigit.

Variable c : ascii.
Hypothesis c_no_digit : no_digit c.

Lemma digit_char_other (d : N) :
  (d < 10)%N -> Ascii.eqb c (Fmt.digit_char d) = false.
Proof.
  intros Hd. apply Ascii.eqb_neq. intros E.
  unfold no_digit in c_no_digit. rewrite E, digit_char_code in c_no_digit by exact Hd.
  lia.
Qed.

Lemma digits_fuel_no_byte (fuel : nat) : forall (n : N) (acc : string),
  has_byte c acc = false -> has_byte c (Fmt.digits_fuel fuel n acc) = false.
Proof.
  induction fuel as [|fuel IH]; intros n acc Hacc; simpl; [exact Hacc|].
  assert (Hacc' : has_byte c (String (Fmt.digit_char (n mod 10)) acc) = false).
  { cbn [has_byte]. rewrite digit_char_other.
    - exact Hacc.
    - apply N.mod_lt. discriminate. }
  destruct (n / 10 =? 0)%N; [exact Hacc' | now apply IH].
Qed.

Lemma itoa_no_byte (n : N) : has_byte c (Fmt.itoa n) = false.
Proof. apply digits_fuel_no_byte. reflexivity. Qed.

Lemma zeros_no_byte (k : nat) : has_byte c (Fmt.zeros k) = false.
Proof.
  induction k as [|k IH]; [reflexivity|].
  cbn [Fmt.zeros has_byte]. rewrite IH, orb_false_r.
  apply (digit_char_other 0). reflexivity.
Qed.

Lemma pad_zero_no_byte (width : nat) (n : N) :
  has_byte c (Fmt.pad_zero width (Fmt.itoa n)) = false.
Proof.
  unfold Fmt.pad_zero. now rewrite has_byte_app, zeros_no_byte, itoa_no_byte.
Qed.

(** Two texts that agree up to and after the first [c]. *)
Lemma app_separator_inj (u : string) : forall (v x y : string),
  has_byte c u = false -> has_byte c v = false ->
  u +++ String c x = v +++ String c y -> u = v /\ x = y.
Proof.
  induction u as [|d u IH]; intros v x y Hu Hv H.
  - destruct v as [|e v]; simpl in H.
    + injection H as <-. now split.
    + injection H as <- _. cbn [has_byte] in Hv.
      rewrite Ascii.eqb_refl in Hv. discriminate.
  - destruct v as [|e v]; simpl in H.
    + injection H as -> _. cbn [has_byte] in Hu.
      rewrite Ascii.eqb_refl in Hu. discriminate.
    + injection H as <- H. cbn [has_byte] in Hu, Hv.
      apply orb_false_iff in Hu. apply orb_false_iff in Hv.
      destruct (IH v x y (proj2 Hu) (proj2 Hv) H) as [-> ->]. now split.
Qed.

End NoDigit.

Lemma string_app_inv_head (p s t : string) : p +++ s = p +++ t -> s = t.
Proof.
  induction p as [|c p IH]; simpl; [tauto|].
  intros H. injection H as H. now apply IH.
Qed.

(** ** Rounding to the nearest integer *)

Lemma round_half_even_near (q : Q) :
  inject_Z (Fmt.round_half_even q) - (1 # 2) <= q /\
  q <= inject_Z (Fmt.round_half_even q) + (1 # 2).
Proof.
  unfold Fmt.round_half_even.
  pose proof (Qfloor_le q) as Hlo. pose proof (Qlt_floor q) as Hhi.
  rewrite inject_Z_plus in Hhi. change (inject_Z 1) with 1 in Hhi.
  destruct (Qcompare (q - inject_Z (Qfloor q)) (1 # 2)) eqn:E.
  - apply Qeq_alt in E.
    destruct (Z.even (Qfloor q));
      [|rewrite inject_Z_plus; change (inject_Z 1) with 1]; split; lra.
  - apply Qlt_alt in E. split; lra.
  - apply Qgt_alt in E. rewrite inject_Z_plus. change (inject_Z 1) with 1.
    split; lra.
Qed.

Lemma round_half_even_nonneg (q : Q) :
  0 <= q -> (0 <= Fmt.round_half_even q)%Z.
Proof.
  intros Hq. unfold Fmt.round_half_even.
  assert (H0 : (0 <= Qfloor q)%Z).
  { change 0%Z with (Qfloor 0). now apply Qfloor_resp_le. }
  destruct (Qcompare _ _); [destruct (Z.even _) | |]; lia.
Qed.

(** ** The verbs of the file names *)

Lemma d03_of_nat (j : nat) :
  Fmt.d03 (Z.of_nat j) = Fmt.pad_zero 3 (Fmt.itoa (N.of_nat j)).
Proof.
  unfold Fmt.d03.
  replace (Z.of_nat j <? 0)%Z with false by (symmetry; apply Z.ltb_ge; lia).
  now rewrite <- nat_N_Z, N2Z.id.
Qed.

(** The verb [%.1f] on a number that is not negative: the tenths, cut in
    two around the point. *)
Lemma f1_nonneg (x : float64) :
  0 <= x ->
  let m := Fmt.round_half_even (x * inject_Z 10) in
  (0 <= m)%Z /\
  Fmt.f 1 x =
  Fmt.itoa (Z.to_N (m / 10)) +++ "." +++
  Fmt.pad_zero 1 (Fmt.itoa (Z.to_N (m mod 10))).
Proof.
  intros Hx m.
  assert (Hm : (0 <= m)%Z).
  { apply round_half_even_nonneg.
    apply Qmult_le_0_compat; [exact Hx | discriminate]. }
  split; [exact Hm|].
  unfold Fmt.f.
  assert (Hsign : Qlt_bool x 0 = false).
  { unfold Qlt_bool. apply negb_false_iff. now apply Qle_bool_iff. }
  rewrite Hsign.
  assert (Habs : Qabs x * inject_Z (10 ^ Z.of_nat 1) == x * inject_Z 10).
  { rewrite Qabs_pos by exact Hx. reflexivity. }
  assert (Hr : Fmt.round_half_even (Qabs x * inject_Z (10 ^ Z.of_nat 1)) = m).
  { unfold m, Fmt.round_half_even.
    rewrite (Qfloor_comp _ _ Habs).
    assert (Hc : Qcompare (Qabs x * inject_Z (10 ^ Z.of_nat 1) -
                           inject_Z (Qfloor (x * inject_Z 10))) (1 # 2) =
                 Qcompare (x * inject_Z 10 -
                           inject_Z (Qfloor (x * inject_Z 10))) (1 # 2)).
    { apply Qcompare_comp; [|reflexivity]. now rewrite Habs. }
    now rewrite Hc. }
  rewrite Hr. reflexivity.
Qed.

Lemma dot_no_digit : no_digit ".".
Proof. left. reflexivity. Qed.

Lemma dash_no_digit : no_digit "-".
Proof. left. reflexivity. Qed.

Lemma underscore_no_digit : no_digit "_".
Proof. right. reflexivity. Qed.

(** Two numbers that are not negative and print alike with one decimal are
    no more than a tenth apart. *)
Lemma f1_near (x y : float64) :
  0 <= x -> 0 <= y -> Fmt.f 1 x = Fmt.f 1 y ->
  x - y <= 1 # 10 /\ y - x <= 1 # 10.
Proof.
  intros Hx Hy H.
  destruct (f1_nonneg x Hx) as [Hmx Ex]. destruct (f1_nonneg y Hy) as [Hmy Ey].
  rewrite Ex, Ey in H. clear Ex Ey.
  set (mx := Fmt.round_half_even (x * inject_Z 10)) in *.
  set (my := Fmt.round_half_even (y * inject_Z 10)) in *.
  apply (app_separator_inj ".") in H;
    [| apply itoa_no_byte, dot_no_digit | apply itoa_no_byte, dot_no_digit].
  destruct H as [Hint Hfrac].
  apply itoa_inj in Hint. apply pad_zero_itoa_inj in Hfrac.
  assert (Hm : mx = my).
  { pose proof (Z.div_mod mx 10 ltac:(discriminate)) as Dx.
    pose proof (Z.div_mod my 10 ltac:(discriminate)) as Dy.
    pose proof (Z.mod_pos_bound mx 10 ltac:(reflexivity)) as Bx.
    pose proof (Z.mod_pos_bound my 10 ltac:(reflexivity)) as By.
    assert (Qx : (0 <= mx / 10)%Z) by (apply Z.div_pos; lia).
    assert (Qy : (0 <= my / 10)%Z) by (apply Z.div_pos; lia).
    apply (f_equal Z.of_N) in Hint, Hfrac.
    rewrite !Z2N.id in Hint, Hfrac by lia. lia. }
  pose proof (round_half_even_near (x * inject_Z 10)) as Nx.
  pose proof (round_half_even_near (y * inject_Z 10)) as Ny.
  fold mx in Nx. fold my in Ny. rewrite Hm in Nx.
  assert (E10 : inject_Z 10 == 10) by reflexivity.
  rewrite E10 in Nx, Ny. lra.
Qed.

Section FileNames.

Context {lib : GoLib}.
Variable a : AudioAnalyzer.

(** The file names of two segments built by [createSegment] for starts that
    are not negative agree only when the indices agree and the starts print
    alike. *)
Lemma Filename_createSegment_inj (s1 e1 s2 e2 : float64) (j1 j2 : nat) :
  0 <= s1 -> 0 <= s2 ->
  Filename (createSegment a s1 e1 (Z.of_nat j1)) =
  Filename (createSegment a s2 e2 (Z.of_nat j2)) ->
  j1 = j2 /\ Fmt.f 1 s1 = Fmt.f 1 s2.
Proof.
  intros H1 H2 H. cbn [createSegment Filename] in H.
  apply string_app_inv_head in H. rewrite !d03_of_nat in H.
  apply (app_separator_inj "_") in H;
    [| apply pad_zero_no_byte, underscore_no_digit
     | apply pad_zero_no_byte, underscore_no_digit].
  destruct H as [Hindex Hrest].
  apply pad_zero_itoa_inj in Hindex. apply Nat2N.inj in Hindex.
  split; [exact Hindex|].
  assert (Hf : forall x, 0 <= x -> has_byte "-" (Fmt.f 1 x) = false).
  { intros x Hx. destruct (f1_nonneg x Hx) as [_ ->].
    rewrite !has_byte_app.
    rewrite (itoa_no_byte "-" dash_no_digit).
    rewrite (pad_zero_no_byte "-" dash_no_digit). reflexivity. }
  apply (app_separator_inj "-") in Hrest;
    [| now apply Hf | now apply Hf].
  exact (proj1 Hrest).
Qed.

End FileNames.

(** No two segments of a plan share a file name, so the extractions never
    write the same file twice and every transcription reads the file of its
    own segment: the index in a name can repeat, but then the starts are
    more than a tenth of a second apart and print differently. With a
    [filepath.Join] that keeps different names apart the file paths differ
    as well. *)
Theorem plan_file_names_differ `{lib : GoLib} (a : AudioAnalyzer)
    (silencePoints : list float64) (totalDuration : float64)
    (i j : nat) (p q : AudioSegment) :
  0 < MaxSegmentDuration a ->
  plan_segments a silencePoints totalDuration !! i = Some p ->
  plan_segments a silencePoints totalDuration !! j = Some q ->
  i <> j ->
  Filename p <> Filename q /\
  ((forall x y, filepath_Join (OutputDir a) x = filepath_Join (OutputDir a) y ->
                x = y) ->
   FilePath p <> FilePath q).
Proof.
  intros Hmax Hp Hq Hij.
  set (raw := raw_segments a silencePoints totalDuration).
  assert (Hnum : forall k s,
            plan_segments a silencePoints totalDuration !! k = Some s ->
            numbered a raw k s).
  { intros k s Hs.
    apply (fold_split_body_numbered a raw Hmax
             (raw_segments_sequential a silencePoints totalDuration)
             raw [] []).
    - reflexivity.
    - simpl. lia.
    - intros k' s' H'. destruct k'; discriminate.
    - exact Hs. }
  destruct (raw_segments_chain a silencePoints totalDuration) as [hr Hraw].
  fold raw in Hraw.
  destruct (plan_segments_chain a Hmax silencePoints totalDuration) as [hi Hplan].
  assert (Hnames : forall i j p q, (i < j)%nat ->
            plan_segments a silencePoints totalDuration !! i = Some p ->
            plan_segments a silencePoints totalDuration !! j = Some q ->
            Filename p <> Filename q).
  { clear i j p q Hp Hq Hij. intros i j p q Hij Hp Hq Hsame.
    pose proof (chain_ordered _ _ _ _ Hplan i j p q Hij Hp Hq) as Hord.
    assert (Hpin : In p (plan_segments a silencePoints totalDuration)).
    { apply list_elem_of_In. eapply list_elem_of_lookup_2. exact Hp. }
    assert (Hqin : In q (plan_segments a silencePoints totalDuration)).
    { apply list_elem_of_In. eapply list_elem_of_lookup_2. exact Hq. }
    destruct (chain_In _ _ _ _ _ Hplan Hpin) as ((Hwfp & Hposp & Hlep) & Hp0 & _).
    destruct (chain_In _ _ _ _ _ Hplan Hqin) as (_ & Hq0 & _).
    destruct (Hnum i p Hp) as (jp & Hjp & Hnp & Hcp).
    destruct (Hnum j q Hq) as (jq & Hjq & Hnq & Hcq).
    rewrite Hnp, Hnq in Hsame.
    apply Filename_createSegment_inj in Hsame; [|exact Hp0 | exact Hq0].
    destruct Hsame as [Hindex Hprint].
    destruct (f1_near _ _ Hp0 Hq0 Hprint) as [_ Hnear].
    unfold well_formed in Hwfp.
    assert (Hshort : Duration p <= 1 # 10) by lra.
    assert (Hsmall : MaxSegmentDuration a < 10 \/ 10 <= Duration p).
    { destruct (Qlt_le_dec (MaxSegmentDuration a) 10) as [H | H]; [now left|].
      right.
      unfold plan_segments, splitLongSegments in Hpin.
      apply fold_split_body_In in Hpin.
      destruct Hpin as [[] | (segment & Hseg & Hcase)].
      destruct (chain_In _ _ _ _ _ Hraw Hseg) as ((Hwf & Hlen) & _).
      destruct Hcase as [[_ ->] | [Hlong [base Hpc]]]; [exact Hlen|].
      exfalso.
      rewrite (pieces_Duration a segment base p Hmax Hwf Hlong Hpc) in Hshort.
      destruct (splitDuration_half (Duration segment) (MaxSegmentDuration a)
                  Hmax Hlong) as [Hhalf _].
      assert (E : MaxSegmentDuration a / 2 == (1 # 2) * MaxSegmentDuration a)
        by field.
      rewrite E in Hhalf. lra. }
    destruct Hsmall as [Hsmall | Hlong]; [|lra].
    assert (Hpass : forall (s : AudioSegment) (jk : nat),
              Duration s <= MaxSegmentDuration a /\ raw !! jk = Some s -> False).
    { intros s jk [Hle Hs].
      assert (Hin : In s raw).
      { apply list_elem_of_In. eapply list_elem_of_lookup_2. exact Hs. }
      destruct (chain_In _ _ _ _ _ Hraw Hin) as ((_ & Hlen) & _). lra. }
    destruct Hcp as [-> | Hcp]; [|exact (Hpass p jp Hcp)].
    destruct Hcq as [-> | Hcq]; [|exact (Hpass q jq Hcq)].
    lia. }
  assert (Hne : Filename p <> Filename q).
  { destruct (Nat.lt_total i j) as [Hlt | [Heq | Hgt]]; [| contradiction |].
    - now apply (Hnames i j p q).
    - intros E. symmetry in E. revert E. now apply (Hnames j i q p). }
  split; [exact Hne|].
  intros Hjoin E.
  destruct (Hnum i p Hp) as (jp & _ & Hnp & _).
  destruct (Hnum j q Hq) as (jq & _ & Hnq & _).
  rewrite (named_FilePath a jp p Hnp), (named_FilePath a jq q Hnq) in E.
  apply Hjoin in E. contradiction.
Qed.

Lemma plan_file_names_differ_witness :
  let a := example_analyzer in
  let p := createSegment (lib := example_lib) a 35 70 1 in
  let q := createSegment (lib := example_lib) a 70 85 1 in
  0 < MaxSegmentDuration a /\
  map Filename (plan_segments (lib := example_lib) a [70] 85) =
    ["segment_000_0.0-35.0.wav"; Filename p; Filename q] /\
  Filename p <> Filename q.
Proof.
  intros a p q.
  assert (Hmax : 0 < MaxSegmentDuration a) by reflexivity.
  split; [exact Hmax|]. split; [reflexivity|].
  destruct (lookup_lt_is_Some_2 (plan_segments (lib := example_lib) a [70] 85)
              1%nat ltac:(vm_compute; lia)) as [p' Hp'].
  destruct (lookup_lt_is_Some_2 (plan_segments (lib := example_lib) a [70] 85)
              2%nat ltac:(vm_compute; lia)) as [q' Hq'].
  destruct (plan_file_names_differ (lib := example_lib) a [70] 85 1 2 p' q'
              Hmax Hp' Hq' ltac:(discriminate)) as [Hne _].
  assert (Ep : Filename p' = Filename p).
  { vm_compute in Hp'. injection Hp' as <-. reflexivity. }
  assert (Eq' : Filename q' = Filename q).
  { vm_compute in Hq'. injection Hq' as <-. reflexivity. }
  now rewrite <- Ep, <- Eq'.
Defined.

(** * The cleaner of utils/reset.go

    [Clean] walks the tree under ./output with [filepath.Walk] and removes
    the audio files it finds.

    Conventions of the embedding.
    - The tree is what [os.Lstat] and the reading of directories answer
      during the walk: an entry is a directory with its entries in the order
      of the walk, the lexical one, or a directory that cannot be read, or
      an entry on which [os.Lstat] fails, or anything else, a file. The
      removals of the walk do not change these answers: a removal touches
      the file being visited, after its directory has been read.
    - [os.Remove] answers for a path, the same whenever it is asked.
    - [strings.ToLower] maps runes through the tables of Unicode; it is a
      parameter, and a theorem that needs it says what it needs: that on a
      text of ASCII bytes it lowers the letters A to Z and nothing else.
    - An error of the file system is none of the values [filepath.SkipDir]
      and [filepath.SkipAll]. *)

Class GoUnicode : Type := {
  (** [strings.ToLower]. *)
  strings_ToLower : string -> string
}.

Module Utils.

(** [strings.HasSuffix(s, suffix)]: [len(s) >= len(suffix)] and the last
    [len(suffix)] bytes of [s] are [suffix]. *)
Definition HasSuffix (s suffix : string) : bool :=
  (String.length suffix <=? String.length s)%nat &&
  String.eqb
    (substring (String.length s - String.length suffix)
       (String.length suffix) s)
    suffix.

Inductive entry : Type :=
| File (name : string)
| Dir (name : string) (entries : list entry)
| Unreadable (name : string) (err : error)
| Broken (name : string) (err : error).

Definition entry_name (e : entry) : string :=
  match e with
  | File name => name
  | Dir name _ => name
  | Unreadable name _ => name
  | Broken name _ => name
  end.

Record Disk : Type := {
  (** What stands at ./output. *)
  output : entry;
  (** [os.Remove(path)]. *)
  os_Remove : string -> option error
}.

(** What [Clean] does that can be seen: a line printed, a call of
    [os.Remove] with its answer, a line handed to [log.Printf]. *)
Inductive event : Type :=
| Printed (text : string)
| Removal (path : string) (answer : option error)
| Logged (text : string).

Definition dir : string := "./output".

Definition extensions : list string :=
  [".mp3"; ".wav"; ".m4a"; ".flac"; ".aac"].

(** A loop over entries that stops at the first error. *)
Fixpoint visit_all {A : Type} (visit : A -> list event * option error)
    (l : list A) : list event * option error :=
  match l with
  | [] => ([], None)
  | x :: rest =>
      let '(done, err) := visit x in
      match err with
      | Some e => (done, Some e)
      | None =>
          let '(more, err') := visit_all visit rest in
          (done ++ more, err')
      end
  end.

Section Clean.

Context {lib : GoLib} {uni : GoUnicode}.
Variable d : Disk.

(** The loop over the extensions for a file, with its [break]. *)
Fixpoint extension_loop (path name : string) (exts : list string)
    : list event :=
  match exts with
  | [] => []
  | ext :: rest =>
      if HasSuffix (strings_ToLower name) ext then
        Printed ("削除: " +++ path +++ newline) ::
        Removal path (os_Remove d path) ::
        match os_Remove d path with
        | Some err => [Logged ("削除失敗: " +++ path +++ " (" +++ err +++ ")")]
        | None => []
        end
      else extension_loop path name rest
  end.

(** [filepath.Walk] with the function that [Clean] hands to it, from the
    entry [e] found at [path]: what has been done, and the error that
    stopped the walk. *)
Fixpoint walk (path : string) (e : entry) {struct e}
    : list event * option error :=
  match e with
  | File name => (extension_loop path name extensions, None)
  | Dir _ entries =>
      visit_all
        (fun child => walk (filepath_Join path (entry_name child)) child)
        entries
  | Unreadable _ err => ([], Some err)
  | Broken _ err => ([], Some err)
  end.

(** The entry at ./output as the walk sees it: its name is the last element
    of the path. *)
Definition root : entry :=
  match output d with
  | File _ => File "output"
  | e => e
  end.

Record cleaned : Type := {
  events : list event;
  (** The message of [log.Fatalf], which ends the process. *)
  fatal : option string
}.

(** [Clean]. *)
Definition Clean : cleaned :=
  let '(done, err) := walk dir root in
  {| events := done;
     fatal := match err with
              | Some e => Some ("エラー: " +++ e)
              | None => None
              end |}.

End Clean.

End Utils.

(** ** Facts on the walk *)

Section CleanFacts.

Context {lib : GoLib} {uni : GoUnicode}.
Variable d : Utils.Disk.

Lemma entry_induction (P : Utils.entry -> Prop) :
  (forall name, P (Utils.File name)) ->
  (forall name entries, Forall P entries -> P (Utils.Dir name entries)) ->
  (forall name err, P (Utils.Unreadable name err)) ->
  (forall name err, P (Utils.Broken name err)) ->
  forall e, P e.
Proof.
  intros HF HD HU HB. fix IH 1. intros [name | name entries | name err | name err].
  - apply HF.
  - apply HD. induction entries as [|c l IHl]; constructor; [apply IH | exact IHl].
  - apply HU.
  - apply HB.
Qed.

(** Every entry of the tree can be read. *)
Inductive readable : Utils.entry -> Prop :=
| readable_File name : readable (Utils.File name)
| readable_Dir name entries :
    Forall readable entries -> readable (Utils.Dir name entries).

(** The files of the tree, each with its path and its name, in the order of
    the walk. *)
Fixpoint files (path : string) (e : Utils.entry) {struct e}
    : list (string * string) :=
  match e with
  | Utils.File name => [(path, name)]
  | Utils.Dir _ entries =>
      flat_map
        (fun child => files (filepath_Join path (Utils.entry_name child)) child)
        entries
  | _ => []
  end.

(** A name that ends, lowered, with one of the extensions. *)
Definition wanted (name : string) : bool :=
  existsb (fun ext => Utils.HasSuffix (strings_ToLower name) ext)
    Utils.extensions.

(** What [Clean] does for one file. *)
Definition handle (file : string * string) : list Utils.event :=
  let '(path, name) := file in
  if wanted name then
    Utils.Printed ("削除: " +++ path +++ newline) ::
    Utils.Removal path (Utils.os_Remove d path) ::
    match Utils.os_Remove d path with
    | Some err =>
        [Utils.Logged ("削除失敗: " +++ path +++ " (" +++ err +++ ")")]
    | None => []
    end
  else [].

(** The paths handed to [os.Remove], in their order. *)
Fixpoint removals (l : list Utils.event) : list string :=
  match l with
  | [] => []
  | Utils.Removal path _ :: rest => path :: removals rest
  | _ :: rest => removals rest
  end.

Lemma removals_app (l1 l2 : list Utils.event) :
  removals (l1 ++ l2) = removals l1 ++ removals l2.
Proof.
  induction l1 as [|e l1 IH]; [reflexivity|].
  destruct e; simpl; now rewrite IH.
Qed.

Lemma extension_loop_handle (path name : string) (exts : list string) :
  Utils.extension_loop d path name exts =
  if existsb (fun ext => Utils.HasSuffix (strings_ToLower name) ext) exts
  then Utils.Printed ("削除: " +++ path +++ newline) ::
       Utils.Removal path (Utils.os_Remove d path) ::
       match Utils.os_Remove d path with
       | Some err =>
           [Utils.Logged ("削除失敗: " +++ path +++ " (" +++ err +++ ")")]
       | None => []
       end
  else [].
Proof.
  induction exts as [|ext rest IH]; [reflexivity|].
  cbn [Utils.extension_loop existsb].
  destruct (Utils.HasSuffix (strings_ToLower name) ext); [reflexivity | exact IH].
Qed.

Lemma walk_File (path name : string) :
  Utils.walk d path (Utils.File name) = (handle (path, name), None).
Proof.
  cbn [Utils.walk]. rewrite extension_loop_handle. reflexivity.
Qed.

Lemma removals_handle (file : string * string) :
  removals (handle file) = if wanted (snd file) then [fst file] else [].
Proof.
  destruct file as [path name]. unfold handle. simpl.
  destruct (wanted name); [|reflexivity].
  simpl. destruct (Utils.os_Remove d path); reflexivity.
Qed.

(** On a tree that can be read the walk handles every file and goes to the
    end. *)
Lemma walk_readable (e : Utils.entry) : forall path : string,
  readable e ->
  Utils.walk d path e = (flat_map handle (files path e), None).
Proof.
  induction e as [name | name entries IH | name err | name err]
    using entry_induction; intros path Hr.
  - rewrite walk_File. simpl. now rewrite app_nil_r.
  - inversion Hr as [|? ? Hall]; subst. clear Hr. cbn [Utils.walk files].
    induction entries as [|c l IHl]; [reflexivity|].
    inversion IH as [|? ? Hc Hl]; subst.
    inversion Hall as [|? ? Hrc Hrl]; subst.
    cbn [Utils.visit_all flat_map].
    rewrite (Hc _ Hrc). rewrite (IHl Hl Hrl).
    now rewrite flat_map_app.
  - inversion Hr.
  - inversion Hr.
Qed.

(** The walk reports an error exactly when an entry cannot be read. *)
Lemma walk_error (e : Utils.entry) : forall path : string,
  snd (Utils.walk d path e) = None <-> readable e.
Proof.
  induction e as [name | name entries IH | name err | name err]
    using entry_induction; intros path.
  - split; [intros _; constructor | reflexivity].
  - cbn [Utils.walk]. split.
    + intros H. constructor. revert H.
      induction entries as [|c l IHl]; intros H; [constructor|].
      inversion IH as [|? ? Hc Hl]; subst.
      cbn [Utils.visit_all] in H.
      destruct (Utils.walk d (filepath_Join path (Utils.entry_name c)) c)
        as [done [e|]] eqn:Ec; [discriminate|].
      destruct (Utils.visit_all _ l) as [more err'] eqn:El.
      simpl in H. subst err'.
      constructor.
      * apply (Hc (filepath_Join path (Utils.entry_name c))).
        now rewrite Ec.
      * apply IHl; [exact Hl | reflexivity].
    + intros Hr.
      pose proof (walk_readable (Utils.Dir name entries) path Hr) as E.
      cbn [Utils.walk] in E. now rewrite E.
  - split; [discriminate | intros H; inversion H].
  - split; [discriminate | intros H; inversion H].
Qed.

(** Whatever the tree, [os.Remove] is called on files only, and on files
    with a wanted name. *)
Lemma walk_removals_sound (e : Utils.entry) : forall (path p : string)
    (answer : option error),
  In (Utils.Removal p answer) (fst (Utils.walk d path e)) ->
  answer = Utils.os_Remove d p /\
  exists name, In (p, name) (files path e) /\ wanted name = true.
Proof.
  induction e as [name | name entries IH | name err | name err]
    using entry_induction; intros path p answer Hin.
  - rewrite walk_File in Hin. simpl in Hin.
    destruct (wanted name) eqn:Ew; [|contradiction].
    destruct Hin as [Hin | [Hin | Hin]].
    + discriminate.
    + injection Hin as <- <-. split; [reflexivity|].
      exists name. split; [now left | exact Ew].
    + destruct (Utils.os_Remove d path); [|contradiction].
      destruct Hin as [Hin | []]. discriminate.
  - cbn [Utils.walk files] in Hin |- *.
    induction entries as [|c l IHl]; [contradiction|].
    inversion IH as [|? ? Hc Hl]; subst.
    cbn [Utils.visit_all flat_map] in Hin |- *.
    destruct (Utils.walk d (filepath_Join path (Utils.entry_name c)) c)
      as [done [e|]] eqn:Ec.
    + simpl in Hin.
      destruct (Hc (filepath_Join path (Utils.entry_name c)) p answer)
        as (Ha & n & Hn & Hw); [now rewrite Ec|].
      split; [exact Ha|]. exists n. split; [|exact Hw].
      apply in_or_app. now left.
    + destruct (Utils.visit_all _ l) as [more err'] eqn:El.
      simpl in Hin. apply in_app_or in Hin. destruct Hin as [Hin | Hin].
      * destruct (Hc (filepath_Join path (Utils.entry_name c)) p answer)
          as (Ha & n & Hn & Hw); [now rewrite Ec|].
        split; [exact Ha|]. exists n. split; [|exact Hw].
        apply in_or_app. now left.
      * destruct (IHl Hl Hin) as (Ha & n & Hn & Hw).
        split; [exact Ha|]. exists n. split; [|exact Hw].
        apply in_or_app. now right.
  - contradiction.
  - contradiction.
Qed.

Lemma readable_root : readable (Utils.root d) <-> readable (Utils.output d).
Proof.
  unfold Utils.root. destruct (Utils.output d); try tauto.
  split; intros _; constructor.
Qed.

End CleanFacts.

(** What [Clean] removes. It ends the process with [log.Fatalf] exactly when
    an entry of the tree cannot be read, the root included. On a tree that
    can be read it calls [os.Remove] once on every file whose lowered name
    ends with one of the five extensions, in the order of the walk, and on
    nothing else: a removal that fails is logged and stops nothing. Whatever
    the tree, it calls [os.Remove] on such files only, never on a directory,
    whatever its name. *)
Theorem Clean_removes_wanted_files `{lib : GoLib} `{uni : GoUnicode}
    (d : Utils.Disk) :
  (Utils.fatal (Utils.Clean d) = None <-> readable (Utils.output d)) /\
  (readable (Utils.output d) ->
   Utils.events (Utils.Clean d) =
     flat_map (handle d) (files Utils.dir (Utils.root d)) /\
   removals (Utils.events (Utils.Clean d)) =
     map fst (List.filter (fun file => wanted (snd file))
                (files Utils.dir (Utils.root d)))) /\
  (forall (p : string) (answer : option error),
     In (Utils.Removal p answer) (Utils.events (Utils.Clean d)) ->
     answer = Utils.os_Remove d p /\
     exists name,
       In (p, name) (files Utils.dir (Utils.root d)) /\ wanted name = true).
Proof.
  unfold Utils.Clean. split_and!.
  - rewrite <- readable_root, <- (walk_error d (Utils.root d) Utils.dir).
    destruct (Utils.walk d Utils.dir (Utils.root d)) as [done [e|]]; simpl;
      split; intros H; try discriminate; reflexivity.
  - intros Hr. apply readable_root in Hr.
    rewrite (walk_readable d (Utils.root d) Utils.dir Hr). simpl.
    split; [reflexivity|].
    induction (files Utils.dir (Utils.root d)) as [|file l IH]; [reflexivity|].
    cbn [flat_map List.filter]. rewrite removals_app, removals_handle, IH.
    destruct (wanted (snd file)); reflexivity.
  - intros p answer Hin.
    apply (walk_removals_sound d (Utils.root d) Utils.dir p answer).
    destruct (Utils.walk d Utils.dir (Utils.root d)) as [done err].
    exact Hin.
Qed.

(** ** The cleaner after the pipeline *)

(** Every byte of [s] satisfies [P]. *)
Fixpoint all_bytes (P : ascii -> bool) (s : string) : bool :=
  match s with
  | EmptyString => true
  | String c rest => P c && all_bytes P rest
  end.

(** A text of ASCII bytes. *)
Definition ascii_only (s : string) : bool :=
  all_bytes (fun c => (N_of_ascii c <? 128)%N) s.

(** The letters A to Z lowered, every other byte kept. *)
Definition lower_byte (c : ascii) : ascii :=
  let n := N_of_ascii c in
  if ((65 <=? n) && (n <=? 90))%N then ascii_of_N (n + 32) else c.

Fixpoint ascii_lower (s : string) : string :=
  match s with
  | EmptyString => EmptyString
  | String c rest => String (lower_byte c) (ascii_lower rest)
  end.

(** What [strings.ToLower] does on a text of ASCII bytes. *)
Definition ToLower_on_ascii (uni : GoUnicode) : Prop :=
  forall s : string, ascii_only s = true -> strings_ToLower s = ascii_lower s.

(** A [strings.ToLower] for the examples, right on ASCII. *)
Definition ascii_unicode : GoUnicode := {| strings_ToLower := ascii_lower |}.

(** An ASCII byte that is no capital letter. *)
Definition plain_byte (c : ascii) : bool :=
  let n := N_of_ascii c in
  ((n <? 128) && negb ((65 <=? n) && (n <=? 90)))%N.

Definition plain (s : string) : Prop := all_bytes plain_byte s = true.

Lemma all_bytes_app (P : ascii -> bool) (s t : string) :
  all_bytes P (s +++ t) = all_bytes P s && all_bytes P t.
Proof.
  induction s as [|c s IH]; simpl; [reflexivity|].
  now rewrite IH, andb_assoc.
Qed.

Lemma plain_app (s t : string) : plain s -> plain t -> plain (s +++ t).
Proof. unfold plain. intros Hs Ht. now rewrite all_bytes_app, Hs, Ht. Qed.

Lemma plain_ascii_only (s : string) : plain s -> ascii_only s = true.
Proof.
  unfold plain, ascii_only. induction s as [|c s IH]; simpl; [reflexivity|].
  intros H. apply andb_prop in H. destruct H as [Hc Hs].
  unfold plain_byte in Hc. apply andb_prop in Hc. destruct Hc as [Hc _].
  now rewrite Hc, IH.
Qed.

Lemma plain_lower (s : string) : plain s -> ascii_lower s = s.
Proof.
  unfold plain. induction s as [|c s IH]; simpl; [reflexivity|].
  intros H. apply andb_prop in H. destruct H as [Hc Hs].
  unfold plain_byte in Hc. apply andb_prop in Hc. destruct Hc as [_ Hc].
  apply negb_true_iff in Hc. unfold lower_byte. rewrite Hc. now rewrite IH.
Qed.

Lemma plain_digit_char (d : N) : (d < 10)%N -> plain_byte (Fmt.digit_char d) = true.
Proof.
  intros Hd. unfold plain_byte. rewrite digit_char_code by exact Hd.
  apply andb_true_intro. split.
  - apply N.ltb_lt. lia.
  - apply negb_true_iff. apply andb_false_intro1. apply N.leb_gt. lia.
Qed.

Lemma plain_digits_fuel (fuel : nat) : forall (n : N) (acc : string),
  plain acc -> plain (Fmt.digits_fuel fuel n acc).
Proof.
  induction fuel as [|fuel IH]; intros n acc Hacc; simpl; [exact Hacc|].
  assert (Hacc' : plain (String (Fmt.digit_char (n mod 10)) acc)).
  { unfold plain. cbn [all_bytes]. rewrite plain_digit_char.
    - exact Hacc.
    - apply N.mod_lt. discriminate. }
  destruct (n / 10 =? 0)%N; [exact Hacc' | now apply IH].
Qed.

Lemma plain_itoa (n : N) : plain (Fmt.itoa n).
Proof. apply plain_digits_fuel. reflexivity. Qed.

Lemma plain_zeros (k : nat) : plain (Fmt.zeros k).
Proof. induction k as [|k IH]; [reflexivity | exact IH]. Qed.

Lemma plain_pad_zero (width : nat) (s : string) :
  plain s -> plain (Fmt.pad_zero width s).
Proof. intros H. apply plain_app; [apply plain_zeros | exact H]. Qed.

Lemma plain_d03 (i : Z) : plain (Fmt.d03 i).
Proof.
  unfold Fmt.d03. destruct (i <? 0)%Z.
  - apply plain_app; [reflexivity | apply plain_pad_zero, plain_itoa].
  - apply plain_pad_zero, plain_itoa.
Qed.

Lemma plain_f (prec : nat) (x : float64) : plain (Fmt.f prec x).
Proof.
  unfold Fmt.f.
  assert (Hsign : plain (if Qlt_bool x 0 then "-" else ""))
    by (destruct (Qlt_bool x 0); reflexivity).
  destruct prec as [|prec].
  - apply plain_app; [exact Hsign | apply plain_itoa].
  - apply plain_app; [exact Hsign|].
    apply plain_app; [apply plain_itoa|].
    apply plain_app; [reflexivity|].
    apply plain_pad_zero, plain_itoa.
Qed.

(** [s] is [suffix] behind some text. *)
Definition ends_with (s suffix : string) : Prop :=
  exists front : string, s = front +++ suffix.

Lemma ends_with_app (front s suffix : string) :
  ends_with s suffix -> ends_with (front +++ s) suffix.
Proof.
  intros [y ->]. exists (front +++ y). now rewrite string_app_assoc.
Qed.

Lemma string_length_app (s t : string) :
  String.length (s +++ t) = (String.length s + String.length t)%nat.
Proof. induction s as [|c s IH]; simpl; [reflexivity | now rewrite IH]. Qed.

Lemma substring_all (s : string) : substring 0 (String.length s) s = s.
Proof. induction s as [|c s IH]; simpl; [reflexivity | now rewrite IH]. Qed.

Lemma substring_skip (front s : string) (n : nat) :
  substring (String.length front) n (front +++ s) = substring 0 n s.
Proof. induction front as [|c front IH]; simpl; [reflexivity | exact IH]. Qed.

Lemma HasSuffix_ends_with (s suffix : string) :
  ends_with s suffix -> Utils.HasSuffix s suffix = true.
Proof.
  intros [front ->]. unfold Utils.HasSuffix. rewrite string_length_app.
  apply andb_true_intro. split.
  - apply Nat.leb_le. lia.
  - replace (String.length front + String.length suffix -
             String.length suffix)%nat with (String.length front) by lia.
    rewrite substring_skip, substring_all. apply String.eqb_refl.
Qed.

Section SegmentFiles.

Context {lib : GoLib} {uni : GoUnicode}.
Variable a : AudioAnalyzer.
Hypothesis lower : ToLower_on_ascii uni.

(** The file name of every segment built by [createSegment] is wanted by
    the cleaner. *)
Lemma createSegment_wanted (start end_ : float64) (index : Z) :
  wanted (Filename (createSegment a start end_ index)) = true.
Proof.
  cbn [createSegment Filename].
  set (name := "segment_" +++ Fmt.d03 index +++ "_" +++ Fmt.f 1 start +++
               "-" +++ Fmt.f 1 end_ +++ ".wav").
  assert (Hplain : plain name).
  { unfold name.
    repeat (apply plain_app;
            [first [reflexivity | apply plain_d03 | apply plain_f] |]).
    reflexivity. }
  assert (Hends : ends_with name ".wav").
  { unfold name. repeat apply ends_with_app. now exists "". }
  unfold wanted. apply existsb_exists. exists ".wav". split.
  - right. now left.
  - rewrite (lower name (plain_ascii_only name Hplain)).
    rewrite (plain_lower name Hplain).
    now apply HasSuffix_ends_with.
Qed.

(** Every segment of a plan is built by [createSegment]. *)
Lemma plan_segments_built silencePoints totalDuration p :
  In p (plan_segments a silencePoints totalDuration) ->
  exists start end_ index, p = createSegment a start end_ index.
Proof.
  intros Hin. unfold plan_segments, splitLongSegments in Hin.
  apply fold_split_body_In in Hin.
  destruct Hin as [[] | (segment & Hseg & [[_ ->] | [_ [base Hp]]])].
  - apply list_elem_of_In, list_elem_of_lookup_1 in Hseg.
    destruct Hseg as [i Hi].
    apply raw_segments_sequential in Hi. unfold named in Hi. eauto.
  - apply list_elem_of_In, list_elem_of_lookup_1 in Hp.
    destruct Hp as [i Hi]. apply pieces_lookup in Hi.
    destruct Hi as [_ ->]. unfold piece. eauto.
Qed.

Lemma reports_not_wanted :
  wanted "transcription_results.json" = false /\
  wanted "transcription_results.txt" = false.
Proof.
  unfold wanted.
  rewrite (lower "transcription_results.json" eq_refl).
  rewrite (lower "transcription_results.txt" eq_refl).
  split; reflexivity.
Qed.

(** The walk over a directory of files. *)
Lemma files_of_directory (names : list string) :
  files Utils.dir (Utils.Dir "output" (map Utils.File names)) =
  map (fun name => (filepath_Join Utils.dir name, name)) names.
Proof.
  cbn [files]. induction names as [|name names IH]; [reflexivity|].
  cbn [map flat_map files Utils.entry_name]. now rewrite IH.
Qed.

(** The removals for a list of files of one directory. *)
Lemma removals_of_names (d : Utils.Disk) (names : list string) :
  removals
    (flat_map (handle d)
       (map (fun name => (filepath_Join Utils.dir name, name)) names)) =
  map (filepath_Join Utils.dir) (List.filter wanted names).
Proof.
  induction names as [|name l IH]; [reflexivity|].
  cbn [map flat_map List.filter].
  rewrite removals_app, removals_handle, IH. cbn [fst snd].
  destruct (wanted name); reflexivity.
Qed.

End SegmentFiles.

(** The cleaner undoes the extraction and keeps the reports. When ./output
    is a directory of files, [Clean] goes to its end and calls [os.Remove]
    on the files with a wanted name, in the order of the directory; the file
    name of every segment of every plan is wanted, whatever the analyzer and
    the probes, and the names of the JSON report and of the text report are
    not. [strings.ToLower] is taken to lower the letters A to Z of an ASCII
    text and nothing else. *)
Theorem Clean_removes_segment_files `{lib : GoLib} `{uni : GoUnicode}
    (a : AudioAnalyzer) (silencePoints : list float64)
    (totalDuration : float64) (names : list string)
    (remove : string -> option error) :
  ToLower_on_ascii uni ->
  let d := {| Utils.output := Utils.Dir "output" (map Utils.File names);
              Utils.os_Remove := remove |} in
  Utils.fatal (Utils.Clean d) = None /\
  removals (Utils.events (Utils.Clean d)) =
    map (filepath_Join Utils.dir) (List.filter wanted names) /\
  (forall p, In p (plan_segments a silencePoints totalDuration) ->
     wanted (Filename p) = true) /\
  wanted "transcription_results.json" = false /\
  wanted "transcription_results.txt" = false.
Proof.
  intros Hlower d.
  assert (Hr : readable (Utils.output d)).
  { constructor. apply Forall_forall. intros e He.
    apply list_elem_of_In, in_map_iff in He. destruct He as (n & <- & _).
    constructor. }
  assert (Hevents : Utils.events (Utils.Clean d) =
                    flat_map (handle d) (files Utils.dir (Utils.root d))).
  { unfold Utils.Clean.
    rewrite (walk_readable d (Utils.root d) Utils.dir
               (proj2 (readable_root d) Hr)).
    reflexivity. }
  split_and!.
  - unfold Utils.Clean.
    rewrite (walk_readable d (Utils.root d) Utils.dir
               (proj2 (readable_root d) Hr)).
    reflexivity.
  - rewrite Hevents.
    change (Utils.root d) with (Utils.Dir "output" (map Utils.File names)).
    rewrite files_of_directory. apply removals_of_names.
  - intros p Hp.
    destruct (plan_segments_built a silencePoints totalDuration p Hp)
      as (start & end_ & index & ->).
    now apply createSegment_wanted.
  - now apply reports_not_wanted.
  - now apply reports_not_wanted.
Qed.

Lemma Clean_removes_segment_files_witness :
  let a := example_analyzer in
  let names := ["segment_000_0.0-35.0.wav"; "Notes.TXT"; "OLD.Mp3";
                "transcription_results.json"; "transcription_results.txt"] in
  let d := {| Utils.output := Utils.Dir "output" (map Utils.File names);
              Utils.os_Remove := fun path =>
                if String.eqb path "./output/OLD.Mp3"
                then Some "permission denied" else None |} in
  ToLower_on_ascii ascii_unicode /\
  Utils.fatal (Utils.Clean (lib := example_lib) (uni := ascii_unicode) d) =
    None /\
  removals
    (Utils.events (Utils.Clean (lib := example_lib) (uni := ascii_unicode) d)) =
    ["./output/segment_000_0.0-35.0.wav"; "./output/OLD.Mp3"].
Proof.
  intros a names d.
  assert (Hlower : ToLower_on_ascii ascii_unicode) by (intros s _; reflexivity).
  split; [exact Hlower|].
  destruct (Clean_removes_segment_files (lib := example_lib)
              (uni := ascii_unicode) a [70] 85 names (Utils.os_Remove d) Hlower)
    as (Hfatal & Hremovals & _).
  split; [exact Hfatal|].
  etransitivity; [exact Hremovals | reflexivity].
Defined.

(** ** The number of workers *)

(** Two analyzers that agree on everything but the number of workers and
    the minimal duration. *)
Definition same_settings (a a' : AudioAnalyzer) : Prop :=
  InputFile a = InputFile a' /\ OutputDir a = OutputDir a' /\
  SilenceThreshold a = SilenceThreshold a' /\
  SilenceDuration a = SilenceDuration a' /\
  MaxSegmentDuration a = MaxSegmentDuration a'.

Section Workers.

Context {lib : GoLib}.
Variable w : World.
Variables a a' : AudioAnalyzer.
Hypothesis same : same_settings a a'.
Hypothesis workers : (1 <= MaxWorkers a)%Z.
Hypothesis workers' : (1 <= MaxWorkers a')%Z.

Lemma CreateSegments_settings : CreateSegments w a = CreateSegments w a'.
Proof.
  destruct same as (Hin & Hdir & Hth & Hdu & Hmax).
  unfold CreateSegments, DetectSilence, AudioAnalyzer_GetAudioDuration.
  rewrite Hin, Hth, Hdu.
  destruct (exec_CombinedOutput _ _ _) as [out [e|]]; [reflexivity|].
  destruct (parseSilenceOutput out) as [points [e|]]; [reflexivity|].
  destruct (exec_Output _ _ _) as [out' [e|]]; [reflexivity|].
  destruct (strconv_ParseFloat _); [reflexivity|].
  now rewrite (plan_segments_configuration a a' Hdir Hmax).
Qed.

Lemma extractSingleSegment_settings segment :
  extractSingleSegment w a segment = extractSingleSegment w a' segment.
Proof.
  destruct same as (Hin & _). unfold extractSingleSegment. now rewrite Hin.
Qed.

Lemma OutputResults_settings results :
  OutputResults w a results = OutputResults w a' results.
Proof.
  destruct same as (_ & Hdir & _). unfold OutputResults. now rewrite Hdir.
Qed.

Lemma ProcessWithCpp_settings plan o :
  ProcessWithCpp w a plan o <-> ProcessWithCpp w a' plan o.
Proof.
  assert (H : exists o0,
            (forall o, ProcessWithCpp w a plan o <-> o = o0) /\
            (forall o, ProcessWithCpp w a' plan o <-> o = o0)).
  { destruct (os_Stat_IsNotExist w exePath) eqn:Hexe.
    - destruct plan as [|s l].
      + destruct (ProcessWithCpp_nothing w a) as [H1 H2]; [lia|].
        destruct (ProcessWithCpp_nothing w a') as [H1' H2']; [lia|].
        eexists. split; intros o0; split; auto; now intros ->.
      + destruct (ProcessWithCpp_exits w a (s :: l) workers Hexe) as [H1 H2];
          [discriminate|].
        destruct (ProcessWithCpp_exits w a' (s :: l) workers' Hexe) as [H1' H2'];
          [discriminate|].
        exists Exit. split; intros o0; split; auto; now intros ->.
    - destruct (ProcessWithCpp_returns w a plan workers Hexe) as [H1 H2].
      destruct (ProcessWithCpp_returns w a' plan workers' Hexe) as [H1' H2'].
      eexists. split; intros o0; split; auto; now intros ->. }
  destruct H as (o0 & H & H'). now rewrite H, H'.
Qed.

Lemma Run_outcome_settings : Run_outcome w a = Run_outcome w a'.
Proof.
  unfold Run_outcome, report_outcome. rewrite CreateSegments_settings.
  destruct same as (_ & Hdir & _). rewrite Hdir.
  destruct (CreateSegments w a') as [plan [e|]]; [reflexivity|].
  destruct (os_MkdirAll w (OutputDir a')); [reflexivity|].
  destruct (_ && _); [reflexivity|].
  now rewrite OutputResults_settings.
Qed.

End Workers.

(** The number of workers changes how many goroutines work at a time and
    nothing else: two analyzers with at least one worker each that agree on
    the input file, the output directory, the silence settings and the
    maximal duration plan the same segments, extract each of them with the
    same answer, have the same outcomes of the transcription pool for every
    plan, write the same report, and their runs have the same outcomes. *)
Theorem workers_change_no_outcome `{lib : GoLib} (w : World)
    (a a' : AudioAnalyzer) :
  same_settings a a' ->
  (1 <= MaxWorkers a)%Z -> (1 <= MaxWorkers a')%Z ->
  CreateSegments w a = CreateSegments w a' /\
  (forall segment,
     extractSingleSegment w a segment = extractSingleSegment w a' segment) /\
  (forall plan o, ProcessWithCpp w a plan o <-> ProcessWithCpp w a' plan o) /\
  (forall results, OutputResults w a results = OutputResults w a' results) /\
  (forall o, Run w a o <-> Run w a' o).
Proof.
  intros Hsame Hw Hw'. split_and!.
  - now apply CreateSegments_settings.
  - intros segment. now apply extractSingleSegment_settings.
  - intros plan o. now apply ProcessWithCpp_settings.
  - intros results. now apply OutputResults_settings.
  - intros o. rewrite (Run_iff_outcome w a o Hw), (Run_iff_outcome w a' o Hw').
    now rewrite (Run_outcome_settings w a a' Hsame).
Qed.

Lemma workers_change_no_outcome_witness :
  let a := example_analyzer in
  let a' := {| InputFile := "in.wav"; OutputDir := "out"; MaxWorkers := 8;
               SilenceThreshold := "-30dB"; SilenceDuration := "5";
               MinSegmentDuration := 0; MaxSegmentDuration := 60 |} in
  same_settings a a' /\
  forall o, Run (lib := example_lib) example_world a o <->
            Run (lib := example_lib) example_world a' o.
Proof.
  intros a a'.
  assert (Hsame : same_settings a a') by (repeat split).
  split; [exact Hsame|].
  apply (workers_change_no_outcome (lib := example_lib) example_world a a' Hsame);
    discriminate.
Defined.
